(** * GestureKeyboard: the trie dictionary and the candidate ranker

    A shallow embedding of [trie.py] (the approximate-match dictionary) and
    of the ranking core of [vkeyboard.py] (language model, typed corrections
    and predictions, gesture pre-filter, arc-length resampling, commit of a
    word), with the properties the specification states about them.

    Conventions.
    - A Python [str] is a [list ascii]; a Python [int] is a [Z].
    - A Python exception is a value [Raise e] of the [result] type; the
      statements of a function are sequenced with [let!].
    - A [dict] that the code iterates (the children of a trie node) is an
      association list with unique keys, new keys going last; the order of
      a Python 2 [dict] is unspecified and no property depends on it. A
      [dict] used only through lookups, [len] and [items] is a [gmap].
    - A node reference is the node itself: the functions below never compare
      nodes by identity.
    - A [while] loop takes a number of turns ([fuel]) and answers [None]
      when they do not suffice; the properties give the turns that do.
    - A Python [float] is a value of the interface [PyFloat]; the examples
      run on IEEE binary64. *)

From Stdlib Require Import ZArith Lia Ascii String.
From Stdlib Require Import Floats.PrimFloat.
From Stdlib Require Numbers.Cyclic.Int63.Uint63.
From stdpp Require Import base option list gmap strings sorting.

Set Default Proof Using "Type".
Set Warnings "-register-all,-inexact-float,-clear-no-such-hyp".
Local Open Scope Z_scope.

(** ** Python values and exceptions *)

Definition str := list ascii.

Inductive exn :=
  IndexError | KeyError | TypeError | ValueError | ZeroDivisionError | UnicodeEncodeError.

Inductive result (A : Type) : Type :=
| Ok (a : A)
| Raise (e : exn).
Arguments Ok {A} a.
Arguments Raise {A} e.

Notation "'let!' x ':=' m 'in' k" :=
  (match m with Ok x => k | Raise e => Raise e end)
  (at level 10, x name, m at level 100, k at level 200, only parsing).

Definition is_Ok {A} (r : result A) : Prop := ∃ a, r = Ok a.

(** [l[i]] for [0 <= i]: an [IndexError] out of range. *)
Definition py_index {A} (l : list A) (i : nat) : result A :=
  match l !! i with Some x => Ok x | None => Raise IndexError end.

(** [l[-1]]. *)
Definition py_last {A} (l : list A) : result A :=
  match last l with Some x => Ok x | None => Raise IndexError end.

(** [min(l)] on a list of integers: a [ValueError] on the empty list. *)
Definition py_min (l : list Z) : result Z :=
  match l with
  | [] => Raise ValueError
  | x :: l' => Ok (foldl Z.min x l')
  end.

(** [range(n)] (Python 2: a list). *)
Definition py_range (n : nat) : list Z := Z.of_nat <$> seq 0 n.

(** ** Dictionaries in iteration order *)

Section dict.
Context {A : Type}.

(** [d.get(k)] / [k in d] / [d[k]]. *)
Fixpoint dict_get (d : list (ascii * A)) (k : ascii) : option A :=
  match d with
  | [] => None
  | (k', a) :: d' => if decide (k' = k) then Some a else dict_get d' k
  end.

(** [d[k] = a]: the entry is replaced in place, a new key goes last. *)
Fixpoint dict_set (d : list (ascii * A)) (k : ascii) (a : A) : list (ascii * A) :=
  match d with
  | [] => [(k, a)]
  | (k', a') :: d' =>
      if decide (k' = k) then (k, a) :: d' else (k', a') :: dict_set d' k a
  end.
End dict.

(** ** trie.py: the data model *)

Section trie.
Context {V : Type}.

(** [class TrieNode]: [word] is [None] or the word that ends here, [value]
    is [None] or the payload, [children] maps a letter to a node. *)
Inductive TrieNode : Type :=
  mkNode { word : option str; value : option V; children : list (ascii * TrieNode) }.

(** [TrieNode()] *)
Definition new_node : TrieNode := mkNode None None [].

(** [class Trie]: the root and the words in insertion order. *)
Record Trie : Type := mkTrie { trie : TrieNode; words : list str }.

(** [Trie()] *)
Definition new_trie : Trie := mkTrie new_node [].

(** [Trie.__getitem__], from [node] on the letters still to read. *)
Fixpoint getitem_from (node : TrieNode) (letters : str) : option V :=
  match letters with
  | [] => value node
  | letter :: rest =>
      match dict_get (children node) letter with
      | None => None
      | Some child => getitem_from child rest
      end
  end.

Definition getitem (t : Trie) (w : str) : option V := getitem_from (trie t) w.

(** [Trie.__setitem__], from [node] on the letters still to read: the walk
    creates the missing nodes; at the last node it reports whether
    [node.word != word] held before the node is marked. *)
Fixpoint setitem_from (node : TrieNode) (letters : str) (w : str) (v : V)
  : TrieNode * bool :=
  match letters with
  | [] =>
      (mkNode (Some w) (Some v) (children node),
       bool_decide (word node ≠ Some w))
  | letter :: rest =>
      let child := default new_node (dict_get (children node) letter) in
      let r := setitem_from child rest w v in
      (mkNode (word node) (value node) (dict_set (children node) letter r.1), r.2)
  end.

Definition setitem (t : Trie) (w : str) (v : V) : Trie :=
  let r := setitem_from (trie t) w w v in
  mkTrie r.1 (if r.2 then words t ++ [w] else words t).

(** [Trie.__iter__] *)
Definition iter (t : Trie) : list str := words t.

(** The node reached from [node] along [letters], if the path exists. *)
Fixpoint node_at (node : TrieNode) (letters : str) : option TrieNode :=
  match letters with
  | [] => Some node
  | letter :: rest =>
      match dict_get (children node) letter with
      | None => None
      | Some child => node_at child rest
      end
  end.

(** [w] is a stored word: the node at the end of its path is marked. *)
Definition terminal (t : Trie) (w : str) : Prop :=
  ∃ n, node_at (trie t) w = Some n ∧ word n = Some w.

(** The tries a program can build: [Trie()] and any number of item
    assignments. *)
Inductive reachable : Trie → Prop :=
| reachable_new : reachable new_trie
| reachable_set t w v : reachable t → reachable (setitem t w v).

(** Well-formedness of the node at path [p]: a marker, if set, is the path;
    a marked node has a value; the keys of a node are distinct. *)
Inductive wf_node : str → TrieNode → Prop :=
| wf_mkNode p w v cs :
    (w = None ∨ w = Some p) →
    (is_Some w → is_Some v) →
    NoDup cs.*1 →
    Forall (λ lc, wf_node (p ++ [lc.1]) lc.2) cs →
    wf_node p (mkNode w v cs).
End trie.

Arguments TrieNode V : clear implicits.
Arguments Trie V : clear implicits.

(** ** trie.py: the fuzzy searches *)

Section search.
Context {V : Type}.

(** One turn of the column loop of [_searchRecursive]: the cell of
    [currentRow] for [column], appended. *)
Definition row_cell (letter : ascii) (w : str) (previousRow currentRow : list Z)
    (column : nat) : result (list Z) :=
  let! left := py_index currentRow (column - 1) in
  let insertCost := left + 1 in
  let! up := py_index previousRow column in
  let deleteCost := up + 1 in
  let! c := py_index w (column - 1) in
  let! diag := py_index previousRow (column - 1) in
  let replaceCost := if decide (c ≠ letter) then diag + 1 else diag in
  Ok (currentRow ++ [Z.min insertCost (Z.min deleteCost replaceCost)]).

(** [for column in xrange(1, columns)] *)
Fixpoint row_loop (letter : ascii) (w : str) (previousRow : list Z)
    (columns : list nat) (currentRow : list Z) : result (list Z) :=
  match columns with
  | [] => Ok currentRow
  | column :: rest =>
      let! currentRow := row_cell letter w previousRow currentRow column in
      row_loop letter w previousRow rest currentRow
  end.

(** The row of [_searchRecursive] for [letter], from the row of the parent. *)
Definition next_row (letter : ascii) (w : str) (previousRow : list Z) : result (list Z) :=
  let columns := (length w + 1)%nat in
  let! first := py_index previousRow 0 in
  row_loop letter w previousRow (seq 1 (columns - 1)) [first + 1].

(** [Trie._searchRecursive]: [results] is the list the calls share; the
    function returns it with what the call appended. *)
Fixpoint searchRecursive (node : TrieNode V) (letter : ascii) (w : str)
    (previousRow : list Z) (results : list (TrieNode V * Z)) (maxCost : Z)
    {struct node} : result (list (TrieNode V * Z)) :=
  let! currentRow := next_row letter w previousRow in
  let! cost := py_last currentRow in
  let results := if decide (cost ≤ maxCost) then results ++ [(node, cost)] else results in
  let! least := py_min currentRow in
  if decide (least ≤ maxCost) then
    match node with
    | mkNode _ _ cs =>
        (fix each (cs : list (ascii * TrieNode V)) (results : list (TrieNode V * Z)) :=
           match cs with
           | [] => Ok results
           | (letter, child) :: cs' =>
               let! results := searchRecursive child letter w currentRow results maxCost in
               each cs' results
           end) cs results
    end
  else Ok results.

(** [for letter in node.children: self._searchRecursive(node.children[letter], ...)] *)
Fixpoint search_children (cs : list (ascii * TrieNode V)) (w : str)
    (currentRow : list Z) (results : list (TrieNode V * Z)) (maxCost : Z)
    : result (list (TrieNode V * Z)) :=
  match cs with
  | [] => Ok results
  | (letter, child) :: cs' =>
      let! results := searchRecursive child letter w currentRow results maxCost in
      search_children cs' w currentRow results maxCost
  end.

(** [Trie.search_correction] *)
Definition search_correction (t : Trie V) (w : str) (maxCost : Z) : result (list (str * Z)) :=
  let currentRow := py_range (length w + 1) in
  let! results := search_children (children (trie t)) w currentRow [] maxCost in
  let totalResults :=
    omap (λ nv : TrieNode V * Z, (λ x, (x, nv.2)) <$> word nv.1) results in
  Ok totalResults.

(** One turn of [while len(S) > 0] in [search_prediction]: the node on top
    of the stack is popped, recorded if it ends a word that is new or was
    recorded at a greater cost, and its children are pushed. *)
Definition visit (cost : Z) (n : TrieNode V) (totalResults : gmap str Z) : gmap str Z :=
  match word n with
  | Some x =>
      match totalResults !! x with
      | None => <[x := cost]> totalResults
      | Some c => if decide (c > cost) then <[x := cost]> totalResults else totalResults
      end
  | None => totalResults
  end.

(** The [while] loop; [fuel] bounds the number of turns, [None] is a loop
    that was cut short. *)
Fixpoint walk (fuel : nat) (cost : Z) (S : list (TrieNode V)) (totalResults : gmap str Z)
    : option (gmap str Z) :=
  match S with
  | [] => Some totalResults
  | _ =>
      match fuel with
      | O => None
      | Datatypes.S fuel =>
          match last S with
          | None => Some totalResults
          | Some n =>
              walk fuel cost (removelast S ++ (children n).*2) (visit cost n totalResults)
          end
      end
  end.

(** [for node, cost in results] *)
Fixpoint walk_results (fuel : nat) (results : list (TrieNode V * Z))
    (totalResults : gmap str Z) : option (gmap str Z) :=
  match results with
  | [] => Some totalResults
  | (node, cost) :: rest =>
      match walk fuel cost [node] totalResults with
      | None => None
      | Some totalResults => walk_results fuel rest totalResults
      end
  end.

(** [Trie.search_prediction]; [None] when a [while] loop needs more than
    [fuel] turns. *)
Definition search_prediction (fuel : nat) (t : Trie V) (w : str) (maxCost : Z)
    : option (result (list (str * Z))) :=
  let currentRow := py_range (length w + 1) in
  match search_children (children (trie t)) w currentRow [] maxCost with
  | Raise e => Some (Raise e)
  | Ok results =>
      match walk_results fuel results ∅ with
      | None => None
      | Some totalResults => Some (Ok (map_to_list totalResults))
      end
  end.

(** The number of nodes of a subtree: the turns a walk from it takes. *)
Fixpoint node_count (n : TrieNode V) : nat :=
  match n with
  | mkNode _ _ cs =>
      Datatypes.S ((fix sum (cs : list (ascii * TrieNode V)) : nat :=
           match cs with
           | [] => O
           | (_, c) :: cs' => (node_count c + sum cs')%nat
           end) cs)
  end.
End search.

(** ** Edit distance, as the specification means it *)

(** [edits s t n]: some sequence of insertions, deletions and substitutions
    of single letters, [n] of them, turns [s] into [t]. *)
Inductive edits : str → str → Z → Prop :=
| edits_nil : edits [] [] 0
| edits_keep a s t n : edits s t n → edits (a :: s) (a :: t) n
| edits_subst a b s t n : edits s t n → edits (a :: s) (b :: t) (n + 1)
| edits_delete a s t n : edits s t n → edits (a :: s) t (n + 1)
| edits_insert b s t n : edits s t n → edits s (b :: t) (n + 1).

(** [d] is the edit distance of [s] and [t]: the least number of edits. *)
Definition edit_distance (s t : str) (d : Z) : Prop :=
  edits s t d ∧ ∀ n, edits s t n → d ≤ n.

(** The edit distance as a function (Wagner and Fischer's recurrence on the
    first letters). *)
Fixpoint lev (s t : str) : Z :=
  match s with
  | [] => Z.of_nat (length t)
  | a :: s' =>
      (fix lev_s (t : str) : Z :=
         match t with
         | [] => Z.of_nat (length s)
         | b :: t' =>
             Z.min (lev s' t + 1)
               (Z.min (lev_s t' + 1) (lev s' t' + (if decide (a = b) then 0 else 1)))
         end) t
  end.

(** The row a search holds at the node of path [p]: the distances of [p] to
    the prefixes of the query. *)
Definition row_of (p q : str) : list Z :=
  (λ j, lev p (take j q)) <$> seq 0 (S (length q)).

(** ** Python floats

    The arithmetic of [float] that [vkeyboard.py] uses, as an interface:
    the properties below hold for every implementation of it. Mixed
    arithmetic converts the integer operand with [of_int]; a division by
    zero is raised by [py_fdiv] and [py_fdiv_int], not by [fdiv]. *)

Class PyFloat : Type := {
  pyfloat : Type;
  of_int : Z → pyfloat;
  fadd : pyfloat → pyfloat → pyfloat;
  fsub : pyfloat → pyfloat → pyfloat;
  fmul : pyfloat → pyfloat → pyfloat;
  fdiv : pyfloat → pyfloat → pyfloat;
  fneg : pyfloat → pyfloat;
  fabs : pyfloat → pyfloat;
  fpow : pyfloat → pyfloat → pyfloat;
  fexp : pyfloat → pyfloat;
  flt : pyfloat → pyfloat → bool;
  fle : pyfloat → pyfloat → bool;
  feq : pyfloat → pyfloat → bool;
  f0_0 : pyfloat;
  f0_001 : pyfloat;
  f0_1 : pyfloat;
  f0_4 : pyfloat;
  f0_5 : pyfloat;
  f0_8 : pyfloat;
  f1_4 : pyfloat
}.

(** IEEE binary64 with the kernel's floats: [+ - * /], [abs] and the
    comparisons are those of a C [double]. [**] and [math.exp] belong to the
    C library; this instance tabulates [x ** 0], [x ** 1], [x ** 2] (the
    rounded product) and [x ** 0.5] (the rounded square root) and [exp(0)],
    and answers [nan] elsewhere. It serves the examples, which stay inside
    the table. *)
Definition binary64_of_int (z : Z) : PrimFloat.float :=
  match z with
  | Z0 => PrimFloat.zero
  | Zpos p => PrimFloat.of_uint63 (Uint63.of_Z (Zpos p))
  | Zneg p => PrimFloat.opp (PrimFloat.of_uint63 (Uint63.of_Z (Zpos p)))
  end.

Definition binary64_pow (x y : PrimFloat.float) : PrimFloat.float :=
  if PrimFloat.eqb y PrimFloat.zero then PrimFloat.one
  else if PrimFloat.eqb y PrimFloat.one then x
  else if PrimFloat.eqb y PrimFloat.two then PrimFloat.mul x x
  else if PrimFloat.eqb y 0.5%float then PrimFloat.sqrt x
  else PrimFloat.nan.

Definition binary64_exp (x : PrimFloat.float) : PrimFloat.float :=
  if PrimFloat.eqb x PrimFloat.zero then PrimFloat.one else PrimFloat.nan.

Definition binary64 : PyFloat := {|
  pyfloat := PrimFloat.float;
  of_int := binary64_of_int;
  fadd := PrimFloat.add;
  fsub := PrimFloat.sub;
  fmul := PrimFloat.mul;
  fdiv := PrimFloat.div;
  fneg := PrimFloat.opp;
  fabs := PrimFloat.abs;
  fpow := binary64_pow;
  fexp := binary64_exp;
  flt := PrimFloat.ltb;
  fle := PrimFloat.leb;
  feq := PrimFloat.eqb;
  f0_0 := 0.0%float;
  f0_001 := 0.001%float;
  f0_1 := 0.1%float;
  f0_4 := 0.4%float;
  f0_5 := 0.5%float;
  f0_8 := 0.8%float;
  f1_4 := 1.4%float
|}.

(** [l[i]] for any integer [i]: a negative index counts from the end. *)
Definition py_item {A} (l : list A) (i : Z) : result A :=
  let n := Z.of_nat (length l) in
  let j := if decide (i < 0) then i + n else i in
  if decide (0 ≤ j < n) then py_index l (Z.to_nat j) else Raise IndexError.

(** [[f(x) for x in l]]: the first exception ends the comprehension. *)
Fixpoint for_each {A B} (f : A → result B) (l : list A) : result (list B) :=
  match l with
  | [] => Ok []
  | x :: l' =>
      let! y := f x in
      let! ys := for_each f l' in
      Ok (y :: ys)
  end.

(** [str.lower()] on a byte string. *)
Definition lower_letter (c : ascii) : ascii :=
  let n := nat_of_ascii c in
  if decide (65 ≤ n ≤ 90)%nat then ascii_of_nat (n + 32) else c.

Definition py_lower (s : str) : str := lower_letter <$> s.

(** [str(u)] for a unicode string [u] (Python 2): the ASCII codec raises
    [UnicodeEncodeError] at a character above 127. The characters of a text
    are modelled by one byte, a code point up to 255. *)
Definition is_ascii (u : str) : bool :=
  forallb (λ c, bool_decide (nat_of_ascii c < 128)%nat) u.

Definition str_of_unicode (u : str) : result str :=
  if is_ascii u then Ok u else Raise UnicodeEncodeError.

(** ** vkeyboard.py: the ranking core *)

Section vkeyboard.
Context `{PyFloat}.

Definition point : Type := pyfloat * pyfloat.

(** The value of a word in the trie: the tuple [(path, length, frequency)]. *)
Record WordEntry : Type := mkEntry {
  we_path : list point;
  we_length : pyfloat;
  we_freq : pyfloat
}.

(** The fields of [VKeyboard] that the ranking core reads and writes;
    [kb_words] is [self.words]. *)
Record VKeyboard : Type := mkVKeyboard {
  key_width : pyfloat;
  key_height : pyfloat;
  key_centers : gmap ascii point;
  kb_words : Trie WordEntry;
  user_nograms : Z;
  user_unigrams : gmap str Z;
  user_bigrams : gmap (str * str) Z
}.

(** [x / d] for a float [x] and an integer [d]. *)
Definition py_fdiv_int (x : pyfloat) (d : Z) : result pyfloat :=
  if decide (d = 0) then Raise ZeroDivisionError else Ok (fdiv x (of_int d)).

(** [x / y] for floats. *)
Definition py_fdiv (x y : pyfloat) : result pyfloat :=
  if feq y f0_0 then Raise ZeroDivisionError else Ok (fdiv x y).

(** [min(a, b)] for floats: [b] when [b < a], else [a]. *)
Definition py_fmin (a b : pyfloat) : pyfloat := if flt b a then b else a.

(** [((b[0]-a[0])**2 + (b[1]-a[1])**2)**0.5], as the value of the
    expression: the [OverflowError] that [**] raises when the square of a
    finite difference is beyond the range of floats is not part of the
    interface of floats (see [square_in_range]). *)
Definition seg_length (a b : point) : pyfloat :=
  fpow (fadd (fpow (fsub b.1 a.1) (of_int 2)) (fpow (fsub b.2 a.2) (of_int 2))) f0_5.

(** [VKeyboard.val_dist] *)
Fixpoint val_dist_loop (path : list point) (indices : list nat) (tot : pyfloat)
    : result pyfloat :=
  match indices with
  | [] => Ok tot
  | i :: rest =>
      let! b := py_index path i in
      let! a := py_index path (i - 1) in
      val_dist_loop path rest (fadd tot (seg_length a b))
  end.

Definition val_dist (path : list point) : result (list point * pyfloat) :=
  let! tot := val_dist_loop path (seq 1 (length path - 1)) f0_0 in
  Ok (path, tot).

(** [tuple(map(self.key_centers.__getitem__, word))] *)
Definition key_path (kb : VKeyboard) (w : str) : result (list point) :=
  for_each (λ c, match key_centers kb !! c with
                 | Some xy => Ok xy
                 | None => Raise KeyError
                 end) w.

(** [self.words[word]] read as a tuple: [None] is not subscriptable. *)
Definition word_entry (kb : VKeyboard) (w : str) : result WordEntry :=
  match getitem (kb_words kb) w with
  | Some e => Ok e
  | None => Raise TypeError
  end.

(** [VKeyboard.get_ngram_probability] *)
Definition get_ngram_probability (kb : VKeyboard) (w prev_word : str) : result pyfloat :=
  let nogram := user_nograms kb in
  let bigram := default 0 (user_bigrams kb !! (prev_word, w)) in
  let unigram1 := default 0 (user_unigrams kb !! prev_word) in
  let unigram2 := default 0 (user_unigrams kb !! w) in
  let! b := py_fdiv_int (fmul f0_4 (of_int (bigram + 1)))
              (unigram1 + Z.of_nat (size (user_unigrams kb))) in
  let! u := py_fdiv_int (fmul f0_1 (of_int (unigram2 + 1)))
              (nogram + Z.of_nat (size (user_unigrams kb))) in
  let p := fadd b u in
  let! e := word_entry kb w in
  Ok (fadd p (fmul f0_5 (we_freq e))).

(** [candidates.sort(key=lambda x: x[1], reverse=True)]: the stable sort,
    greatest score first, written as the insertion sort (the order
    [list.sort] produces whenever [<] is a strict weak order on the
    scores). *)
Fixpoint insert_desc (x : str * pyfloat) (l : list (str * pyfloat))
    : list (str * pyfloat) :=
  match l with
  | [] => [x]
  | y :: l' => if flt x.2 y.2 then y :: insert_desc x l' else x :: y :: l'
  end.

Definition py_sort_desc (l : list (str * pyfloat)) : list (str * pyfloat) :=
  foldr insert_desc [] l.

(** [(w, 0.001**d * self.get_ngram_probability(w, prev_word))] *)
Definition score_hit (kb : VKeyboard) (prev_word : str) (wd : str * Z)
    : result (str * pyfloat) :=
  let scale := fpow f0_001 (of_int wd.2) in
  let! p := get_ngram_probability kb wd.1 prev_word in
  Ok (wd.1, fmul scale p).

(** [VKeyboard.candidate_corrections]; [prev_word] is what
    [get_previous_word()] returned. *)
Definition candidate_corrections (kb : VKeyboard) (prev_word w : str)
    : result (list (str * pyfloat)) :=
  let! hits := search_correction (kb_words kb) w 2 in
  let! candidates := for_each (score_hit kb prev_word) hits in
  Ok (py_sort_desc candidates).

(** [VKeyboard.candidate_predictions]; [None] when a loop of the search
    needs more than [fuel] turns. *)
Definition candidate_predictions (fuel : nat) (kb : VKeyboard) (prev_word w : str)
    : option (result (list (str * pyfloat))) :=
  match search_prediction fuel (kb_words kb) w 2 with
  | None => None
  | Some (Raise e) => Some (Raise e)
  | Some (Ok hits) =>
      Some (let! candidates := for_each (score_hit kb prev_word) hits in
            Ok (py_sort_desc candidates))
  end.

(** [bisect.bisect_left(a, x)]: the loop [while lo < hi], which halves
    [hi - lo]; [fuel] counts its turns, and [length a + 1] turns are more
    than it takes ([bisect_loop_fuel]). [a[mid]] is always in range. *)
Fixpoint bisect_loop (fuel : nat) (a : list pyfloat) (x : pyfloat) (lo hi : nat) : nat :=
  match fuel with
  | O => lo
  | S fuel =>
      if decide (lo < hi)%nat then
        let mid := ((lo + hi) / 2)%nat in
        match a !! mid with
        | Some y =>
            if flt y x then bisect_loop fuel a x (mid + 1) hi
            else bisect_loop fuel a x lo mid
        | None => lo
        end
      else lo
  end.

Definition bisect_left (a : list pyfloat) (x : pyfloat) : nat :=
  bisect_loop (S (length a)) a x 0 (length a).

(** The first loop of [word_sample_n]: the cumulated lengths. *)
Fixpoint cum_length_loop (path : list point) (indices : list nat)
    (cum_length : list pyfloat) : result (list pyfloat) :=
  match indices with
  | [] => Ok cum_length
  | i :: rest =>
      let! last := py_last cum_length in
      let! b := py_index path i in
      let! a := py_index path (i - 1) in
      cum_length_loop path rest (cum_length ++ [fadd last (seg_length a b)])
  end.

(** One turn of [for k in range(n)] in [word_sample_n]. *)
Definition sample_point (path : list point) (cum_length : list pyfloat) (n : Z) (k : Z)
    : result point :=
  let! total := py_last cum_length in
  let! t := py_fdiv_int (fmul (of_int k) total) (n - 1) in
  let L := py_fmin t total in
  let i := Z.of_nat (bisect_left (drop 1 cum_length) L) in
  let i := if decide (Z.of_nat (length path) - 1 ≤ i) then i - 1 else i in
  let! c1 := py_item cum_length (i + 1) in
  let! c0 := py_item cum_length i in
  let! p :=
    if feq c1 c0 then Ok (of_int 0)
    else py_fdiv (fsub L c0) (fsub c1 c0) in
  let! a := py_item path i in
  let! b := py_item path (i + 1) in
  Ok (fadd a.1 (fmul p (fsub b.1 a.1)), fadd a.2 (fmul p (fsub b.2 a.2))).

(** [VKeyboard.word_sample_n] *)
Definition word_sample_n (kb : VKeyboard) (w : str) (n : Z) : result (list point) :=
  let! e := word_entry kb w in
  let path := we_path e in
  let! cum_length := cum_length_loop path (seq 1 (length path - 1)) [f0_0] in
  for_each (sample_point path cum_length n) (py_range (Z.to_nat n)).

(** [((x1-x2)**2 + (y1-y2)**2)**0.5] of [gesture_distance], as the value
    of the expression (see [seg_length]). *)
Definition point_distance (g t : point) : pyfloat :=
  fpow (fadd (fpow (fsub g.1 t.1) (of_int 2)) (fpow (fsub g.2 t.2) (of_int 2))) f0_5.

(** [VKeyboard.gesture_distance]; [sum] starts from the integer [0]. *)
Definition gesture_distance (kb : VKeyboard) (gesture : list point) (w : str)
    : result pyfloat :=
  let n := Z.of_nat (length gesture) in
  let! template := word_sample_n kb w n in
  let total :=
    foldl fadd (of_int 0) (zip_with point_distance gesture template) in
  py_fdiv_int total n.

(** The three tests of [candidate_matches] on one word: [Ok true] when the
    loop goes on to score the word, [Ok false] when it [continue]s. *)
Definition prefilter (kb : VKeyboard) (gesture : list point) (gest_length : pyfloat)
    (w : str) : result bool :=
  let! path := word_entry kb w in
  let! p0 := py_item (we_path path) 0 in
  let! g0 := py_item gesture 0 in
  if flt (key_width kb) (fabs (fsub p0.1 g0.1))
     || flt (key_height kb) (fabs (fsub p0.2 g0.2))
  then Ok false
  else
    let! p1 := py_item (we_path path) (-1) in
    let! g1 := py_item gesture (-1) in
    if flt (key_width kb) (fabs (fsub p1.1 g1.1))
       || flt (key_height kb) (fabs (fsub p1.2 g1.2))
    then Ok false
    else
      if negb (fle (fmul f0_8 (we_length path)) gest_length
               && fle gest_length (fmul f1_4 (we_length path)))
      then Ok false
      else Ok true.

(** [exp(-self.gesture_distance(gesture, word)/2)
     * self.get_ngram_probability(word, prev_word)] *)
Definition score_match (kb : VKeyboard) (prev_word : str) (gesture : list point)
    (w : str) : result (str * pyfloat) :=
  let! d := gesture_distance kb gesture w in
  let! half := py_fdiv_int (fneg d) 2 in
  let! p := get_ngram_probability kb w prev_word in
  Ok (w, fmul (fexp half) p).

(** [for word in self.words] of [candidate_matches] *)
Fixpoint matches_loop (kb : VKeyboard) (prev_word : str) (gesture : list point)
    (gest_length : pyfloat) (ws : list str) (candidates : list (str * pyfloat))
    : result (list (str * pyfloat)) :=
  match ws with
  | [] => Ok candidates
  | w :: rest =>
      let! keep := prefilter kb gesture gest_length w in
      if keep then
        let! c := score_match kb prev_word gesture w in
        matches_loop kb prev_word gesture gest_length rest (candidates ++ [c])
      else matches_loop kb prev_word gesture gest_length rest candidates
  end.

(** [VKeyboard.candidate_matches]; [prev_word] is what
    [get_previous_word()] returned. *)
Definition candidate_matches (kb : VKeyboard) (prev_word : str) (gesture : list point)
    : result (list (str * pyfloat)) :=
  let! gd := val_dist gesture in
  let gest_length := gd.2 in
  let! candidates :=
    matches_loop kb prev_word gesture gest_length (iter (kb_words kb)) [] in
  Ok (py_sort_desc candidates).

(** The statements of [on_touch_up] under the test [if cur_word != '']: the
    count of the word, its storage when it is new, its unigram and its
    bigram, without the dispatch to the text area and the refresh of the
    suggestions. *)
Definition count_word (kb : VKeyboard) (prev_word cur_word : str) : VKeyboard * result unit :=
  if decide (cur_word ≠ []) then
    let kb := mkVKeyboard (key_width kb) (key_height kb) (key_centers kb) (kb_words kb)
                (user_nograms kb + 1) (user_unigrams kb) (user_bigrams kb) in
    let stored :=
      if decide (cur_word ∉ iter (kb_words kb)) then
        let! path := key_path kb (py_lower cur_word) in
        let! pd := val_dist path in
        Ok (setitem (kb_words kb) (py_lower cur_word) (mkEntry pd.1 pd.2 f0_0))
      else Ok (kb_words kb) in
    match stored with
    | Raise e => (kb, Raise e)
    | Ok ws =>
        let unigrams :=
          <[cur_word := default 0 (user_unigrams kb !! cur_word) + 1]> (user_unigrams kb) in
        let bigrams :=
          if decide (prev_word ≠ []) then
            <[(prev_word, cur_word) :=
                default 0 (user_bigrams kb !! (prev_word, cur_word)) + 1]> (user_bigrams kb)
          else user_bigrams kb in
        (mkVKeyboard (key_width kb) (key_height kb) (key_centers kb) ws
           (user_nograms kb) unigrams bigrams, Ok ())
    end
  else (kb, Ok ()).

(** The commit of a word in [on_touch_up], from
    [prev_word = str(self.get_previous_word())] and
    [cur_word = str(self.get_current_word())] on; [prev_word] and [cur_word]
    are the unicode strings the two calls returned. The keyboard is returned
    as the statements left it, with [Raise e] when an exception ended them. *)
Definition commit (kb : VKeyboard) (prev_word cur_word : str) : VKeyboard * result unit :=
  match str_of_unicode prev_word with
  | Raise e => (kb, Raise e)
  | Ok prev_word =>
      match str_of_unicode cur_word with
      | Raise e => (kb, Raise e)
      | Ok cur_word => count_word kb prev_word cur_word
      end
  end.

(** The session counters as [__init__] leaves them, over a loaded
    vocabulary. *)
Definition init_keyboard (kw kh : pyfloat) (centers : gmap ascii point)
    (vocabulary : Trie WordEntry) : VKeyboard :=
  mkVKeyboard kw kh centers vocabulary 1 {[ list_ascii_of_string "the" := 1 ]} ∅.
End vkeyboard.

(** ** The vocabulary of the properties: tries *)

Section trie_spec.
Context {V : Type}.
Implicit Types (n node : TrieNode V) (t : Trie V) (w p q s : str).
Implicit Types (S : list (TrieNode V)) (res : list (TrieNode V * Z)) (m c cost : Z).
Implicit Types (tot : gmap str Z).

(** The marker found at the end of a path. *)
Definition mark n s : option str := node_at n s ≫= word.

(** The invariant of a reachable trie. *)
Definition trie_inv t : Prop :=
  wf_node [] (trie t) ∧ NoDup (words t) ∧ ∀ w, w ∈ words t ↔ terminal t w.

(** [hits q m p n res]: [res] lists the nodes below the node [n] of path
    [p], each with the distance of its own path to the query, that are
    within [m] of the query. *)
Definition hits q m p n res : Prop :=
  ∀ (x : TrieNode V) c, (x, c) ∈ res ↔ ∃ s, node_at n s = Some x ∧ c = lev (p ++ s) q ∧ c ≤ m.

(** The words marked in a subtree. *)
Fixpoint subtree_words n : list str :=
  match n with
  | mkNode ow _ cs =>
      option_list ow ++
      (fix below (cs : list (ascii * TrieNode V)) : list str :=
         match cs with
         | [] => []
         | (_, ch) :: cs' => subtree_words ch ++ below cs'
         end) cs
  end.

Definition stack_words S : list str := S ≫= subtree_words.

Definition stack_count S : nat := sum_list_with node_count S.

(** The cost recorded for a word that already has the entry [o]. *)
Definition lower cost (o : option Z) : Z :=
  match o with None => cost | Some c => Z.min c cost end.

(** The entry of [x] after the walks from [results], from the entry [o]. *)
Definition best (x : str) (results : list (TrieNode V * Z)) (o : option Z) : option Z :=
  foldl (λ o nc, if decide (x ∈ subtree_words nc.1) then Some (lower nc.2 o) else o)
    o results.
End trie_spec.

(** The first [k] cells of a row. *)
Definition row_take (p q : str) (k : nat) : list Z :=
  (λ j, lev p (take j q)) <$> seq 0 k.

(** ** The vocabulary of the properties: the keyboard *)

Section keyboard_spec.
Context `{PyFloat}.
Implicit Types (kb : VKeyboard) (w prev cur : str) (e : WordEntry).
Implicit Types (gesture path : list point) (gl : pyfloat).
Implicit Types (x y : str * pyfloat) (l cands r : list (str * pyfloat)).

(** The range of floats. A float is finite when its difference with itself
    is zero (the difference is [nan] for an infinity and for [nan]). Python
    raises [OverflowError] at [x ** 2] when [x] is finite and the square is
    not; the interface of floats gives the square as a value. The properties
    that state that a path length or a distance is computed without an
    exception take the squares to be in range. *)
Definition is_finite (x : pyfloat) : bool := feq (fsub x x) f0_0.

Definition square_in_range (x : pyfloat) : bool :=
  implb (is_finite x) (is_finite (fpow x (of_int 2))).

(** The two squares of [seg_length a b]. *)
Definition segment_in_range (a b : point) : bool :=
  square_in_range (fsub b.1 a.1) && square_in_range (fsub b.2 a.2).

(** The squares of [val_dist path]. *)
Definition path_in_range path : bool :=
  forallb (λ ab, segment_in_range ab.1 ab.2) (zip path (drop 1 path)).

(** The squares of the distances of [gesture_distance]. *)
Definition distances_in_range gesture (template : list point) : bool :=
  forallb (λ gt, segment_in_range gt.2 gt.1) (zip gesture template).

(** The counts the specification names. *)
Definition bigram_count kb prev w : Z := default 0 (user_bigrams kb !! (prev, w)).

Definition unigram_count kb w : Z := default 0 (user_unigrams kb !! w).

Definition distinct_unigrams kb : Z := Z.of_nat (size (user_unigrams kb)).

(** The interpolation of the specification:
    [0.4 * bigram_term + 0.1 * unigram_term + 0.5 * static_frequency]. *)
Definition ngram_formula kb w prev e : pyfloat :=
  fadd
    (fadd
       (fdiv (fmul f0_4 (of_int (bigram_count kb prev w + 1)))
          (of_int (unigram_count kb prev + distinct_unigrams kb)))
       (fdiv (fmul f0_1 (of_int (unigram_count kb w + 1)))
          (of_int (user_nograms kb + distinct_unigrams kb))))
    (fmul f0_5 (we_freq e)).

(** What the engine keeps true of its session counters: the total is not
    negative, some word has been counted, no count is negative. *)
Definition session_inv kb : Prop :=
  0 ≤ user_nograms kb ∧
  user_unigrams kb ≠ ∅ ∧
  map_Forall (λ _ c, 0 ≤ c) (user_unigrams kb).

(** [a] does not rank below [b]. *)
Definition score_ge (a b : str * pyfloat) : Prop := flt a.2 b.2 = false.

(** [<] orders the scores [l] as a strict weak order: it is asymmetric and
    its complement is transitive (no [nan] among them). *)
Definition strict_weak_on (scores : list pyfloat) : Prop :=
  ∀ a b c, a ∈ scores → b ∈ scores → c ∈ scores →
    (flt a b = true → flt b a = false) ∧
    (flt a b = false → flt b c = false → flt a c = false).

(** [strict_weak_on], computed. *)
Definition strict_weak_check (scores : list pyfloat) : bool :=
  forallb (λ a,
    forallb (λ b,
      implb (flt a b) (negb (flt b a))
      && forallb (λ c, implb (negb (flt a b) && negb (flt b c)) (negb (flt a c))) scores)
      scores) scores.

(** [r] is [cands] in descending score order. *)
Definition ranked cands r : Prop :=
  r ≡ₚ cands ∧ (strict_weak_on cands.*2 → StronglySorted score_ge r).

(** The candidate of a hit [(w, d)]:
    [(w, 0.001 ** d * p(w | prev))]. *)
Definition scored_hit kb prev (wd : str * Z) (c : str * pyfloat) : Prop :=
  ∃ e, getitem (kb_words kb) wd.1 = Some e ∧
       c = (wd.1, fmul (fpow f0_001 (of_int wd.2)) (ngram_formula kb wd.1 prev e)).

(** The point [a] of a word's path is within one key of the point [b] of
    the gesture: no more than a key's width apart in x, no more than a key's
    height in y. *)
Definition near kb (a b : point) : bool :=
  negb (flt (key_width kb) (fabs (fsub a.1 b.1)))
  && negb (flt (key_height kb) (fabs (fsub a.2 b.2))).

(** The words the pre-filter keeps, in the words of the specification as
    amended: the first and last key centers are near the first and last
    points of the gesture, and the length of the gesture lies within
    [0.8, 1.4] times the stored length of the word's path. *)
Definition keeps kb gesture gl w : bool :=
  match getitem (kb_words kb) w, head gesture, last gesture with
  | Some e, Some g0, Some g1 =>
      match head (we_path e), last (we_path e) with
      | Some p0, Some p1 =>
          near kb p0 g0 && near kb p1 g1
          && (fle (fmul f0_8 (we_length e)) gl && fle gl (fmul f1_4 (we_length e)))
      | _, _ => false
      end
  | _, _, _ => false
  end.

(** The vocabulary has, for each word of its sequence, an entry with a
    path of at least one point. *)
Definition paths_stored kb : Prop :=
  ∀ w, w ∈ iter (kb_words kb) → ∃ e, getitem (kb_words kb) w = Some e ∧ we_path e ≠ [].

(** The keyboards the engine goes through: [__init__] over a loaded
    vocabulary whose words have stored paths, then any number of commits. *)
Inductive engine_state : VKeyboard → Prop :=
| engine_init kw kh centers vocabulary :
    reachable vocabulary →
    (∀ w, w ∈ iter vocabulary → ∃ e, getitem vocabulary w = Some e ∧ we_path e ≠ []) →
    engine_state (init_keyboard kw kh centers vocabulary)
| engine_commit kb prev cur :
    engine_state kb → engine_state (commit kb prev cur).1.

(** The difference of two floats that are not equal is not zero (IEEE
    arithmetic with subnormal numbers has this property). *)
Definition sub_not_zero : Prop :=
  ∀ a b : pyfloat, feq a b = false → feq (fsub a b) f0_0 = false.
End keyboard_spec.

(** ** Example data *)

Definition py_str (x : string) : str := list_ascii_of_string x.

(** The vocabulary of the specification's scenario. *)
Definition cat_car_can : Trie Z :=
  setitem (setitem (setitem new_trie (py_str "cat") 5) (py_str "car") 3) (py_str "can") 2.

(** A trie that stores the empty word beside ["a"]. *)
Definition empty_and_a : Trie Z :=
  setitem (setitem new_trie (py_str "") 7) (py_str "a") 1.

(** A trie that stores ["a"] only. *)
Definition only_a : Trie Z := setitem new_trie (py_str "a") 1.

(** A keyboard over binary64 floats: five keys in a row, one unit apart,
    and the vocabulary ["cat"], ["car"], ["can"], ["a"] with their paths. *)
Definition pt (x y : float) : @point binary64 := (x, y).

Definition demo_centers : gmap ascii (@point binary64) :=
  list_to_map
    [("c"%char, pt 0 0); ("a"%char, pt 1 0); ("t"%char, pt 2 0);
     ("r"%char, pt 3 0); ("n"%char, pt 4 0)].

Definition demo_cat : @WordEntry binary64 :=
  @mkEntry binary64 [pt 0 0; pt 1 0; pt 2 0] 2%float 0.5%float.
Definition demo_car : @WordEntry binary64 :=
  @mkEntry binary64 [pt 0 0; pt 1 0; pt 3 0] 3%float 0.25%float.
Definition demo_can : @WordEntry binary64 :=
  @mkEntry binary64 [pt 0 0; pt 1 0; pt 4 0] 4%float 0.125%float.
Definition demo_a : @WordEntry binary64 :=
  @mkEntry binary64 [pt 1 0] 0%float 0.125%float.

Definition demo_vocabulary : Trie (@WordEntry binary64) :=
  setitem (setitem (setitem (setitem new_trie (py_str "cat") demo_cat)
    (py_str "car") demo_car) (py_str "can") demo_can) (py_str "a") demo_a.

Definition demo_keyboard : @VKeyboard binary64 :=
  @init_keyboard binary64 1%float 1%float demo_centers demo_vocabulary.



(** ** vkeyboard.py: guesses, the reload of a layout, the vocabulary file *)

(** [str.isalpha()] on a byte string: at least one character, and ASCII
    letters only. *)
Definition alpha_letter (c : ascii) : bool :=
  let n := nat_of_ascii c in
  bool_decide ((65 ≤ n ∧ n ≤ 90) ∨ (97 ≤ n ∧ n ≤ 122))%nat.


(** [xrange(0, n, 2)] *)
Definition py_xrange2 (n : nat) : list nat := (λ k, 2 * k)%nat <$> seq 0 ((n + 1) / 2).

Section vkeyboard_more.
Context `{PyFloat}.

(** [(w, self.get_ngram_probability(w, prev_word))] *)
Definition score_guess (kb : VKeyboard) (prev_word w : str) : result (str * pyfloat) :=
  let! p := get_ngram_probability kb w prev_word in
  Ok (w, p).

(** [VKeyboard.candidate_guesses]; [prev_word] is what
    [get_previous_word()] returned. *)
Definition candidate_guesses (kb : VKeyboard) (prev_word : str)
    : result (list (str * pyfloat)) :=
  let! candidates := for_each (score_guess kb prev_word) (iter (kb_words kb)) in
  Ok (py_sort_desc candidates).







(** The points of a stroke: [Line(points=[x, y])] in [on_touch_down],
    [points += [x, y]] in [on_touch_move]. *)
Definition touch_down_line (xy : point) : list pyfloat := [xy.1; xy.2].

Definition touch_move_line (points : list pyfloat) (xy : point) : list pyfloat :=
  points ++ [xy.1; xy.2].

(** [[(gesture[i], gesture[i+1]) for i in xrange(0, len(gesture), 2)]] of
    [on_touch_up] *)
Definition gesture_of_line (points : list pyfloat) : result (list point) :=
  for_each (λ i, let! x := py_index points i in
                 let! y := py_index points (i + 1) in
                 Ok (x, y))
    (py_xrange2 (length points)).
End vkeyboard_more.

(** ** vkeyboard.py: the words around the cursor

    The text of the text area is a sequence of characters of any type [C];
    [isalpha] is [unicode.isalpha] on one character, [cursor] is
    [textarea.cursor_index()]. *)

Section text.
Context {C : Type} (isalpha : C → bool).

(** [for j in xrange(i-1, -1, -1): if not T[j].isalpha(): break] with its
    [else: return T] and the [return T[j + 1:i]] after it. *)
Fixpoint word_scan (T : list C) (i : nat) (js : list nat) : result (list C) :=
  match js with
  | [] => Ok T
  | j :: rest =>
      let! c := py_index T j in
      if negb (isalpha c) then Ok (drop (j + 1) (take i T))
      else word_scan T i rest
  end.

(** [VKeyboard.get_current_word] *)
Definition get_current_word (text : list C) (cursor : nat) : result (list C) :=
  let i := cursor in
  let T := take i text in
  word_scan T i (reverse (seq 0 i)).

(** [while len(T) > 0 and not T[-1].isalpha(): T = T[:-1]]; every turn
    removes one character, so [length T] turns are enough. *)
Fixpoint strip_loop (fuel : nat) (T : list C) : list C :=
  match fuel with
  | O => T
  | S fuel =>
      match last T with
      | Some c => if negb (isalpha c) then strip_loop fuel (removelast T) else T
      | None => T
      end
  end.

(** [VKeyboard.get_previous_word] *)
Definition get_previous_word (text : list C) (cursor : nat) : result (list C) :=
  let! cur := get_current_word text cursor in
  let len_cur := length cur in
  let i := Z.to_nat (Z.max (Z.of_nat cursor - Z.of_nat len_cur - 1) 0) in
  let T := take i text in
  let T := strip_loop (length T) T in
  let i := length T in
  word_scan T i (reverse (seq 0 i)).
End text.

(** ** The vocabulary of the further properties *)

Section more_spec.
Context `{PyFloat}.

(** The sum of the session unigram counts. *)
Definition unigram_total (kb : VKeyboard) : Z :=
  map_fold (λ _ c acc, c + acc) 0 (user_unigrams kb).

(** The candidate of a guess: [(w, p(w | prev))]. *)
Definition scored_guess (kb : VKeyboard) (prev w : str) (c : str * pyfloat) : Prop :=
  ∃ e, getitem (kb_words kb) w = Some e ∧ c = (w, ngram_formula kb w prev e).


(** The sum of the session bigram counts. *)
Definition bigram_total (kb : VKeyboard) : Z :=
  map_fold (λ _ c acc, c + acc) 0 (user_bigrams kb).

(** The cumulated lengths of a path tell two unequal values apart by their
    difference (IEEE arithmetic with subnormal numbers has this property of
    all floats). *)
Definition lengths_apart (path : list point) : Prop :=
  ∀ cl c1 c0,
    cum_length_loop path (seq 1 (length path - 1)) [f0_0] = Ok cl →
    c1 ∈ cl → c0 ∈ cl → feq c1 c0 = false → feq (fsub c1 c0) f0_0 = false.

(** The mean distance of a gesture to a template of as many points. *)
Definition mean_distance (gesture template : list point) : pyfloat :=
  fdiv (foldl fadd (of_int 0) (zip_with point_distance gesture template))
    (of_int (Z.of_nat (length gesture))).

(** The candidate of a word [w] that a gesture matches:
    [(w, exp(-d / 2) * p(w | prev))], [d] being the mean distance of the
    gesture to the path of the word resampled to as many points. *)
Definition scored_match (kb : VKeyboard) (prev : str) (gesture : list point) (w : str)
    (c : str * pyfloat) : Prop :=
  ∃ e template,
    getitem (kb_words kb) w = Some e ∧
    word_sample_n kb w (Z.of_nat (length gesture)) = Ok template ∧
    length template = length gesture ∧
    c = (w, fmul (fexp (fdiv (fneg (mean_distance gesture template)) (of_int 2)))
               (ngram_formula kb w prev e)).

(** The coordinates of a list of points, in a row. *)
Definition flat (pts : list point) : list pyfloat := pts ≫= λ xy, [xy.1; xy.2].
End more_spec.

(** ** Further example data *)




(** The text ["to the  cat"], as a Python string. *)
Definition demo_text : str := py_str "to the  cat".

(** Three candidates, two of them with the same score. *)
Definition tied_candidates : list (str * @pyfloat binary64) :=
  [(py_str "can", 0.25%float); (py_str "cat", 0.5%float); (py_str "car", 0.5%float)].

(** * Properties *)

(** ** Results and list primitives *)

Lemma py_index_lookup {A} (l : list A) i x : l !! i = Some x → py_index l i = Ok x.
Proof. unfold py_index. by intros ->. Qed.

Lemma py_last_snoc {A} (l : list A) x : py_last (l ++ [x]) = Ok x.
Proof. unfold py_last. by rewrite last_snoc. Qed.

Lemma foldl_min_le (l : list Z) x : foldl Z.min x l ≤ x ∧ ∀ y, y ∈ l → foldl Z.min x l ≤ y.
Proof.
  revert x. induction l as [|z l IH]; intros x; simpl.
  - split; [lia|]. intros y Hy. by apply elem_of_nil in Hy.
  - destruct (IH (Z.min x z)) as [H1 H2]. split; [lia|].
    intros y [->|Hy]%elem_of_cons; [lia|auto].
Qed.

Lemma foldl_min_elem (l : list Z) x : foldl Z.min x l = x ∨ foldl Z.min x l ∈ l.
Proof.
  revert x. induction l as [|z l IH]; intros x; simpl; [by left|].
  destruct (IH (Z.min x z)) as [H|H].
  - rewrite H. destruct (Z.min_spec x z) as [[_ ->]|[_ ->]]; [by left|right; left].
  - right. by right.
Qed.

Lemma py_min_spec (l : list Z) x :
  x ∈ l → ∃ m, py_min l = Ok m ∧ m ∈ l ∧ ∀ y, y ∈ l → m ≤ y.
Proof.
  destruct l as [|z l]; [by intros ?%elem_of_nil|]. intros _. simpl.
  eexists; split; [done|]. destruct (foldl_min_le l z) as [H1 H2]. split.
  - destruct (foldl_min_elem l z) as [->|H]; [left|by right].
  - intros y Hy. apply elem_of_cons in Hy as [Hy|Hy]; [by subst|auto].
Qed.

(** ** Dictionaries *)

Section dict_facts.
Context {A : Type}.
Implicit Types (d : list (ascii * A)) (k : ascii).

Lemma dict_get_None d k : dict_get d k = None ↔ k ∉ d.*1.
Proof.
  induction d as [|[k' a] d IH]; simpl.
  - split; [intros _; apply not_elem_of_nil|done].
  - rewrite not_elem_of_cons. case_decide; naive_solver.
Qed.

Lemma dict_get_Some d k a : NoDup d.*1 → dict_get d k = Some a ↔ (k, a) ∈ d.
Proof.
  induction d as [|[k' a'] d IH]; simpl; intros Hnd.
  - split; [done|by intros ?%elem_of_nil].
  - apply NoDup_cons in Hnd as [Hk Hnd]. rewrite elem_of_cons. case_decide as Hd.
    + subst k'. split; [intros [= ->]; by left|].
      intros [[= ->]|Hin]; [done|]. destruct Hk.
      apply list_elem_of_fmap. by exists (k, a).
    + rewrite IH by done. split; [by right|]. intros [[= ? ?]|?]; [by subst|done].
Qed.

Lemma dict_get_elem d k a : dict_get d k = Some a → (k, a) ∈ d.
Proof.
  induction d as [|[k' a'] d IH]; simpl; [done|]. case_decide.
  - intros [= ->]. subst. left.
  - intros. right. auto.
Qed.

Lemma dict_get_set d k k' a :
  dict_get (dict_set d k a) k' = if decide (k = k') then Some a else dict_get d k'.
Proof.
  induction d as [|[k0 a0] d IH]; simpl.
  - by repeat case_decide.
  - repeat (case_decide; simpl; subst; try done); by rewrite ?IH, ?decide_False.
Qed.

Lemma dict_set_keys d k a : (dict_set d k a).*1 ≡ₚ (match dict_get d k with Some _ => d.*1 | None => d.*1 ++ [k] end).
Proof.
  induction d as [|[k0 a0] d IH]; simpl; [done|]. case_decide; simpl; subst; [done|].
  rewrite IH. by destruct (dict_get d k).
Qed.

Lemma dict_set_NoDup d k a : NoDup d.*1 → NoDup (dict_set d k a).*1.
Proof.
  intros Hnd. rewrite dict_set_keys. destruct (dict_get d k) eqn:E; [done|].
  apply NoDup_app. split_and!; [done| |apply NoDup_singleton].
  intros x Hx ->%list_elem_of_singleton. by apply dict_get_None in E.
Qed.

Lemma dict_set_Forall (P : ascii * A → Prop) d k a :
  Forall P d → P (k, a) → Forall P (dict_set d k a).
Proof.
  intros Hd Hk. induction Hd as [|[k0 a0] d H0 Hd IH]; simpl.
  - by constructor.
  - case_decide; constructor; auto.
Qed.
End dict_facts.

(** ** The trie: lookup, assignment and the word sequence *)

Section trie_facts.
Context {V : Type}.
Implicit Types (n node : TrieNode V) (t : Trie V) (w p s : str) (v : V).

(** Induction on a node, with the property known of its children. *)
Lemma TrieNode_ind' (P : TrieNode V → Prop) :
  (∀ ow ov cs, Forall (λ lc, P lc.2) cs → P (mkNode ow ov cs)) → ∀ n, P n.
Proof.
  intros H. fix IH 1. intros [ow ov cs]. apply H.
  induction cs as [|[l c] cs IHcs]; constructor; [apply IH|apply IHcs].
Qed.

Lemma terminal_mark t w : terminal t w ↔ mark (trie t) w = Some w.
Proof.
  unfold terminal, mark. destruct (node_at (trie t) w) as [n|]; simpl.
  - split; [by intros (? & [= <-] & ?)|eauto].
  - split; [by intros (? & ? & ?)|done].
Qed.

Lemma getitem_node_at n s : getitem_from n s = node_at n s ≫= value.
Proof.
  revert n. induction s as [|l s IH]; intros n; simpl; [done|].
  destruct (dict_get (children n) l); simpl; auto.
Qed.

Lemma node_at_app n s1 s2 : node_at n (s1 ++ s2) = node_at n s1 ≫= λ n', node_at n' s2.
Proof.
  revert n. induction s1 as [|l s1 IH]; intros n; simpl; [done|].
  destruct (dict_get (children n) l); simpl; auto.
Qed.

Lemma mark_new_node s : mark (@new_node V) s = None.
Proof. by destruct s. Qed.

(** What an assignment does to the markers: the path of the word is marked
    with the word, every other path keeps what it had. *)
Lemma mark_setitem n letters w v s :
  mark (setitem_from n letters w v).1 s
  = if decide (s = letters) then Some w else mark n s.
Proof.
  revert n s. induction letters as [|l rest IH]; intros n s; simpl.
  - destruct s; case_decide; try done.
  - destruct s as [|l' s]; [by case_decide|]. unfold mark in *; simpl.
    rewrite dict_get_set. destruct (decide (l = l')) as [->|Hl].
    + rewrite IH. destruct (dict_get (children n) l') as [c|]; simpl.
      * repeat case_decide; congruence.
      * fold (mark (@new_node V) s). rewrite mark_new_node.
        repeat case_decide; congruence.
    + rewrite decide_False by congruence. done.
Qed.

Lemma fresh_setitem n letters w v :
  (setitem_from n letters w v).2 = bool_decide (mark n letters ≠ Some w).
Proof.
  revert n. induction letters as [|l rest IH]; intros n; simpl; [done|].
  rewrite IH. unfold mark; simpl. destruct (dict_get (children n) l); simpl; [done|].
  fold (mark (@new_node V) rest). by rewrite mark_new_node.
Qed.

Lemma getitem_setitem_from n letters w v :
  getitem_from (setitem_from n letters w v).1 letters = Some v.
Proof.
  revert n. induction letters as [|l rest IH]; intros n; simpl; [done|].
  rewrite dict_get_set, decide_True by done. apply IH.
Qed.

Lemma getitem_new_node s : getitem_from (@new_node V) s = None.
Proof. by destruct s. Qed.

(** What an assignment does to the values: only the value of the word
    changes. *)
Lemma getitem_setitem_other n letters w v s :
  s ≠ letters →
  getitem_from (setitem_from n letters w v).1 s = getitem_from n s.
Proof.
  revert n s. induction letters as [|l rest IH]; intros n s Hs; simpl.
  - by destruct s.
  - destruct s as [|l' s]; [done|]. simpl. rewrite dict_get_set.
    destruct (decide (l = l')) as [->|Hl]; [|done].
    rewrite IH by congruence.
    destruct (dict_get (children n) l'); simpl; [done|apply getitem_new_node].
Qed.

Lemma iter_setitem t w v x : x ∈ iter (setitem t w v) → x ∈ iter t ∨ x = w.
Proof.
  unfold iter, setitem. simpl. destruct (setitem_from (trie t) w w v).2; [|by left].
  rewrite elem_of_app, list_elem_of_singleton. done.
Qed.

Lemma wf_new_node p : wf_node (V:=V) p new_node.
Proof. constructor; [by left|by intros [? ?]|constructor|constructor]. Qed.

Lemma wf_node_child p n l c :
  wf_node p n → dict_get (children n) l = Some c → wf_node (p ++ [l]) c.
Proof.
  intros Hwf Hc. destruct Hwf as [p w v cs _ _ _ Hcs]. simpl in Hc.
  apply dict_get_elem in Hc. rewrite Forall_forall in Hcs. apply (Hcs _ Hc).
Qed.

Lemma wf_setitem_from p n letters v :
  wf_node p n → wf_node p (setitem_from n letters (p ++ letters) v).1.
Proof.
  revert p n. induction letters as [|l rest IH]; intros p n Hwf; simpl.
  - rewrite app_nil_r. destruct Hwf. constructor; simpl; eauto.
  - assert (wf_node (p ++ [l]) (default new_node (dict_get (children n) l))) as Hc.
    { destruct (dict_get (children n) l) eqn:E; simpl;
        [by eapply wf_node_child|apply wf_new_node]. }
    apply IH in Hc. rewrite <- app_assoc in Hc. simpl in Hc.
    destruct Hwf as [p w v' cs Hw Hv Hnd Hcs]. simpl in *.
    constructor; [done|done|by apply dict_set_NoDup|by apply dict_set_Forall].
Qed.

Lemma wf_node_at p n s n' : wf_node p n → node_at n s = Some n' → wf_node (p ++ s) n'.
Proof.
  revert p n. induction s as [|l s IH]; intros p n Hwf; simpl.
  - intros [= <-]. by rewrite app_nil_r.
  - destruct (dict_get (children n) l) as [c|] eqn:E; [|done]. intros Hn'.
    replace (p ++ l :: s) with ((p ++ [l]) ++ s) by by rewrite <- app_assoc.
    eapply IH; [|done]. by eapply wf_node_child.
Qed.

Lemma wf_node_word p n : wf_node p n → word n = None ∨ word n = Some p.
Proof. by intros []. Qed.

Lemma wf_node_value p n : wf_node p n → is_Some (word n) → is_Some (value n).
Proof. by intros []. Qed.

Lemma trie_inv_new : trie_inv (new_trie (V:=V)).
Proof.
  split_and!; [apply wf_new_node|constructor|]. intros w. rewrite terminal_mark.
  simpl. rewrite mark_new_node. split; [by intros ?%elem_of_nil|done].
Qed.

#[global] Instance terminal_dec t w : Decision (terminal t w).
Proof.
  destruct (decide (mark (trie t) w = Some w)) as [H|H];
    [left|right]; by rewrite terminal_mark.
Defined.

Lemma setitem_words t w v :
  words (setitem t w v) = if decide (terminal t w) then words t else words t ++ [w].
Proof.
  unfold setitem; simpl. rewrite fresh_setitem.
  destruct (decide (terminal t w)) as [H|H]; rewrite terminal_mark in H.
  - by rewrite bool_decide_false by naive_solver.
  - by rewrite bool_decide_true.
Qed.

Lemma terminal_setitem t w v x :
  terminal (setitem t w v) x ↔ x = w ∨ terminal t x.
Proof.
  rewrite !terminal_mark. unfold setitem; simpl. rewrite mark_setitem.
  case_decide; subst; naive_solver.
Qed.

Lemma trie_inv_setitem t w v : trie_inv t → trie_inv (setitem t w v).
Proof.
  intros (Hwf & Hnd & Hin). split_and!.
  - apply (wf_setitem_from [] _ w v Hwf).
  - rewrite setitem_words. case_decide as Ht; [done|].
    apply NoDup_app. split_and!; [done| |apply NoDup_singleton].
    intros x Hx ->%list_elem_of_singleton. by apply Ht, Hin.
  - intros x. rewrite terminal_setitem, setitem_words. case_decide as Ht.
    + rewrite Hin. naive_solver.
    + rewrite elem_of_app, list_elem_of_singleton, Hin. naive_solver.
Qed.

Lemma reachable_inv t : reachable t → trie_inv t.
Proof. induction 1; [apply trie_inv_new|by apply trie_inv_setitem]. Qed.

Lemma repeated_setitem_words t w v vs :
  words (foldl (λ t v', setitem t w v') (setitem t w v) vs) = words (setitem t w v).
Proof.
  assert (terminal (setitem t w v) w) as Ht by (apply terminal_setitem; by left).
  revert Ht. generalize (setitem t w v). clear t.
  induction vs as [|v' vs IH]; intros t Ht; simpl; [done|].
  rewrite IH by (apply terminal_setitem; by left).
  rewrite setitem_words. by rewrite decide_True.
Qed.
End trie_facts.

Lemma filter_eq_absent {A} `{EqDecision A} (l : list A) (x : A) :
  x ∉ l → filter (λ y, y = x) l = [].
Proof.
  induction l as [|y l IH]; [done|]. rewrite not_elem_of_cons. intros [Hy Hl].
  rewrite filter_cons_False by congruence. auto.
Qed.

Lemma NoDup_occurs_once {A} `{EqDecision A} (l : list A) (x : A) :
  NoDup l → x ∈ l → length (filter (λ y, y = x) l) = 1%nat.
Proof.
  induction 1 as [|y l Hy Hnd IH]; [by intros ?%elem_of_nil|].
  intros Hx. apply elem_of_cons in Hx as [->|Hx].
  - rewrite filter_cons_True by done. simpl. by rewrite filter_eq_absent.
  - rewrite filter_cons_False by (by intros ->). auto.
Qed.

(** C3. In every trie built by item assignments the word sequence and the
    marked nodes correspond one to one: the sequence has no repetition, a
    word is in it exactly when the node at the end of its path is marked
    with it, and a marked node is marked with its own path. After
    [t[w] = v] the lookup [t[w]] gives [v], and [w] occurs exactly once in
    the iteration, however many more times [t[w]] is assigned. *)
Theorem words_terminal_bijection {V} (t : Trie V) :
  reachable t →
  NoDup (iter t) ∧
  (∀ w, w ∈ iter t ↔ terminal t w) ∧
  (∀ s n, node_at (trie t) s = Some n → is_Some (word n) → word n = Some s) ∧
  ∀ w v,
    getitem (setitem t w v) w = Some v ∧
    ∀ vs, length (filter (λ x, x = w)
                    (iter (foldl (λ t' v', setitem t' w v') (setitem t w v) vs))) = 1%nat.
Proof.
  intros Hr. destruct (reachable_inv t Hr) as (Hwf & Hnd & Hin).
  split_and!; [done|done| |].
  - intros s n Hn [x Hx]. apply (wf_node_at [] _ s n Hwf) in Hn.
    apply wf_node_word in Hn as [Hn|Hn]; [congruence|done].
  - intros w v. split; [apply getitem_setitem_from|]. intros vs.
    unfold iter. rewrite repeated_setitem_words.
    destruct (reachable_inv _ (reachable_set t w v Hr)) as (_ & Hnd' & Hin').
    apply NoDup_occurs_once; [done|]. apply Hin', terminal_setitem. by left.
Qed.

(** ** Edit distance *)

Lemma lev_nil_l t : lev [] t = Z.of_nat (length t).
Proof. done. Qed.

Lemma lev_nil_r s : lev s [] = Z.of_nat (length s).
Proof. by destruct s. Qed.

Lemma lev_cons a b s t :
  lev (a :: s) (b :: t)
  = Z.min (lev s (b :: t) + 1)
      (Z.min (lev (a :: s) t + 1) (lev s t + (if decide (a = b) then 0 else 1))).
Proof. done. Qed.

Lemma edits_nonneg s t n : edits s t n → 0 ≤ n.
Proof. induction 1; lia. Qed.

Lemma edits_nil_l t : edits [] t (Z.of_nat (length t)).
Proof.
  induction t as [|b t IH]; [constructor|].
  replace (Z.of_nat (length (b :: t))) with (Z.of_nat (length t) + 1) by (simpl; lia).
  by constructor.
Qed.

Lemma edits_nil_r s : edits s [] (Z.of_nat (length s)).
Proof.
  induction s as [|a s IH]; [constructor|].
  replace (Z.of_nat (length (a :: s))) with (Z.of_nat (length s) + 1) by (simpl; lia).
  by constructor.
Qed.

(** [lev] is reached by a sequence of edits ... *)
Lemma lev_edits s t : edits s t (lev s t).
Proof.
  revert t. induction s as [|a s IHs]; intros t; [apply edits_nil_l|].
  induction t as [|b t IHt]; [apply edits_nil_r|].
  rewrite lev_cons.
  destruct (Z.min_spec (lev s (b :: t) + 1)
              (Z.min (lev (a :: s) t + 1) (lev s t + (if decide (a = b) then 0 else 1))))
    as [[_ ->]|[_ ->]]; [by constructor|].
  destruct (Z.min_spec (lev (a :: s) t + 1) (lev s t + (if decide (a = b) then 0 else 1)))
    as [[_ ->]|[_ ->]]; [by constructor|].
  case_decide; subst.
  - rewrite Z.add_0_r. by constructor.
  - by constructor.
Qed.

Lemma lev_delete_le a s t : lev (a :: s) t ≤ lev s t + 1.
Proof.
  destruct t as [|b t]; [rewrite !lev_nil_r; simpl; lia|]. rewrite lev_cons. lia.
Qed.

Lemma lev_insert_le b s t : lev s (b :: t) ≤ lev s t + 1.
Proof.
  destruct s as [|a s]; [rewrite !lev_nil_l; simpl; lia|]. rewrite lev_cons. lia.
Qed.

(** ... and no sequence of edits is shorter. *)
Lemma lev_le s t n : edits s t n → lev s t ≤ n.
Proof.
  induction 1 as [|a s t n _ IH|a b s t n _ IH|a s t n _ IH|b s t n _ IH].
  - done.
  - rewrite lev_cons, decide_True by done. lia.
  - rewrite lev_cons. case_decide; lia.
  - pose proof (lev_delete_le a s t). lia.
  - pose proof (lev_insert_le b s t). lia.
Qed.

Lemma lev_edit_distance s t : edit_distance s t (lev s t).
Proof. split; [apply lev_edits|apply lev_le]. Qed.

Lemma edit_distance_lev s t d : edit_distance s t d ↔ d = lev s t.
Proof.
  split; [|intros ->; apply lev_edit_distance]. intros [H1 H2].
  pose proof (lev_le _ _ _ H1). pose proof (H2 _ (lev_edits s t)). lia.
Qed.

(** Edits at the right end, and the symmetry of the distance under reversal:
    the rows of the search extend words at their right end. *)
Lemma edits_snoc_keep a s t n : edits s t n → edits (s ++ [a]) (t ++ [a]) n.
Proof. induction 1; simpl; try by constructor. apply edits_keep, edits_nil. Qed.

Lemma edits_snoc_subst a b s t n : edits s t n → edits (s ++ [a]) (t ++ [b]) (n + 1).
Proof. induction 1; simpl; try by constructor. apply (edits_subst _ _ _ _ 0), edits_nil. Qed.

Lemma edits_snoc_delete a s t n : edits s t n → edits (s ++ [a]) t (n + 1).
Proof. induction 1; simpl; try by constructor. apply (edits_delete _ _ _ 0), edits_nil. Qed.

Lemma edits_snoc_insert b s t n : edits s t n → edits s (t ++ [b]) (n + 1).
Proof. induction 1; simpl; try by constructor. apply (edits_insert _ _ _ 0), edits_nil. Qed.

Lemma edits_reverse s t n : edits s t n → edits (reverse s) (reverse t) n.
Proof.
  induction 1; rewrite ?reverse_cons.
  - apply edits_nil.
  - by apply edits_snoc_keep.
  - by apply edits_snoc_subst.
  - by apply edits_snoc_delete.
  - by apply edits_snoc_insert.
Qed.

Lemma lev_reverse s t : lev (reverse s) (reverse t) = lev s t.
Proof.
  apply Z.le_antisymm.
  - apply lev_le, edits_reverse, lev_edits.
  - rewrite <- (reverse_involutive s), <- (reverse_involutive t) at 1.
    apply lev_le, edits_reverse, lev_edits.
Qed.

Lemma lev_snoc_nil a s : lev (s ++ [a]) [] = lev s [] + 1.
Proof. rewrite !lev_nil_r, length_app. simpl. lia. Qed.

(** The recurrence of [_searchRecursive]: insertion, deletion, replacement. *)
Lemma lev_snoc a b s t :
  lev (s ++ [a]) (t ++ [b])
  = Z.min (lev (s ++ [a]) t + 1)
      (Z.min (lev s (t ++ [b]) + 1) (if decide (b ≠ a) then lev s t + 1 else lev s t)).
Proof.
  rewrite <- (lev_reverse (s ++ [a]) (t ++ [b])), <- (lev_reverse (s ++ [a]) t),
    <- (lev_reverse s (t ++ [b])), <- (lev_reverse s t).
  rewrite !reverse_app. change (reverse [a]) with [a]. change (reverse [b]) with [b].
  cbn [app]. rewrite lev_cons. repeat case_decide; try congruence; lia.
Qed.

(** An edit sequence for [p ++ r] contains one for [p] and a prefix of the
    target: extending a word cannot bring it below the least cell of its row. *)
Lemma edits_prefix s t n :
  edits s t n → ∀ p r, s = p ++ r →
  ∃ j m, (j ≤ length t)%nat ∧ edits p (take j t) m ∧ m ≤ n.
Proof.
  induction 1 as [|a s t n H IH|a b s t n H IH|a s t n H IH|b s t n H IH]; intros p r Hp.
  - symmetry in Hp. apply app_eq_nil in Hp as [-> ->].
    exists O, 0. split_and!; [done|constructor|done].
  - destruct p as [|a' p]; simplify_eq/=.
    + exists O, 0. split_and!; [lia|constructor|]. by eapply edits_nonneg.
    + destruct (IH p r eq_refl) as (j & m & Hj & He & Hm).
      exists (S j), m. split_and!; [lia|by constructor|done].
  - destruct p as [|a' p]; simplify_eq/=.
    + exists O, 0. split_and!; [lia|constructor|]. apply edits_nonneg in H. lia.
    + destruct (IH p r eq_refl) as (j & m & Hj & He & Hm).
      exists (S j), (m + 1). split_and!; [lia|by constructor|lia].
  - destruct p as [|a' p]; simplify_eq/=.
    + exists O, 0. split_and!; [lia|constructor|]. apply edits_nonneg in H. lia.
    + destruct (IH p r eq_refl) as (j & m & Hj & He & Hm).
      exists j, (m + 1). split_and!; [lia|by constructor|lia].
  - destruct (IH p r Hp) as (j & m & Hj & He & Hm).
    exists (S j), (m + 1). split_and!; [simpl; lia|by constructor|lia].
Qed.

Lemma lev_extend_ge p r q : ∃ j, (j ≤ length q)%nat ∧ lev p (take j q) ≤ lev (p ++ r) q.
Proof.
  destruct (edits_prefix _ _ _ (lev_edits (p ++ r) q) p r eq_refl) as (j & m & Hj & He & Hm).
  exists j. split; [done|]. apply lev_le in He. lia.
Qed.

(** ** The rows of the search *)

Lemma row_of_lookup p q j :
  (j ≤ length q)%nat → row_of p q !! j = Some (lev p (take j q)).
Proof.
  intros Hj. unfold row_of. rewrite list_lookup_fmap, lookup_seq_lt by lia. done.
Qed.

Lemma row_of_elem p q x : x ∈ row_of p q ↔ ∃ j, (j ≤ length q)%nat ∧ x = lev p (take j q).
Proof.
  unfold row_of. rewrite list_elem_of_fmap. setoid_rewrite elem_of_seq.
  split; intros (j & ? & ?); exists j; split; (done || lia).
Qed.

Lemma row_of_nil q : row_of [] q = py_range (length q + 1).
Proof.
  unfold row_of, py_range. rewrite Nat.add_1_r. apply list_fmap_ext.
  intros i j Hj. apply lookup_seq in Hj as [-> Hj]. simpl.
  rewrite length_take. f_equal. lia.
Qed.

Lemma row_of_last p q : py_last (row_of p q) = Ok (lev p q).
Proof.
  unfold row_of. rewrite seq_S, fmap_app. simpl. rewrite py_last_snoc.
  by rewrite firstn_all.
Qed.

Lemma row_take_S p q k : row_take p q (S k) = row_take p q k ++ [lev p (take k q)].
Proof. unfold row_take. by rewrite seq_S, fmap_app. Qed.

Lemma row_take_lookup p q k j :
  (j < k)%nat → row_take p q k !! j = Some (lev p (take j q)).
Proof. intros. unfold row_take. by rewrite list_lookup_fmap, lookup_seq_lt by lia. Qed.

Lemma row_loop_spec l p q n k :
  (k + n)%nat = length q →
  row_loop l q (row_of p q) (seq (S k) n) (row_take (p ++ [l]) q (S k))
  = Ok (row_of (p ++ [l]) q).
Proof.
  revert k. induction n as [|n IH]; intros k Hk; cbn [seq row_loop].
  - unfold row_of, row_take. replace (length q) with k by lia. done.
  - unfold row_cell. replace (S k - 1)%nat with k by lia.
    destruct (lookup_lt_is_Some_2 q k) as [c Hc]; [lia|].
    rewrite (py_index_lookup _ k _ (row_take_lookup (p ++ [l]) q (S k) k ltac:(lia))).
    rewrite (py_index_lookup _ (S k) _ (row_of_lookup p q (S k) ltac:(lia))).
    rewrite (py_index_lookup _ k _ Hc).
    rewrite (py_index_lookup _ k _ (row_of_lookup p q k ltac:(lia))).
    rewrite <- (IH (S k)) by lia. f_equal.
    rewrite (row_take_S _ _ (S k)). f_equal. f_equal.
    rewrite (take_S_r _ _ _ Hc), lev_snoc. done.
Qed.

Lemma next_row_spec l p q : next_row l q (row_of p q) = Ok (row_of (p ++ [l]) q).
Proof.
  unfold next_row. rewrite (py_index_lookup _ O _ (row_of_lookup p q O ltac:(lia))).
  rewrite Nat.add_sub. rewrite <- (row_loop_spec l p q (length q) 0 eq_refl).
  f_equal. unfold row_take. simpl. rewrite lev_snoc_nil. done.
Qed.

(** ** The traversal of [_searchRecursive] *)

Section search_facts.
Context {V : Type}.
Implicit Types (n node x : TrieNode V) (t : Trie V) (w p q s : str).
Implicit Types (res : list (TrieNode V * Z)) (m c : Z).

Lemma searchRecursive_unfold n l q row res m :
  searchRecursive n l q row res m =
  let! currentRow := next_row l q row in
  let! cost := py_last currentRow in
  let results := if decide (cost ≤ m) then res ++ [(n, cost)] else res in
  let! least := py_min currentRow in
  if decide (least ≤ m) then search_children (children n) q currentRow results m
  else Ok results.
Proof.
  destruct n as [ow ov cs]. simpl.
  destruct (next_row l q row) as [cur|]; [|done].
  destruct (py_last cur) as [cost|]; [|done].
  destruct (py_min cur) as [least|]; [|done].
  case_decide; [|done].
  generalize (if decide (cost ≤ m) then res ++ [(mkNode ow ov cs, cost)] else res).
  induction cs as [|[l' c] cs IH]; intros r; simpl; [done|].
  destruct (searchRecursive c l' q cur r m); [apply IH|done].
Qed.

Lemma search_children_spec q m p row (cs : list (ascii * TrieNode V)) :
  Forall (λ lc, ∀ res, ∃ res',
            searchRecursive lc.2 lc.1 q row res m = Ok (res ++ res') ∧
            hits q m (p ++ [lc.1]) lc.2 res') cs →
  ∀ res, ∃ res',
    search_children cs q row res m = Ok (res ++ res') ∧
    ∀ x c, (x, c) ∈ res' ↔
      ∃ l ch s, (l, ch) ∈ cs ∧ node_at ch s = Some x ∧ c = lev (p ++ l :: s) q ∧ c ≤ m.
Proof.
  induction 1 as [|[l ch] cs Hch _ IH]; intros res; simpl.
  - exists []. rewrite app_nil_r. split; [done|]. intros x c.
    split; [by intros ?%elem_of_nil|]. by intros (? & ? & ? & ?%elem_of_nil & _).
  - simpl in Hch. destruct (Hch res) as (r1 & -> & H1).
    destruct (IH (res ++ r1)) as (r2 & -> & H2).
    exists (r1 ++ r2). rewrite app_assoc. split; [done|]. intros x c.
    rewrite elem_of_app, (H1 x c), H2. simpl. split.
    + intros [(s & ? & ? & ?)|(l' & ch' & s & ? & ? & ? & ?)].
      * exists l, ch, s. rewrite <- app_assoc in *. split_and!; [left|done..].
      * exists l', ch', s. split_and!; [by right|done..].
    + intros (l' & ch' & s & Hin & ? & ? & ?). apply elem_of_cons in Hin as [[= -> ->]|Hin].
      * left. exists s. by rewrite <- app_assoc.
      * right. by exists l', ch', s.
Qed.

Lemma node_at_cons n l s x :
  NoDup (children n).*1 →
  node_at n (l :: s) = Some x ↔ ∃ ch, (l, ch) ∈ children n ∧ node_at ch s = Some x.
Proof.
  intros Hnd. simpl. destruct (dict_get (children n) l) as [ch|] eqn:E.
  - apply dict_get_Some in E as E'; [|done]. split; [by exists ch|].
    intros (ch' & Hin & ?). apply dict_get_Some in Hin; [|done]. congruence.
  - split; [done|]. intros (ch' & Hin & ?). apply dict_get_Some in Hin; [|done]. congruence.
Qed.

Lemma searchRecursive_spec q m n : ∀ l p res,
  wf_node (p ++ [l]) n →
  ∃ res', searchRecursive n l q (row_of p q) res m = Ok (res ++ res') ∧
          hits q m (p ++ [l]) n res'.
Proof.
  induction n as [ow ov cs IH] using TrieNode_ind'. intros l p res Hwf.
  rewrite searchRecursive_unfold, next_row_spec, row_of_last. cbn zeta.
  destruct (py_min_spec (row_of (p ++ [l]) q) (lev (p ++ [l]) (take 0 q)))
    as (least & -> & Hleast & Hmin).
  { apply row_of_elem. exists O. split; [lia|done]. }
  set (n := mkNode ow ov cs).
  set (here := if decide (lev (p ++ [l]) q ≤ m) then [(n, lev (p ++ [l]) q)] else []).
  assert ((if decide (lev (p ++ [l]) q ≤ m)
           then res ++ [(n, lev (p ++ [l]) q)] else res) = res ++ here) as ->.
  { unfold here. case_decide; [done|by rewrite app_nil_r]. }
  assert (∀ x c, (x, c) ∈ here ↔ x = n ∧ c = lev (p ++ [l]) q ∧ c ≤ m) as Hhere.
  { intros x c. unfold here. case_decide.
    - rewrite list_elem_of_singleton. split; [by intros [= -> ->]|by intros (-> & -> & _)].
    - split; [by intros ?%elem_of_nil|]. intros (_ & -> & ?). lia. }
  inversion Hwf as [p' ow' ov' cs' _ _ Hnd Hcs]; subst.
  change (children n) with cs. case_decide as Hprune.
  - destruct (search_children_spec q m (p ++ [l]) (row_of (p ++ [l]) q) cs) with (res := res ++ here)
      as (r & -> & Hr).
    { rewrite Forall_forall in IH, Hcs. apply Forall_forall. intros [l' ch] Hin res0.
      apply (IH _ Hin l' (p ++ [l]) res0), (Hcs _ Hin). }
    exists (here ++ r). rewrite app_assoc. split; [done|]. intros x c.
    rewrite elem_of_app, Hhere, Hr. split.
    + intros [(-> & -> & ?)|(l' & ch & s & Hin & Hs & -> & ?)].
      * exists []. by rewrite app_nil_r.
      * exists (l' :: s). split; [|done]. apply node_at_cons; [done|]. by exists ch.
    + intros ([|l' s] & Hs & -> & ?).
      * left. rewrite app_nil_r in *. simpl in Hs. by simplify_eq.
      * right. apply node_at_cons in Hs as (ch & ? & ?); [|done]. by exists l', ch, s.
  - exists here. split; [done|]. intros x c. rewrite Hhere. split.
    + intros (-> & -> & ?). exists []. by rewrite app_nil_r.
    + intros (s & Hs & -> & Hc). exfalso.
      destruct (lev_extend_ge (p ++ [l]) s q) as (j & Hj & Hle).
      assert (least ≤ lev (p ++ [l]) (take j q)); [|lia].
      apply Hmin, row_of_elem. by exists j.
Qed.

(** The search from the root: every node other than the root whose path is
    within [m] of the query, with that distance. *)
Lemma search_root_spec q m n :
  wf_node [] n →
  ∃ res, search_children (children n) q (py_range (length q + 1)) [] m = Ok res ∧
    ∀ x c, (x, c) ∈ res ↔ ∃ s, s ≠ [] ∧ node_at n s = Some x ∧ c = lev s q ∧ c ≤ m.
Proof.
  intros Hwf. rewrite <- row_of_nil.
  inversion Hwf as [p' ow' ov' cs' _ _ Hnd Hcs]; subst. simpl.
  destruct (search_children_spec q m [] (row_of [] q) cs') with (res := @nil (TrieNode V * Z))
    as (r & -> & Hr).
  { rewrite Forall_forall in Hcs. apply Forall_forall. intros [l ch] Hin res0.
    apply (searchRecursive_spec q m ch l [] res0), (Hcs _ Hin). }
  exists r. split; [done|]. intros x c. rewrite Hr. split.
  - intros (l & ch & s & Hin & Hs & -> & ?). exists (l :: s). split_and!; try done.
    apply (node_at_cons (mkNode ow' ov' cs')); [done|]. by exists ch.
  - intros ([|l s] & ? & Hs & -> & ?); [done|].
    apply (node_at_cons (mkNode ow' ov' cs')) in Hs as (ch & ? & ?); [|done].
    by exists l, ch, s.
Qed.

(** The traversal visits each node once: its results are the nodes at a
    list of distinct paths. *)
Lemma search_children_paths q m row (cs : list (ascii * TrieNode V)) :
  NoDup cs.*1 →
  Forall (λ lc, ∀ res, ∃ ss res',
            searchRecursive lc.2 lc.1 q row res m = Ok (res ++ res') ∧
            NoDup ss ∧
            Forall2 (λ s (xc : TrieNode V * Z), node_at lc.2 s = Some xc.1) ss res') cs →
  ∀ res, ∃ ss res',
    search_children cs q row res m = Ok (res ++ res') ∧
    NoDup ss ∧
    Forall2 (λ s (xc : TrieNode V * Z),
               ∃ l ch s', s = l :: s' ∧ (l, ch) ∈ cs ∧ node_at ch s' = Some xc.1) ss res'.
Proof.
  intros Hnd Hcs. induction Hcs as [|[l ch] cs Hch _ IH]; intros res; simpl.
  - exists [], []. rewrite app_nil_r. split_and!; [done|constructor|constructor].
  - apply NoDup_cons in Hnd as [Hl Hnd]. simpl in Hch.
    destruct (Hch res) as (ss1 & r1 & -> & Hnd1 & H1).
    destruct (IH Hnd (res ++ r1)) as (ss2 & r2 & -> & Hnd2 & H2).
    exists (((l ::.) <$> ss1) ++ ss2), (r1 ++ r2). rewrite app_assoc. split_and!; [done| |].
    + apply NoDup_app. split_and!; [by apply (NoDup_fmap_2 _)| |done].
      intros s (s' & -> & _)%list_elem_of_fmap Hin.
      apply list_elem_of_lookup in Hin as [i Hi].
      destruct (Forall2_lookup_l _ _ _ _ _ H2 Hi) as (xc & _ & l' & ch' & s'' & [= <- _] & Hin & _).
      apply Hl. apply list_elem_of_fmap. by exists (l, ch').
    + apply Forall2_app.
      * apply Forall2_fmap_l. eapply Forall2_impl; [exact H1|]. simpl.
        intros s xc Hs. exists l, ch, s. split_and!; [done|left|done].
      * eapply Forall2_impl; [exact H2|]. simpl.
        intros s xc (l' & ch' & s' & -> & Hin & Hs). exists l', ch', s'.
        split_and!; [done|by right|done].
Qed.

Lemma searchRecursive_paths q m n : ∀ l p res,
  wf_node (p ++ [l]) n →
  ∃ ss res', searchRecursive n l q (row_of p q) res m = Ok (res ++ res') ∧
             NoDup ss ∧
             Forall2 (λ s (xc : TrieNode V * Z), node_at n s = Some xc.1) ss res'.
Proof.
  induction n as [ow ov cs IH] using TrieNode_ind'. intros l p res Hwf.
  rewrite searchRecursive_unfold, next_row_spec, row_of_last. cbn zeta.
  destruct (py_min_spec (row_of (p ++ [l]) q) (lev (p ++ [l]) (take 0 q)))
    as (least & -> & _ & _).
  { apply row_of_elem. exists O. split; [lia|done]. }
  set (n := mkNode ow ov cs).
  set (here := if decide (lev (p ++ [l]) q ≤ m) then [(n, lev (p ++ [l]) q)] else []).
  set (ss0 := if decide (lev (p ++ [l]) q ≤ m) then [@nil ascii] else []).
  assert ((if decide (lev (p ++ [l]) q ≤ m)
           then res ++ [(n, lev (p ++ [l]) q)] else res) = res ++ here) as ->.
  { unfold here. case_decide; [done|by rewrite app_nil_r]. }
  assert (NoDup ss0 ∧ (∀ s, s ∈ ss0 → s = []) ∧
          Forall2 (λ s (xc : TrieNode V * Z), node_at n s = Some xc.1) ss0 here)
    as (Hnd0 & Hnil & Hhere).
  { unfold ss0, here. case_decide.
    - split_and!; [apply NoDup_singleton|by intros s ->%list_elem_of_singleton|].
      by repeat constructor.
    - split_and!; [constructor|by intros s ?%elem_of_nil|constructor]. }
  inversion Hwf as [p' ow' ov' cs' _ _ Hnd Hcs]; subst.
  change (children n) with cs. case_decide as Hprune.
  - destruct (search_children_paths q m (row_of (p ++ [l]) q) cs Hnd) with (res := res ++ here)
      as (ss & r & -> & Hndr & Hr).
    { rewrite Forall_forall in IH, Hcs. apply Forall_forall. intros [l' ch] Hin res0.
      apply (IH _ Hin l' (p ++ [l]) res0), (Hcs _ Hin). }
    exists (ss0 ++ ss), (here ++ r). rewrite app_assoc. split_and!; [done| |].
    + apply NoDup_app. split_and!; [done| |done].
      intros s ->%Hnil Hin. apply list_elem_of_lookup in Hin as [i Hi].
      by destruct (Forall2_lookup_l _ _ _ _ _ Hr Hi) as (xc & _ & l' & ch' & s' & ? & _).
    + apply Forall2_app; [done|]. eapply Forall2_impl; [exact Hr|]. simpl.
      intros s xc (l' & ch' & s' & -> & Hin & Hs).
      apply (node_at_cons n); [done|]. by exists ch'.
  - exists ss0, here. done.
Qed.

Lemma search_root_paths q m n :
  wf_node [] n →
  ∃ ss res, search_children (children n) q (py_range (length q + 1)) [] m = Ok res ∧
    NoDup ss ∧ Forall2 (λ s (xc : TrieNode V * Z), node_at n s = Some xc.1) ss res.
Proof.
  intros Hwf. rewrite <- row_of_nil.
  inversion Hwf as [p' ow' ov' cs' _ _ Hnd Hcs]; subst. simpl.
  destruct (search_children_paths q m (row_of [] q) cs' Hnd) with (res := @nil (TrieNode V * Z))
    as (ss & r & -> & Hndr & Hr).
  { rewrite Forall_forall in Hcs. apply Forall_forall. intros [l ch] Hin res0.
    apply (searchRecursive_paths q m ch l [] res0), (Hcs _ Hin). }
  exists ss, r. split_and!; [done..|]. eapply Forall2_impl; [exact Hr|]. simpl.
  intros s xc (l' & ch' & s' & -> & Hin & Hs).
  apply (node_at_cons (mkNode ow' ov' cs')); [done|]. by exists ch'.
Qed.

(** The words of the marked nodes at distinct paths are distinct. *)
Lemma marked_words_NoDup n (ss : list str) res :
  wf_node [] n → NoDup ss →
  Forall2 (λ s (xc : TrieNode V * Z), node_at n s = Some xc.1) ss res →
  NoDup (omap (λ nv : TrieNode V * Z, (λ a : str, (a, nv.2)) <$> word nv.1) res).*1.
Proof.
  intros Hwf Hnd Hall. eapply sublist_NoDup; [exact Hnd|].
  clear Hnd. induction Hall as [|s [x c] ss res Hs _ IH]; simpl; [constructor|].
  simpl in Hs. pose proof (wf_node_at [] n s x Hwf Hs) as Hx. simpl in Hx.
  apply wf_node_word in Hx. destruct (word x) as [w'|] eqn:Ew; simpl.
  - destruct Hx as [?|[= ->]]; [done|]. by constructor.
  - by constructor.
Qed.
End search_facts.

(** ** The subtree walks of [search_prediction] *)

Section walk_facts.
Context {V : Type}.
Implicit Types (n node : TrieNode V) (t : Trie V) (w p q s x : str).
Implicit Types (S : list (TrieNode V)) (tot : gmap str Z) (cost c : Z).

Lemma subtree_words_unfold n :
  subtree_words n = option_list (word n) ++ stack_words (children n).*2.
Proof.
  destruct n as [ow ov cs]. simpl. f_equal.
  induction cs as [|[l ch] cs IH]; [done|]. unfold stack_words in *. simpl. by rewrite IH.
Qed.

Lemma node_count_unfold n : node_count n = Datatypes.S (stack_count (children n).*2).
Proof.
  destruct n as [ow ov cs]. simpl. f_equal.
  induction cs as [|[l ch] cs IH]; [done|]. unfold stack_count in *. simpl. by rewrite IH.
Qed.

Lemma stack_words_app S1 S2 : stack_words (S1 ++ S2) = stack_words S1 ++ stack_words S2.
Proof. unfold stack_words. by rewrite bind_app. Qed.

Lemma stack_count_app S1 S2 : stack_count (S1 ++ S2) = (stack_count S1 + stack_count S2)%nat.
Proof. apply sum_list_with_app. Qed.

Lemma walk_snoc fuel cost S n tot :
  walk (Datatypes.S fuel) cost (S ++ [n]) tot
  = walk fuel cost (S ++ (children n).*2) (visit cost n tot).
Proof.
  simpl. rewrite last_snoc, removelast_last.
  destruct (S ++ [n]) eqn:E; [by destruct S|done].
Qed.

Lemma visit_lookup cost n tot x :
  visit cost n tot !! x
  = if decide (word n = Some x) then Some (lower cost (tot !! x)) else tot !! x.
Proof.
  unfold visit. destruct (word n) as [y|]; [|by rewrite decide_False].
  destruct (decide (y = x)) as [->|Hy].
  - rewrite decide_True by done. destruct (tot !! x) as [c|] eqn:E; simpl.
    + case_decide; [rewrite lookup_insert_eq|rewrite E]; f_equal; lia.
    + by rewrite lookup_insert_eq.
  - rewrite decide_False by congruence.
    destruct (tot !! y) as [c|]; [case_decide|]; by rewrite ?lookup_insert_ne.
Qed.

Lemma lower_lower cost o : lower cost (Some (lower cost o)) = lower cost o.
Proof. destruct o; simpl; lia. Qed.

(** A walk with enough turns ends, having lowered to [cost] the entry of
    every word of the subtrees on the stack. *)
Lemma walk_spec cost fuel : ∀ S tot,
  (stack_count S ≤ fuel)%nat →
  ∃ tot', walk fuel cost S tot = Some tot' ∧
    ∀ x, tot' !! x
         = if decide (x ∈ stack_words S) then Some (lower cost (tot !! x)) else tot !! x.
Proof.
  induction fuel as [|fuel IH]; intros S tot Hfuel.
  - destruct S as [|n S]; [|unfold stack_count in Hfuel; simpl in Hfuel;
      rewrite node_count_unfold in Hfuel; lia].
    exists tot. split; [done|]. intros x. rewrite decide_False; [done|].
    by intros ?%elem_of_nil.
  - destruct S as [|n0 S0] using rev_ind.
    { exists tot. split; [done|]. intros x. rewrite decide_False; [done|].
      by intros ?%elem_of_nil. }
    clear IHS0. rewrite walk_snoc.
    rewrite stack_count_app in Hfuel. unfold stack_count at 2 in Hfuel.
    simpl in Hfuel. rewrite node_count_unfold in Hfuel.
    destruct (IH (S0 ++ (children n0).*2) (visit cost n0 tot)) as (tot' & -> & Htot').
    { rewrite stack_count_app. lia. }
    exists tot'. split; [done|]. intros x. rewrite Htot', visit_lookup.
    rewrite !stack_words_app. unfold stack_words at 4. simpl. rewrite app_nil_r.
    rewrite subtree_words_unfold.
    assert (word n0 = Some x ↔ x ∈ option_list (word n0)) as Hw.
    { destruct (word n0); simpl; [rewrite list_elem_of_singleton; naive_solver|].
      split; [done|by intros ?%elem_of_nil]. }
    repeat case_decide; rewrite ?lower_lower; try done;
      rewrite ?elem_of_app in *; naive_solver.
Qed.

Lemma walk_results_spec fuel (results : list (TrieNode V * Z)) : ∀ tot,
  Forall (λ nc, node_count nc.1 ≤ fuel)%nat results →
  ∃ tot', walk_results fuel results tot = Some tot' ∧
    ∀ x, tot' !! x = best x results (tot !! x).
Proof.
  induction results as [|[n c] results IH]; intros tot Hfuel; simpl.
  - by exists tot.
  - apply Forall_cons in Hfuel as [Hn Hfuel]. simpl in Hn.
    destruct (walk_spec c fuel [n] tot) as (tot1 & -> & H1).
    { unfold stack_count. simpl. lia. }
    destruct (IH tot1 Hfuel) as (tot' & -> & H'). exists tot'. split; [done|].
    intros x. rewrite H', H1. unfold stack_words. simpl. by rewrite app_nil_r.
Qed.

Lemma best_Some x (results : list (TrieNode V * Z)) : ∀ o c,
  best x results o = Some c ↔
    (o = Some c ∨ ∃ n, (n, c) ∈ results ∧ x ∈ subtree_words n) ∧
    (∀ c0, o = Some c0 → c ≤ c0) ∧
    (∀ n c', (n, c') ∈ results → x ∈ subtree_words n → c ≤ c').
Proof.
  unfold best. induction results as [|[n c1] results IH]; intros o c; simpl.
  - split.
    + intros ->. split_and!; [by left|intros ? [= ->]; lia|by intros ? ? ?%elem_of_nil].
    + intros ([->|(? & ?%elem_of_nil & _)] & _); done.
  - rewrite IH. clear IH. setoid_rewrite elem_of_cons. case_decide as Hx.
    + split.
      * intros ([[= <-]|(n' & ? & ?)] & Ho & Hr); split_and!.
        -- destruct o as [c0|]; simpl; [|right; exists n; split; [by left|done]].
           destruct (Z.min_spec c0 c1) as [[_ ->]|[_ ->]]; [by left|].
           right. exists n. split; [by left|done].
        -- intros c0 ->. simpl. lia.
        -- intros n' c' [[= -> ->]|Hin] Hin'; [destruct o; simpl; lia|].
           etrans; [|by apply (Hr n' c')]. done.
        -- right. exists n'. split; [by right|done].
        -- intros c0 ->. specialize (Ho _ eq_refl). simpl in Ho. lia.
        -- intros n'' c' [[= -> ->]|Hin] Hin'; [|by apply (Hr n'' c')].
           specialize (Ho _ eq_refl). destruct o; simpl in Ho; lia.
      * intros (Hc & Ho & Hr). assert (c ≤ c1) by (apply (Hr n); [by left|done]).
        split_and!.
        -- destruct Hc as [->|(n' & [[= -> ->]|Hin] & Hin')].
           ++ left. simpl. f_equal. lia.
           ++ left. f_equal. destruct o as [c0|]; simpl; [|done].
              specialize (Ho _ eq_refl). lia.
           ++ right. by exists n'.
        -- intros c0 [= <-]. destruct o as [c0|]; simpl; [|lia].
           specialize (Ho _ eq_refl). lia.
        -- intros n' c' Hin Hin'. apply (Hr n'); [by right|done].
    + split.
      * intros ([->|(n' & ? & ?)] & Ho & Hr); split_and!; try done.
        -- by left.
        -- intros n' c' [[= -> ->]|Hin] Hin'; [done|by apply (Hr n')].
        -- right. exists n'. split; [by right|done].
        -- intros n'' c' [[= -> ->]|Hin] Hin'; [done|by apply (Hr n'')].
      * intros (Hc & Ho & Hr). split_and!; [|done|].
        -- destruct Hc as [->|(n' & [[= -> ->]|Hin] & Hin')]; [by left|done|].
           right. by exists n'.
        -- intros n' c' Hin Hin'. apply (Hr n'); [by right|done].
Qed.

(** In a well-formed trie the words of the subtree at path [p] are the
    stored words that extend [p]. *)
Lemma subtree_words_spec n : ∀ p x,
  wf_node p n →
  x ∈ subtree_words n ↔ ∃ s n', x = p ++ s ∧ node_at n s = Some n' ∧ word n' = Some x.
Proof.
  induction n as [ow ov cs IH] using TrieNode_ind'. intros p x Hwf.
  rewrite subtree_words_unfold. cbn [word children].
  inversion Hwf as [p' ow' ov' cs' Hw _ Hnd Hcs]; subst.
  assert (x ∈ stack_words cs.*2 ↔
          ∃ l ch s n', (l, ch) ∈ cs ∧ x = p ++ l :: s ∧ node_at ch s = Some n' ∧
                       word n' = Some x) as Hbelow.
  { clear Hnd Hw Hwf. unfold stack_words.
    induction cs as [|[l ch] cs IHcs]; simpl.
    - split; [by intros ?%elem_of_nil|]. by intros (? & ? & ? & ? & ?%elem_of_nil & _).
    - apply Forall_cons in IH as [IH1 IH2]. apply Forall_cons in Hcs as [Hc1 Hc2].
      simpl in *. rewrite elem_of_app, (IH1 _ x Hc1), (IHcs IH2 Hc2). split.
      + intros [(s & n' & -> & ? & ?)|(l' & ch' & s & n' & ? & ? & ? & ?)].
        * exists l, ch, s, n'. rewrite <- app_assoc in *. split_and!; [left|done..].
        * exists l', ch', s, n'. split_and!; [by right|done..].
      + intros (l' & ch' & s & n' & Hin & -> & ? & ?).
        apply elem_of_cons in Hin as [[= -> ->]|Hin].
        * left. exists s, n'. by rewrite <- app_assoc.
        * right. by exists l', ch', s, n'. }
  rewrite elem_of_app, Hbelow. split.
  - intros [Hx|(l & ch & s & n' & Hin & -> & Hs & Hn')].
    + destruct Hw as [-> | ->]; simpl in Hx; [by apply elem_of_nil in Hx|].
      apply list_elem_of_singleton in Hx as ->. exists [], (mkNode (Some p) ov cs).
      by rewrite app_nil_r.
    + exists (l :: s), n'. split_and!; [done| |done].
      apply (node_at_cons (mkNode ow ov cs)); [done|]. by exists ch.
  - intros ([|l s] & n' & -> & Hs & Hn').
    + left. simpl in Hs. simplify_eq/=. left.
    + right. apply (node_at_cons (mkNode ow ov cs)) in Hs as (ch & ? & ?); [|done].
      by exists l, ch, s, n'.
Qed.
(** More turns do not change the outcome of a walk that ended. *)
Lemma walk_mono cost fuel : ∀ fuel' S tot tot',
  (fuel ≤ fuel')%nat → walk fuel cost S tot = Some tot' → walk fuel' cost S tot = Some tot'.
Proof.
  induction fuel as [|fuel IH]; intros fuel' S tot tot' Hle.
  - destruct S; [|done]. simpl. intros <-. by destruct fuel'.
  - destruct fuel' as [|fuel']; [lia|]. destruct S as [|n0 S0] using rev_ind; [done|].
    rewrite !walk_snoc. apply IH. lia.
Qed.

Lemma walk_results_mono fuel fuel' (results : list (TrieNode V * Z)) : ∀ tot tot',
  (fuel ≤ fuel')%nat →
  walk_results fuel results tot = Some tot' → walk_results fuel' results tot = Some tot'.
Proof.
  induction results as [|[n c] results IH]; intros tot tot' Hle; simpl; [done|].
  destruct (walk fuel c [n] tot) as [tot1|] eqn:E; [|done].
  rewrite (walk_mono c fuel fuel' [n] tot tot1 Hle E). by apply IH.
Qed.
End walk_facts.

(** ** The searches *)

Lemma reachable_empty_and_a : reachable empty_and_a.
Proof. repeat apply reachable_set. apply reachable_new. Qed.

Lemma reachable_only_a : reachable only_a.
Proof. repeat apply reachable_set. apply reachable_new. Qed.

Example search_correction_cac :
  ∃ r, search_correction cat_car_can (py_str "cac") 1 = Ok r ∧
       r ≡ₚ [(py_str "cat", 1); (py_str "car", 1); (py_str "can", 1)].
Proof. eexists. split; [vm_compute; reflexivity|done]. Qed.

Example search_prediction_ca :
  search_prediction 10 cat_car_can (py_str "ca") 0
  = Some (Ok (map_to_list
       (<[py_str "cat" := 0]> (<[py_str "car" := 0]> (<[py_str "can" := 0]> ∅))))).
Proof. vm_compute. reflexivity. Qed.

Section search_theorems.
Context {V : Type}.
Implicit Types (t : Trie V) (w p q : str) (m c d : Z).

(** The hits of the traversal from the root of a reachable trie, shared by
    both searches. *)
Lemma search_root_reachable t q m :
  reachable t →
  ∃ res, search_children (children (trie t)) q (py_range (length q + 1)) [] m = Ok res ∧
    ∀ x c, (x, c) ∈ res ↔
      ∃ s, s ≠ [] ∧ node_at (trie t) s = Some x ∧ wf_node s x ∧ c = lev s q ∧ c ≤ m.
Proof.
  intros Hr. destruct (reachable_inv t Hr) as (Hwf & _ & _).
  destruct (search_root_spec q m (trie t) Hwf) as (res & Hres & Hin).
  exists res. split; [done|]. intros x c. rewrite Hin. split.
  - intros (s & ? & Hs & ? & ?). exists s. split_and!; try done.
    apply (wf_node_at [] _ s x Hwf Hs).
  - intros (s & ? & ? & _ & ? & ?). by exists s.
Qed.

Lemma search_correction_elem t q m :
  reachable t →
  ∃ r, search_correction t q m = Ok r ∧
    NoDup r.*1 ∧
    ∀ w c, (w, c) ∈ r ↔ w ≠ [] ∧ terminal t w ∧ c = lev w q ∧ c ≤ m.
Proof.
  intros Hr. unfold search_correction.
  destruct (search_root_reachable t q m Hr) as (res & Hsearch & Hres).
  destruct (reachable_inv t Hr) as (Hwf0 & _ & _).
  destruct (search_root_paths q m (trie t) Hwf0) as (ss & res' & Hsearch' & Hnd & Hall).
  assert (res' = res) as -> by congruence. rewrite Hsearch.
  eexists. split; [done|]. split; [by eapply marked_words_NoDup|].
  intros w c. rewrite list_elem_of_omap. split.
  - intros ([x c'] & Hin & Hw). simpl in Hw.
    destruct (word x) as [w'|] eqn:Ew; simplify_eq/=.
    apply Hres in Hin as (s & Hs & Hat & Hwf & -> & Hc).
    apply wf_node_word in Hwf as [?|?]; [congruence|]. assert (s = w) as -> by congruence.
    split_and!; try done. by exists x.
  - intros (Hw & (x & Hat & Hx) & -> & Hc). exists (x, lev w q). split.
    + apply Hres. exists w. split_and!; try done.
      destruct (reachable_inv t Hr) as (Hwf & _ & _). apply (wf_node_at [] _ w x Hwf Hat).
    + simpl. by rewrite Hx.
Qed.

(** C1 (as amended). On every reachable trie, for every query and every
    bound, [search_correction] returns, and returns exactly the non-empty
    stored words whose edit distance to the query is at most the bound, each
    once and paired with that distance. *)
Theorem search_correction_spec t q m :
  reachable t →
  ∃ r, search_correction t q m = Ok r ∧
    NoDup r.*1 ∧
    ∀ w c, (w, c) ∈ r ↔ w ≠ [] ∧ terminal t w ∧ edit_distance w q c ∧ c ≤ m.
Proof.
  intros Hr. destruct (search_correction_elem t q m Hr) as (r & Hres & Hnd & Hin).
  exists r. split_and!; [done..|]. intros w c. rewrite Hin, edit_distance_lev. done.
Qed.

Lemma search_prediction_elem t q m :
  reachable t →
  ∃ fuel0 r,
    (∀ fuel, (fuel0 ≤ fuel)%nat → search_prediction fuel t q m = Some (Ok r)) ∧
    (∀ fuel r', search_prediction fuel t q m = Some r' → r' = Ok r) ∧
    NoDup r.*1 ∧
    ∀ w c, (w, c) ∈ r ↔
      terminal t w ∧
      (∃ p, p ≠ [] ∧ p `prefix_of` w ∧ c = lev p q ∧ c ≤ m) ∧
      (∀ p, p ≠ [] → p `prefix_of` w → lev p q ≤ m → c ≤ lev p q).
Proof.
  intros Hr. unfold search_prediction.
  destruct (search_root_reachable t q m Hr) as (res & -> & Hres).
  set (fuel0 := max_list ((λ nc : TrieNode V * Z, node_count nc.1) <$> res)).
  assert (Forall (λ nc, node_count nc.1 ≤ fuel0)%nat res) as Hfuel.
  { apply Forall_forall. intros nc Hin. apply max_list_elem_of_le.
    apply list_elem_of_fmap. by exists nc. }
  destruct (walk_results_spec fuel0 res ∅ Hfuel) as (tot & Htot & Hlook).
  exists fuel0, (map_to_list tot). split_and!.
  - intros fuel Hle. by rewrite (walk_results_mono fuel0 fuel res ∅ tot Hle Htot).
  - intros fuel r'. destruct (walk_results fuel res ∅) as [tot'|] eqn:E; [|done].
    intros [= <-]. do 2 f_equal.
    apply (walk_results_mono _ (fuel `max` fuel0)) in E; [|lia].
    apply (walk_results_mono _ (fuel `max` fuel0)) in Htot; [|lia]. congruence.
  - apply NoDup_fst_map_to_list.
  - intros w c. rewrite elem_of_map_to_list, Hlook, lookup_empty, best_Some.
    destruct (reachable_inv t Hr) as (Hwf & _ & _). split.
    + intros ([?|(n & Hin & Hw)] & _ & Hmin); [done|].
      apply Hres in Hin as (p & Hp & Hat & Hwfn & -> & Hc).
      apply (subtree_words_spec n p w Hwfn) in Hw as (s & n' & -> & Hs & Hn').
      split_and!.
      * exists n'. split; [|done]. rewrite node_at_app, Hat. done.
      * exists p. split_and!; try done. by exists s.
      * intros p' Hp' [s' Hs'] Hc'.
        assert (is_Some (node_at (trie t) p')) as [x Hx].
        { assert (node_at (trie t) (p' ++ s') = Some n') as Hn.
          { rewrite <- Hs', node_at_app, Hat. done. }
          rewrite node_at_app in Hn. destruct (node_at (trie t) p'); [by eexists|done]. }
        apply (Hmin x (lev p' q)).
        -- apply Hres. exists p'. split_and!; try done. apply (wf_node_at [] _ p' x Hwf Hx).
        -- apply (subtree_words_spec x p' _ (wf_node_at [] _ p' x Hwf Hx)).
           exists s', n'. split_and!; [done| |done].
           assert (node_at (trie t) (p' ++ s') = Some n') as Hn.
           { rewrite <- Hs', node_at_app, Hat. done. }
           rewrite node_at_app, Hx in Hn. done.
    + intros ((n' & Hat' & Hn') & (p & Hp & [s ->] & -> & Hc) & Hmin).
      rewrite node_at_app in Hat'.
      destruct (node_at (trie t) p) as [x|] eqn:Hx; [|done]. simpl in Hat'.
      pose proof (wf_node_at [] _ p x Hwf Hx) as Hwfx. split_and!.
      * right. exists x. split.
        -- apply Hres. exists p. by split_and!.
        -- apply (subtree_words_spec x p _ Hwfx). by exists s, n'.
      * done.
      * intros y c' Hin Hw. apply Hres in Hin as (p' & Hp' & Hat & Hwfn & -> & Hc').
        apply (subtree_words_spec y p' _ Hwfn) in Hw as (s' & n'' & Hs' & _ & _).
        apply Hmin; [done|by exists s'|done].
Qed.

(** C2 (as amended). On every reachable trie, with enough turns for its
    loops, [search_prediction] returns, once each, the stored words that
    extend (or are) the path of a node other than the root whose edit
    distance to the whole query is at most the bound; each word is paired
    with the least such distance among those nodes, not with its own edit
    distance. *)
Theorem search_prediction_spec t q m :
  reachable t →
  ∃ fuel0 r,
    (∀ fuel, (fuel0 ≤ fuel)%nat → search_prediction fuel t q m = Some (Ok r)) ∧
    NoDup r.*1 ∧
    ∀ w c, (w, c) ∈ r ↔
      terminal t w ∧
      (∃ p, p ≠ [] ∧ p `prefix_of` w ∧ edit_distance p q c ∧ c ≤ m) ∧
      (∀ p d, p ≠ [] → p `prefix_of` w → edit_distance p q d → d ≤ m → c ≤ d).
Proof.
  intros Hr. destruct (search_prediction_elem t q m Hr) as (fuel0 & r & Hret & _ & Hnd & Hin).
  exists fuel0, r. split_and!; [done..|]. intros w c. rewrite Hin.
  setoid_rewrite edit_distance_lev. split.
  - intros (? & ? & Hmin). split_and!; [done..|]. intros p d ? ? -> ?. by apply Hmin.
  - intros (? & ? & Hmin). split_and!; [done..|]. intros p ? ? ?. by apply (Hmin p).
Qed.

(** C10. On every reachable trie, whatever the query and the bound, the
    empty word is in the result of neither search, whether or not it is
    stored and within the bound: [search_correction] returns a list without
    it, and so does [search_prediction] whenever its loops are given the
    turns to end. *)
Theorem searches_skip_empty_word t q m :
  reachable t →
  (∃ r, search_correction t q m = Ok r ∧ ∀ c, ([], c) ∉ r) ∧
  (∃ fuel0 r,
     (∀ fuel, (fuel0 ≤ fuel)%nat → search_prediction fuel t q m = Some (Ok r)) ∧
     (∀ fuel r', search_prediction fuel t q m = Some r' → r' = Ok r) ∧
     ∀ c, ([], c) ∉ r).
Proof.
  intros Hr. split.
  - destruct (search_correction_elem t q m Hr) as (r & Hres & _ & Hin).
    exists r. split; [done|]. intros c Hc. by apply Hin in Hc as (? & _).
  - destruct (search_prediction_elem t q m Hr) as (fuel0 & r & Hret & Huniq & _ & Hin).
    exists fuel0, r. split_and!; [done..|]. intros c Hc.
    apply Hin in Hc as (_ & (p & Hp & [s Hs] & _) & _). by destruct p.
Qed.
End search_theorems.

(** C3 on the vocabulary ["cat"], ["car"], ["can"]. *)
Lemma words_terminal_bijection_witness :
  reachable cat_car_can ∧
  NoDup (iter cat_car_can) ∧
  (∀ w, w ∈ iter cat_car_can ↔ terminal cat_car_can w) ∧
  (∀ s n, node_at (trie cat_car_can) s = Some n → is_Some (word n) → word n = Some s) ∧
  ∀ w v,
    getitem (setitem cat_car_can w v) w = Some v ∧
    ∀ vs, length (filter (λ x, x = w)
                    (iter (foldl (λ t' v', setitem t' w v') (setitem cat_car_can w v) vs)))
          = 1%nat.
Proof.
  assert (reachable cat_car_can) as Hr
    by (unfold cat_car_can; repeat apply reachable_set; apply reachable_new).
  split; [exact Hr|]. exact (words_terminal_bijection cat_car_can Hr).
Defined.

(** C1 (as amended) on the scenario of the specification: the corrections
    of ["cac"] within one edit. *)
Lemma search_correction_spec_witness :
  reachable cat_car_can ∧
  ∃ r, search_correction cat_car_can (py_str "cac") 1 = Ok r ∧
    NoDup r.*1 ∧
    ∀ w c, (w, c) ∈ r ↔
      w ≠ [] ∧ terminal cat_car_can w ∧ edit_distance w (py_str "cac") c ∧ c ≤ 1.
Proof.
  assert (reachable cat_car_can) as Hr
    by (unfold cat_car_can; repeat apply reachable_set; apply reachable_new).
  split; [exact Hr|]. exact (search_correction_spec cat_car_can (py_str "cac") 1 Hr).
Defined.

(** C1 as stated fails on a trie that stores the empty word: the empty word
    is one edit away from ["a"], and [search_correction "a" 1] returns ["a"]
    alone. *)
Lemma search_correction_misses_empty_word :
  reachable empty_and_a ∧
  terminal empty_and_a [] ∧
  edit_distance [] (py_str "a") 1 ∧ 1 ≤ 1 ∧
  search_correction empty_and_a (py_str "a") 1 = Ok [(py_str "a", 0)].
Proof.
  split_and!.
  - apply reachable_empty_and_a.
  - apply terminal_mark. reflexivity.
  - by apply edit_distance_lev.
  - lia.
  - vm_compute. reflexivity.
Qed.

(** C2 (as amended) on the predictions of ["ca"] with bound 0. *)
Lemma search_prediction_spec_witness :
  reachable cat_car_can ∧
  ∃ fuel0 r,
    (∀ fuel, (fuel0 ≤ fuel)%nat →
       search_prediction fuel cat_car_can (py_str "ca") 0 = Some (Ok r)) ∧
    NoDup r.*1 ∧
    ∀ w c, (w, c) ∈ r ↔
      terminal cat_car_can w ∧
      (∃ p, p ≠ [] ∧ p `prefix_of` w ∧ edit_distance p (py_str "ca") c ∧ c ≤ 0) ∧
      (∀ p d, p ≠ [] → p `prefix_of` w → edit_distance p (py_str "ca") d → d ≤ 0 → c ≤ d).
Proof.
  assert (reachable cat_car_can) as Hr
    by (unfold cat_car_can; repeat apply reachable_set; apply reachable_new).
  split; [exact Hr|]. exact (search_prediction_spec cat_car_can (py_str "ca") 0 Hr).
Defined.

(** C2 as stated fails at the root: with the empty query and bound 0 the
    row of the root ends in 0, the stored word ["a"] is below the root, and
    [search_prediction] returns nothing. *)
Lemma search_prediction_skips_root :
  reachable only_a ∧
  terminal only_a (py_str "a") ∧
  node_at (trie only_a) [] = Some (trie only_a) ∧ [] `prefix_of` py_str "a" ∧
  py_last (py_range (length (py_str "") + 1)) = Ok 0 ∧ 0 ≤ 0 ∧
  (∀ fuel, search_prediction fuel only_a (py_str "") 0 = Some (Ok [])).
Proof.
  split_and!.
  - apply reachable_only_a.
  - apply terminal_mark. reflexivity.
  - reflexivity.
  - by exists (py_str "a").
  - reflexivity.
  - lia.
  - intros fuel. reflexivity.
Qed.

(** C10 on a trie that stores the empty word, one edit away from the query
    ["a"]. *)
Lemma searches_skip_empty_word_witness :
  reachable empty_and_a ∧
  (∃ r, search_correction empty_and_a (py_str "a") 1 = Ok r ∧ ∀ c, ([], c) ∉ r) ∧
  (∃ fuel0 r,
     (∀ fuel, (fuel0 ≤ fuel)%nat →
        search_prediction fuel empty_and_a (py_str "a") 1 = Some (Ok r)) ∧
     (∀ fuel r', search_prediction fuel empty_and_a (py_str "a") 1 = Some r' → r' = Ok r) ∧
     ∀ c, ([], c) ∉ r).
Proof.
  assert (reachable empty_and_a) as Hr
    by (unfold empty_and_a; repeat apply reachable_set; apply reachable_new).
  split; [exact Hr|]. exact (searches_skip_empty_word empty_and_a (py_str "a") 1 Hr).
Defined.

(** ** The language model and the commit of a word *)

Section keyboard_facts.
Context `{PyFloat}.
Implicit Types (kb : VKeyboard) (w prev cur : str) (e : WordEntry) (path : list point).

Lemma unigram_count_nonneg kb w : session_inv kb → 0 ≤ unigram_count kb w.
Proof.
  intros (_ & _ & Hc). unfold unigram_count.
  destruct (user_unigrams kb !! w) as [c|] eqn:E; simpl; [|done]. apply (Hc _ _ E).
Qed.

Lemma distinct_unigrams_pos kb : session_inv kb → 0 < distinct_unigrams kb.
Proof.
  intros (_ & Hne & _). unfold distinct_unigrams.
  pose proof (map_size_non_empty_iff (user_unigrams kb)). 
  destruct (size (user_unigrams kb)); [|lia]. naive_solver.
Qed.

Lemma session_inv_init kw kh centers vocabulary :
  session_inv (init_keyboard kw kh centers vocabulary).
Proof.
  split_and!; simpl; [done| |].
  - intros Hm. apply (f_equal (λ m : gmap str Z, m !! list_ascii_of_string "the")) in Hm.
    by rewrite lookup_singleton_eq in Hm.
  - apply map_Forall_singleton. done.
Qed.

Lemma commit_ascii kb prev cur :
  commit kb prev cur
  = if is_ascii prev && is_ascii cur then count_word kb prev cur
    else (kb, Raise UnicodeEncodeError).
Proof. unfold commit, str_of_unicode. by destruct (is_ascii prev), (is_ascii cur). Qed.

Lemma session_inv_commit kb prev cur : session_inv kb → session_inv (commit kb prev cur).1.
Proof.
  intros Hinv. pose proof (unigram_count_nonneg kb cur Hinv) as Hu.
  rewrite commit_ascii. destruct (is_ascii prev && is_ascii cur); [|done].
  destruct Hinv as (Hn & Hne & Hc). unfold count_word.
  case_decide; [|done].
  destruct (if decide (cur ∉ iter (kb_words kb)) then _ else _) as [ws|err]; simpl.
  - split_and!; simpl; [lia|apply insert_non_empty|].
    apply map_Forall_insert_2; [|done]. unfold unigram_count in Hu. lia.
  - split_and!; simpl; [lia|done|done].
Qed.

Lemma ngram_probability_formula kb w prev e :
  session_inv kb →
  getitem (kb_words kb) w = Some e →
  get_ngram_probability kb w prev = Ok (ngram_formula kb w prev e).
Proof.
  intros Hinv He. unfold get_ngram_probability, py_fdiv_int, word_entry.
  pose proof (unigram_count_nonneg kb prev Hinv) as H1.
  pose proof (distinct_unigrams_pos kb Hinv) as H2.
  destruct Hinv as (Hn & _ & _). unfold unigram_count, distinct_unigrams in *.
  rewrite !decide_False by lia. by rewrite He.
Qed.

(** C5. In a session whose counters are as the engine keeps them, for every
    word of the vocabulary and every previous word, the language-model
    probability is computed without an exception and is
    [0.4 * (bigram_count(prev, word) + 1) / (unigram_count(prev) + distinct)
     + 0.1 * (unigram_count(word) + 1) / (total + distinct)
     + 0.5 * frequency], [distinct] being the number of distinct session
    unigrams, [total] the committed-word count and [frequency] the static
    frequency stored with the word. *)
Theorem get_ngram_probability_spec kb w prev e :
  session_inv kb →
  getitem (kb_words kb) w = Some e →
  get_ngram_probability kb w prev = Ok (ngram_formula kb w prev e).
Proof.
  intros Hinv He. unfold get_ngram_probability, py_fdiv_int, word_entry.
  pose proof (unigram_count_nonneg kb prev Hinv) as H1.
  pose proof (distinct_unigrams_pos kb Hinv) as H2.
  destruct Hinv as (Hn & _ & _). unfold unigram_count, distinct_unigrams in *.
  rewrite !decide_False by lia. by rewrite He.
Qed.

Lemma for_each_Forall2 {A B} (f : A → result B) (P : A → B → Prop) (l : list A) :
  (∀ x, x ∈ l → ∃ y, f x = Ok y ∧ P x y) →
  ∃ ys, for_each f l = Ok ys ∧ Forall2 P l ys.
Proof.
  induction l as [|x l IH]; intros Hf; simpl; [by exists []|].
  destruct (Hf x) as (y & -> & Hy); [left|].
  destruct IH as (ys & -> & Hys); [intros z Hz; apply Hf; by right|].
  exists (y :: ys). split; [done|by constructor].
Qed.

(** [val_dist] never leaves the path: it returns, whatever the points. *)
Lemma val_dist_loop_total path : ∀ indices tot,
  Forall (λ i, 1 ≤ i < length path)%nat indices →
  ∃ tot', val_dist_loop path indices tot = Ok tot'.
Proof.
  induction indices as [|i rest IH]; intros tot Hi; simpl; [by eexists|].
  apply Forall_cons in Hi as [Hi Hrest].
  destruct (lookup_lt_is_Some_2 path i) as [b Hb]; [lia|].
  destruct (lookup_lt_is_Some_2 path (i - 1)) as [a Ha]; [lia|].
  rewrite (py_index_lookup _ _ _ Hb), (py_index_lookup _ _ _ Ha). by apply IH.
Qed.

Lemma val_dist_total path : ∃ tot, val_dist path = Ok (path, tot).
Proof.
  unfold val_dist.
  destruct (val_dist_loop_total path (seq 1 (length path - 1)) f0_0) as [tot ->].
  { apply Forall_forall. intros i Hi%elem_of_seq. lia. }
  by exists tot.
Qed.




Lemma key_path_length kb w path : key_path kb w = Ok path → length path = length w.
Proof.
  unfold key_path. revert path. induction w as [|c w IH]; intros path; simpl.
  - by intros [= <-].
  - destruct (key_centers kb !! c); [|done].
    destruct (for_each _ w) as [ys|]; [|done]. intros [= <-]. simpl. f_equal. by apply IH.
Qed.

(** What a commit does to the vocabulary, whether or not it ends in an
    exception: nothing, or the assignment of the lower-cased word. *)
Lemma commit_words kb prev cur :
  kb_words (commit kb prev cur).1 = kb_words kb ∨
  ∃ path tot,
    length path = length cur ∧ cur ≠ [] ∧
    kb_words (commit kb prev cur).1
    = setitem (kb_words kb) (py_lower cur) (mkEntry path tot f0_0).
Proof.
  rewrite commit_ascii. destruct (is_ascii prev && is_ascii cur); [|by left].
  unfold count_word. case_decide as Hcur; [|by left].
  cbn [kb_words user_nograms user_unigrams user_bigrams key_centers key_width key_height].
  case_decide; [|by left].
  destruct (key_path _ (py_lower cur)) as [path|] eqn:Hpath; [|by left].
  destruct (val_dist_total path) as [tot ->]. right. exists path, tot.
  apply key_path_length in Hpath. unfold py_lower in Hpath.
  rewrite length_fmap in Hpath. done.
Qed.

(** The hypotheses of the properties of the ranking core hold of every
    keyboard the engine goes through. *)
Lemma engine_state_inv kb :
  engine_state kb → session_inv kb ∧ reachable (kb_words kb) ∧ paths_stored kb.
Proof.
  induction 1 as [kw kh centers vocabulary Hr Hp|kb prev cur _ (Hinv & Hr & Hp)].
  - split_and!; [apply session_inv_init|done|done].
  - split; [by apply session_inv_commit|]. unfold paths_stored in *.
    destruct (commit_words kb prev cur) as [->|(path & tot & Hlen & Hcur & ->)]; [done|].
    split; [by constructor|]. intros w Hw.
    destruct (decide (w = py_lower cur)) as [->|Hne].
    + eexists. split; [apply getitem_setitem_from|]. simpl.
      intros ->. destruct cur; [done|simpl in Hlen; lia].
    + apply iter_setitem in Hw as [Hw|Hw]; [|done].
      destruct (Hp w Hw) as (e & He & Hpath). exists e. split; [|done].
      unfold getitem, setitem. simpl. by rewrite getitem_setitem_other.
Qed.
End keyboard_facts.

(** ** Ranking *)

Section ranking_facts.
Context `{PyFloat}.
Implicit Types (kb : VKeyboard) (w prev : str) (e : WordEntry).
Implicit Types (x y : str * pyfloat) (l cands r : list (str * pyfloat)).

Lemma insert_desc_perm x l : insert_desc x l ≡ₚ x :: l.
Proof.
  induction l as [|y l IH]; simpl; [done|].
  destruct (flt x.2 y.2); [|done]. rewrite IH. apply Permutation_swap.
Qed.

Lemma py_sort_desc_perm l : py_sort_desc l ≡ₚ l.
Proof.
  induction l as [|x l IH]; simpl; [done|].
  rewrite insert_desc_perm. by rewrite IH.
Qed.

Lemma insert_desc_sorted x l :
  strict_weak_on (x :: l).*2 →
  StronglySorted score_ge l → StronglySorted score_ge (insert_desc x l).
Proof.
  intros Hord. induction 1 as [|y l Hl IH Hy]; simpl.
  - repeat constructor.
  - assert (strict_weak_on (x :: l).*2) as Hord'.
    { intros a b c Ha Hb Hc. apply Hord; rewrite fmap_cons, (fmap_cons _ y l);
        rewrite fmap_cons in Ha, Hb, Hc; set_solver. }
    assert (x.2 ∈ (x :: y :: l).*2) as Hx by (rewrite fmap_cons; left).
    assert (y.2 ∈ (x :: y :: l).*2) as Hy2 by (rewrite !fmap_cons; right; left).
    destruct (flt x.2 y.2) eqn:E.
    + constructor; [by apply IH|]. rewrite insert_desc_perm. constructor; [|done].
      by apply (Hord x.2 y.2 x.2).
    + constructor; [by constructor|]. constructor; [done|].
      apply Forall_forall. intros z Hz. rewrite Forall_forall in Hy.
      apply (Hord x.2 y.2 z.2); [done..| |done|by apply Hy].
      rewrite !fmap_cons. do 2 right. apply list_elem_of_fmap. by exists z.
Qed.

Lemma py_sort_desc_sorted l :
  strict_weak_on l.*2 → StronglySorted score_ge (py_sort_desc l).
Proof.
  induction l as [|x l IH]; intros Hord; simpl; [constructor|].
  apply insert_desc_sorted.
  - intros a b c Ha Hb Hc.
    apply Hord; rewrite fmap_cons in *; by rewrite <- (py_sort_desc_perm l).
  - apply IH. intros a b c Ha Hb Hc. apply Hord; rewrite fmap_cons; by right.
Qed.

Lemma py_sort_desc_ranked l : ranked l (py_sort_desc l).
Proof. split; [apply py_sort_desc_perm|apply py_sort_desc_sorted]. Qed.

Lemma scored_hit_fst kb prev hits cands :
  Forall2 (scored_hit kb prev) hits cands → cands.*1 = hits.*1.
Proof. induction 1 as [|wd c ? ? (e & _ & ->)]; simpl; [done|]. by f_equal. Qed.

Lemma terminal_getitem (t : Trie WordEntry) w :
  reachable t → terminal t w → is_Some (getitem t w).
Proof.
  intros Hr (n & Hn & Hw). destruct (reachable_inv t Hr) as (Hwf & _ & _).
  unfold getitem. rewrite getitem_node_at, Hn. simpl.
  apply (wf_node_value _ _ (wf_node_at [] _ w n Hwf Hn)). by rewrite Hw.
Qed.

Lemma score_hits kb prev (hits : list (str * Z)) :
  session_inv kb → reachable (kb_words kb) →
  (∀ wd, wd ∈ hits → terminal (kb_words kb) wd.1) →
  ∃ cands, for_each (score_hit kb prev) hits = Ok cands ∧
           Forall2 (scored_hit kb prev) hits cands.
Proof.
  intros Hinv Hr Hhits. apply for_each_Forall2. intros wd Hwd.
  destruct (terminal_getitem _ _ Hr (Hhits wd Hwd)) as [e He].
  eexists. unfold score_hit. rewrite (ngram_probability_formula kb wd.1 prev e Hinv He).
  split; [done|]. by exists e.
Qed.

Lemma candidate_corrections_ranked kb prev w :
  session_inv kb →
  reachable (kb_words kb) →
  ∃ hits cands r,
    search_correction (kb_words kb) w 2 = Ok hits ∧
    Forall2 (scored_hit kb prev) hits cands ∧
    candidate_corrections kb prev w = Ok r ∧
    ranked cands r.
Proof.
  intros Hinv Hr.
  destruct (search_correction_elem (kb_words kb) w 2 Hr) as (hits & Hhits & _ & Hin).
  destruct (score_hits kb prev hits Hinv Hr) as (cands & Hc & Hsc).
  { intros [x c] Hx. by apply Hin in Hx as (_ & ? & _). }
  exists hits, cands, (py_sort_desc cands). unfold candidate_corrections.
  rewrite Hhits, Hc. split_and!; [done..|apply py_sort_desc_ranked].
Qed.

Lemma candidate_predictions_ranked kb prev w :
  session_inv kb →
  reachable (kb_words kb) →
  ∃ fuel0 hits cands r,
    (∀ fuel, (fuel0 ≤ fuel)%nat →
       search_prediction fuel (kb_words kb) w 2 = Some (Ok hits) ∧
       candidate_predictions fuel kb prev w = Some (Ok r)) ∧
    Forall2 (scored_hit kb prev) hits cands ∧
    ranked cands r.
Proof.
  intros Hinv Hr.
  destruct (search_prediction_elem (kb_words kb) w 2 Hr)
    as (fuel0 & hits & Hhits & _ & _ & Hin).
  destruct (score_hits kb prev hits Hinv Hr) as (cands & Hc & Hsc).
  { intros [x c] Hx. by apply Hin in Hx as (? & _). }
  exists fuel0, hits, cands, (py_sort_desc cands). split_and!.
  - intros fuel Hfuel. unfold candidate_predictions.
    rewrite (Hhits fuel Hfuel), Hc. done.
  - done.
  - apply py_sort_desc_ranked.
Qed.

(** C6. In a session whose counters are as the engine keeps them and over a
    reachable vocabulary, the typed corrections and the typed predictions of
    a prefix are computed without an exception from the trie search with the
    fixed bound 2; each hit [(w, d)] becomes the candidate
    [(w, 0.001 ** d * p(w | prev))], [p] being the language-model formula;
    the list returned holds these candidates, greatest score first whenever
    [<] is a strict weak order on the scores. *)
Theorem candidates_typed_spec kb prev w :
  session_inv kb →
  reachable (kb_words kb) →
  (∃ hits cands r,
     search_correction (kb_words kb) w 2 = Ok hits ∧
     Forall2 (scored_hit kb prev) hits cands ∧
     candidate_corrections kb prev w = Ok r ∧
     ranked cands r) ∧
  (∃ fuel0 hits cands r,
     (∀ fuel, (fuel0 ≤ fuel)%nat →
        search_prediction fuel (kb_words kb) w 2 = Some (Ok hits) ∧
        candidate_predictions fuel kb prev w = Some (Ok r)) ∧
     Forall2 (scored_hit kb prev) hits cands ∧
     ranked cands r).
Proof.
  intros Hinv Hr. split.
  - by apply candidate_corrections_ranked.
  - by apply candidate_predictions_ranked.
Qed.

(** C8 (as amended). In a session whose counters are as the engine keeps
    them and over a reachable vocabulary, the empty prefix raises no
    exception and is searched like any other prefix: its corrections are
    the non-empty stored words of at most 2 letters, its predictions are all
    the non-empty stored words. The empty gesture gives the empty list when
    the vocabulary has no word, and raises [IndexError] when it has one: the
    loop over the words reads the first point of the gesture. *)
Theorem empty_input_spec kb prev :
  session_inv kb →
  reachable (kb_words kb) →
  (∃ r, candidate_corrections kb prev [] = Ok r ∧
        ∀ w, w ∈ r.*1 ↔ w ≠ [] ∧ w ∈ iter (kb_words kb) ∧ (length w ≤ 2)%nat) ∧
  (∃ fuel0 r,
     (∀ fuel, (fuel0 ≤ fuel)%nat → candidate_predictions fuel kb prev [] = Some (Ok r)) ∧
     ∀ w, w ∈ r.*1 ↔ w ≠ [] ∧ w ∈ iter (kb_words kb)) ∧
  candidate_matches kb prev []
  = (if decide (iter (kb_words kb) = []) then Ok [] else Raise IndexError).
Proof.
  intros Hinv Hr. destruct (reachable_inv _ Hr) as (_ & _ & Hwords). split_and!.
  - destruct (candidate_corrections_ranked kb prev [] Hinv Hr)
      as (hits & cands & r & Hhits & Hsc & Hret & Hperm & _).
    destruct (search_correction_elem (kb_words kb) [] 2 Hr) as (hits' & Hhits' & _ & Hin).
    assert (hits' = hits) as -> by congruence.
    exists r. split; [done|]. intros w.
    rewrite Hperm, (scored_hit_fst _ _ _ _ Hsc), list_elem_of_fmap. split.
    + intros ([w' c] & -> & Hwc). apply Hin in Hwc as (? & ? & -> & Hc).
      rewrite lev_nil_r in Hc. simpl. rewrite Hwords. split_and!; [done..|lia].
    + intros (? & ?%Hwords & ?). exists (w, lev w []). split; [done|]. apply Hin.
      rewrite lev_nil_r. split_and!; [done..|lia].
  - destruct (candidate_predictions_ranked kb prev [] Hinv Hr)
      as (fuel0 & hits & cands & r & Hret & Hsc & Hperm & _).
    destruct (search_prediction_elem (kb_words kb) [] 2 Hr)
      as (fuel1 & hits' & Hhits' & _ & _ & Hin).
    assert (hits' = hits) as ->.
    { destruct (Hret (fuel0 `max` fuel1)%nat) as [Hs _]; [lia|].
      rewrite Hhits' in Hs by lia. congruence. }
    exists fuel0, r. split; [intros fuel Hfuel; by apply Hret|]. intros w.
    rewrite Hperm, (scored_hit_fst _ _ _ _ Hsc), list_elem_of_fmap. split.
    + intros ([w' c] & -> & Hwc). apply Hin in Hwc as (? & (p & ? & [s ->] & _) & _).
      simpl. rewrite Hwords. split; [by destruct p|done].
    + intros (Hw & ?%Hwords). destruct w as [|a w]; [done|].
      exists (a :: w, 1). split; [done|]. apply Hin. split_and!; [done| |].
      * exists [a]. split_and!; [done|by exists w|done|lia].
      * intros p Hp _ _. rewrite lev_nil_r. destruct p; [done|simpl; lia].
  - unfold candidate_matches, val_dist. simpl. unfold iter in *.
    destruct (words (kb_words kb)) as [|w ws] eqn:Hw; [done|].
    rewrite decide_False by done. cbn [matches_loop].
    destruct (terminal_getitem (kb_words kb) w Hr) as [e He].
    { apply Hwords. left. }
    unfold prefilter, word_entry. rewrite He.
    destruct (py_item (we_path e) 0) as [p0|err] eqn:Hp0; [done|].
    unfold py_item in Hp0. cbn zeta in Hp0. case_decide; [|by injection Hp0 as <-].
    unfold py_index in Hp0. destruct (we_path e !! _); [done|by injection Hp0 as <-].
Qed.
End ranking_facts.

(** ** Gesture matching and resampling *)

Section gesture_facts.
Context `{PyFloat}.
Implicit Types (kb : VKeyboard) (w prev : str) (e : WordEntry).
Implicit Types (gesture path : list point) (gl : pyfloat).

Lemma py_item_head {A} (l : list A) x : head l = Some x → py_item l 0 = Ok x.
Proof.
  destruct l as [|y l]; [done|]. intros [= ->]. unfold py_item. cbn zeta.
  rewrite (decide_False (P := 0 < 0)) by lia.
  rewrite decide_True by (cbn [length]; lia). done.
Qed.

Lemma py_item_last {A} (l : list A) x : last l = Some x → py_item l (-1) = Ok x.
Proof.
  intros Hl. unfold py_item. cbn zeta. rewrite (decide_True (P := -1 < 0)) by lia.
  assert (l ≠ []) as Hne by (by intros ->). assert (0 < length l)%nat.
  { destruct l; [done|simpl; lia]. }
  rewrite decide_True by lia. apply py_index_lookup.
  rewrite last_lookup in Hl. rewrite <- Hl. f_equal. lia.
Qed.

Lemma head_is_Some {A} (l : list A) : l ≠ [] → is_Some (head l).
Proof. destruct l; [done|by eexists]. Qed.

Lemma last_is_Some' {A} (l : list A) : l ≠ [] → is_Some (last l).
Proof. intros Hl. destruct (last l) eqn:E; [by eexists|]. by apply last_None in E. Qed.

Lemma prefilter_keeps kb gesture gl w :
  gesture ≠ [] → paths_stored kb → w ∈ iter (kb_words kb) →
  prefilter kb gesture gl w = Ok (keeps kb gesture gl w).
Proof.
  intros Hg Hp Hw. destruct (Hp w Hw) as (e & He & Hpath).
  destruct (head_is_Some _ Hg) as [g0 Hg0]. destruct (last_is_Some' _ Hg) as [g1 Hg1].
  destruct (head_is_Some _ Hpath) as [p0 Hp0].
  destruct (last_is_Some' _ Hpath) as [p1 Hp1].
  unfold prefilter, keeps, word_entry, near. rewrite He, Hg0, Hg1, Hp0, Hp1.
  rewrite (py_item_head _ _ Hp0), (py_item_head _ _ Hg0).
  destruct (flt (key_width kb) (fabs (fsub p0.1 g0.1))); [done|].
  destruct (flt (key_height kb) (fabs (fsub p0.2 g0.2))); [done|]. simpl.
  rewrite (py_item_last _ _ Hp1), (py_item_last _ _ Hg1).
  destruct (flt (key_width kb) (fabs (fsub p1.1 g1.1))); [done|].
  destruct (flt (key_height kb) (fabs (fsub p1.2 g1.2))); [done|]. simpl.
  destruct (fle (fmul f0_8 (we_length e)) gl); [|done].
  destruct (fle gl (fmul f1_4 (we_length e))); done.
Qed.

Lemma matches_loop_filter kb prev gesture gl (ws : list str) : ∀ candidates,
  (∀ w, w ∈ ws → prefilter kb gesture gl w = Ok (keeps kb gesture gl w)) →
  matches_loop kb prev gesture gl ws candidates =
  let! scored := for_each (score_match kb prev gesture)
                   (filter (λ w, keeps kb gesture gl w) ws) in
  Ok (candidates ++ scored).
Proof.
  induction ws as [|w ws IH]; intros candidates Hpre; simpl.
  - by rewrite app_nil_r.
  - rewrite (Hpre w) by left. rewrite filter_cons.
    destruct (keeps kb gesture gl w) eqn:E; simpl.
    + destruct (score_match kb prev gesture w) as [c|]; [|done].
      rewrite IH by (intros; apply Hpre; by right).
      destruct (for_each _ _); [|done]. by rewrite <- app_assoc.
    + apply IH. intros. apply Hpre. by right.
Qed.



End gesture_facts.

Section resample_facts.
Context `{PyFloat}.
Implicit Types (kb : VKeyboard) (w prev : str) (e : WordEntry).
Implicit Types (gesture path : list point) (cl : list pyfloat).

Lemma cum_length_loop_total path : ∀ indices cl,
  cl ≠ [] →
  Forall (λ i, 1 ≤ i < length path)%nat indices →
  ∃ cl', cum_length_loop path indices cl = Ok cl' ∧
         length cl' = (length cl + length indices)%nat.
Proof.
  induction indices as [|i rest IH]; intros cl Hcl Hi; simpl.
  - exists cl. split; [done|lia].
  - apply Forall_cons in Hi as [Hi Hrest].
    destruct (last_is_Some' _ Hcl) as [c Hc]. unfold py_last at 1. rewrite Hc.
    destruct (lookup_lt_is_Some_2 path i) as [b Hb]; [lia|].
    destruct (lookup_lt_is_Some_2 path (i - 1)) as [a Ha]; [lia|].
    rewrite (py_index_lookup _ _ _ Hb), (py_index_lookup _ _ _ Ha).
    destruct (IH (cl ++ [fadd c (seg_length a b)])) as (cl' & -> & Hlen);
      [by destruct cl|done|].
    exists cl'. split; [done|]. rewrite length_app in Hlen. simpl in Hlen. lia.
Qed.

Lemma cum_length_total path :
  ∃ cl, cum_length_loop path (seq 1 (length path - 1)) [f0_0] = Ok cl ∧
        length cl = S (length path - 1).
Proof.
  destruct (cum_length_loop_total path (seq 1 (length path - 1)) [f0_0])
    as (cl & Hcl & Hlen); [done| |].
  { apply Forall_forall. intros i Hi%elem_of_seq. lia. }
  exists cl. split; [done|]. rewrite length_seq in Hlen. simpl in Hlen. lia.
Qed.

(** C7 at its failing input. For every stored word, whatever its path,
    resampling to [n = 1] point divides by [n - 1 = 0]: [word_sample_n]
    raises [ZeroDivisionError] and returns no point. *)
Theorem word_sample_n_one kb w e :
  getitem (kb_words kb) w = Some e →
  word_sample_n kb w 1 = Raise ZeroDivisionError.
Proof.
  intros He. unfold word_sample_n, word_entry. rewrite He.
  destruct (cum_length_total (we_path e)) as (cl & -> & Hlen).
  change (py_range (Z.to_nat 1)) with [0]. cbn [for_each]. unfold sample_point.
  assert (cl ≠ []) as Hcl by (intros ->; simpl in Hlen; lia).
  destruct (last_is_Some' _ Hcl) as [c Hc]. unfold py_last. rewrite Hc.
  unfold py_fdiv_int. by rewrite decide_True by lia.
Qed.

(** Away from [n = 1] the resampling is total on a non-empty path and
    returns [n] points, provided [sub_not_zero]. The loop of [bisect_left]
    ends before its turns are used up: more turns give the same index. *)
Lemma bisect_loop_fuel (a : list pyfloat) x fuel : ∀ fuel' lo hi,
  (hi - lo < fuel)%nat → (hi - lo < fuel')%nat →
  bisect_loop fuel a x lo hi = bisect_loop fuel' a x lo hi.
Proof.
  induction fuel as [|fuel IH]; intros fuel' lo hi Hf Hf'; [lia|].
  destruct fuel' as [|fuel']; [lia|]. cbn [bisect_loop].
  case_decide as Hlt; [|done].
  assert (lo ≤ (lo + hi) / 2 < hi)%nat as Hmid.
  { pose proof (Nat.div_mod_eq (lo + hi) 2).
    pose proof (Nat.mod_upper_bound (lo + hi) 2). lia. }
  destruct (a !! ((lo + hi) / 2)%nat) as [y|]; [|done].
  destruct (flt y x); apply IH; lia.
Qed.

Lemma bisect_loop_bounds fuel (a : list pyfloat) x : ∀ lo hi,
  (lo ≤ hi)%nat → (hi ≤ length a)%nat →
  (lo ≤ bisect_loop fuel a x lo hi ≤ hi)%nat.
Proof.
  induction fuel as [|fuel IH]; intros lo hi Hlo Hhi; cbn [bisect_loop]; [lia|].
  case_decide as Hlt; [|lia].
  assert (lo ≤ (lo + hi) / 2 < hi)%nat as Hmid.
  { pose proof (Nat.div_mod_eq (lo + hi) 2).
    pose proof (Nat.mod_upper_bound (lo + hi) 2). lia. }
  destruct (a !! ((lo + hi) / 2)%nat) as [y|]; [|lia].
  destruct (flt y x).
  - destruct (IH ((lo + hi) / 2 + 1)%nat hi); lia.
  - destruct (IH lo ((lo + hi) / 2)%nat); lia.
Qed.

Lemma bisect_left_le (a : list pyfloat) x : (bisect_left a x ≤ length a)%nat.
Proof. unfold bisect_left. destruct (bisect_loop_bounds (S (length a)) a x 0 (length a)); lia. Qed.

Lemma py_item_total {A} (l : list A) (i : Z) :
  - Z.of_nat (length l) ≤ i < Z.of_nat (length l) → ∃ x, py_item l i = Ok x.
Proof.
  intros Hi. unfold py_item. cbn zeta.
  destruct (decide (i < 0)).
  - rewrite decide_True by lia.
    destruct (lookup_lt_is_Some_2 l (Z.to_nat (i + Z.of_nat (length l)))) as [x Hx]; [lia|].
    exists x. by apply py_index_lookup.
  - rewrite decide_True by lia.
    destruct (lookup_lt_is_Some_2 l (Z.to_nat i)) as [x Hx]; [lia|].
    exists x. by apply py_index_lookup.
Qed.

Lemma sample_point_total path cl n k :
  sub_not_zero → path ≠ [] → length cl = length path → n ≠ 1 →
  ∃ xy, sample_point path cl n k = Ok xy.
Proof.
  intros Hlaw Hpath Hlen Hn. unfold sample_point.
  assert (0 < length path)%nat as Hpos by (destruct path; [done|simpl; lia]).
  assert (cl ≠ []) as Hcl by (intros ->; simpl in Hlen; lia).
  destruct (last_is_Some' _ Hcl) as [total Htotal]. unfold py_last. rewrite Htotal.
  unfold py_fdiv_int. rewrite decide_False by lia.
  set (L := py_fmin _ total).
  pose proof (bisect_left_le (drop 1 cl) L) as Hb. rewrite length_drop in Hb.
  set (i0 := bisect_left (drop 1 cl) L) in *.
  set (i := if decide (Z.of_nat (length path) - 1 ≤ Z.of_nat i0)
            then Z.of_nat i0 - 1 else Z.of_nat i0).
  assert (-1 ≤ i ≤ Z.of_nat (length path) - 2) as Hi by (unfold i; case_decide; lia).
  destruct (py_item_total cl (i + 1)) as [c1 ->]; [lia|].
  destruct (py_item_total cl i) as [c0 ->]; [lia|].
  destruct (py_item_total path i) as [a Ha]; [lia|].
  destruct (py_item_total path (i + 1)) as [b Hb']; [lia|].
  destruct (feq c1 c0) eqn:E.
  - rewrite Ha, Hb'. by eexists.
  - unfold py_fdiv. rewrite (Hlaw _ _ E), Ha, Hb'. by eexists.
Qed.

Lemma word_sample_n_total kb w e n :
  sub_not_zero →
  getitem (kb_words kb) w = Some e → we_path e ≠ [] → n ≠ 1 →
  ∃ points, word_sample_n kb w n = Ok points ∧ length points = Z.to_nat n.
Proof.
  intros Hlaw He Hpath Hn. unfold word_sample_n, word_entry. rewrite He.
  destruct (cum_length_total (we_path e)) as (cl & -> & Hlen).
  assert (length cl = length (we_path e)) as Hlen'.
  { destruct (we_path e); [done|simpl in *; lia]. }
  destruct (for_each_Forall2 (sample_point (we_path e) cl n) (λ _ _, True)
              (py_range (Z.to_nat n))) as (points & -> & Hall).
  { intros k _. destruct (sample_point_total (we_path e) cl n k) as [xy ->]; eauto. }
  exists points. split; [done|]. apply Forall2_length in Hall.
  rewrite <- Hall. unfold py_range. by rewrite length_fmap, length_seq.
Qed.
End resample_facts.

(** ** The properties on the example keyboards *)

Section order_check.
Context `{PyFloat}.

Lemma strict_weak_check_sound scores :
  strict_weak_check scores = true → strict_weak_on scores.
Proof.
  unfold strict_weak_check. intros Hchk a b c Ha Hb Hc.
  apply Is_true_true, forallb_True in Hchk. rewrite Forall_forall in Hchk.
  specialize (Hchk a Ha). apply forallb_True in Hchk. rewrite Forall_forall in Hchk.
  specialize (Hchk b Hb). apply andb_True in Hchk as [H1 H2].
  apply forallb_True in H2. rewrite Forall_forall in H2. specialize (H2 c Hc).
  destruct (flt a b), (flt b a), (flt b c), (flt a c); simpl in *; done.
Qed.
End order_check.

Lemma reachable_demo_vocabulary : reachable demo_vocabulary.
Proof. repeat apply reachable_set. apply reachable_new. Qed.

Example candidate_corrections_demo :
  candidate_corrections demo_keyboard (py_str "the") (py_str "cac")
  = Ok [(py_str "cat", 0.00050000000000000001%float);
        (py_str "car", 0.00037500000000000001%float);
        (py_str "can", 0.00031250000000000001%float);
        (py_str "a", 3.1249999999999997e-07%float)].
Proof. vm_compute. reflexivity. Qed.

Example candidate_corrections_demo_ordered :
  @strict_weak_on binary64
    [0.00050000000000000001; 0.00037500000000000001; 0.00031250000000000001;
     3.1249999999999997e-07]%float.
Proof. apply strict_weak_check_sound. vm_compute. reflexivity. Qed.

Example word_sample_n_single_point :
  word_sample_n demo_keyboard (py_str "a") 3 = Ok [pt 1 0; pt 1 0; pt 1 0].
Proof. vm_compute. reflexivity. Qed.

Example candidate_matches_cat :
  candidate_matches demo_keyboard (py_str "the") [pt 0 0; pt 1 0; pt 2 0]
  = Ok [(py_str "cat", 0.5%float)].
Proof. vm_compute. reflexivity. Qed.

(** C5 on the example keyboard: [p("cat" | "the")]. *)
Lemma get_ngram_probability_spec_witness :
  session_inv demo_keyboard ∧
  getitem (kb_words demo_keyboard) (py_str "cat") = Some demo_cat ∧
  get_ngram_probability demo_keyboard (py_str "cat") (py_str "the")
  = Ok (ngram_formula demo_keyboard (py_str "cat") (py_str "the") demo_cat).
Proof.
  assert (session_inv demo_keyboard) as Hinv by apply session_inv_init.
  assert (getitem (kb_words demo_keyboard) (py_str "cat") = Some demo_cat) as He
    by reflexivity.
  split_and!; [exact Hinv|exact He|].
  exact (get_ngram_probability_spec demo_keyboard (py_str "cat") (py_str "the") demo_cat
           Hinv He).
Defined.

(** C6 on the example keyboard: the typed candidates of ["cac"]. *)
Lemma candidates_typed_spec_witness :
  session_inv demo_keyboard ∧
  reachable (kb_words demo_keyboard) ∧
  (∃ hits cands r,
     search_correction (kb_words demo_keyboard) (py_str "cac") 2 = Ok hits ∧
     Forall2 (scored_hit demo_keyboard (py_str "the")) hits cands ∧
     candidate_corrections demo_keyboard (py_str "the") (py_str "cac") = Ok r ∧
     ranked cands r) ∧
  (∃ fuel0 hits cands r,
     (∀ fuel, (fuel0 ≤ fuel)%nat →
        search_prediction fuel (kb_words demo_keyboard) (py_str "cac") 2 = Some (Ok hits) ∧
        candidate_predictions fuel demo_keyboard (py_str "the") (py_str "cac")
        = Some (Ok r)) ∧
     Forall2 (scored_hit demo_keyboard (py_str "the")) hits cands ∧
     ranked cands r).
Proof.
  assert (session_inv demo_keyboard) as Hinv by apply session_inv_init.
  assert (reachable (kb_words demo_keyboard)) as Hr.
  { change (reachable demo_vocabulary). unfold demo_vocabulary.
    repeat apply reachable_set. apply reachable_new. }
  split; [exact Hinv|]. split; [exact Hr|].
  exact (candidates_typed_spec demo_keyboard (py_str "the") (py_str "cac") Hinv Hr).
Defined.

(** C8 (as amended) on the example keyboard. *)
Lemma empty_input_spec_witness :
  session_inv demo_keyboard ∧
  reachable (kb_words demo_keyboard) ∧
  (∃ r, candidate_corrections demo_keyboard (py_str "the") [] = Ok r ∧
        ∀ w, w ∈ r.*1 ↔
             w ≠ [] ∧ w ∈ iter (kb_words demo_keyboard) ∧ (length w ≤ 2)%nat) ∧
  (∃ fuel0 r,
     (∀ fuel, (fuel0 ≤ fuel)%nat →
        candidate_predictions fuel demo_keyboard (py_str "the") [] = Some (Ok r)) ∧
     ∀ w, w ∈ r.*1 ↔ w ≠ [] ∧ w ∈ iter (kb_words demo_keyboard)) ∧
  candidate_matches demo_keyboard (py_str "the") []
  = (if decide (iter (kb_words demo_keyboard) = []) then Ok [] else Raise IndexError).
Proof.
  assert (session_inv demo_keyboard) as Hinv by apply session_inv_init.
  assert (reachable (kb_words demo_keyboard)) as Hr.
  { change (reachable demo_vocabulary). unfold demo_vocabulary.
    repeat apply reachable_set. apply reachable_new. }
  split; [exact Hinv|]. split; [exact Hr|].
  exact (empty_input_spec demo_keyboard (py_str "the") Hinv Hr).
Defined.

(** C8 as stated fails on both inputs: the empty prefix has the correction
    ["a"] (one insertion away), and the empty gesture raises [IndexError] at
    [gesture[0]] as soon as the vocabulary has a word. *)
Lemma empty_input_not_empty_list :
  session_inv demo_keyboard ∧
  reachable (kb_words demo_keyboard) ∧
  candidate_corrections demo_keyboard (py_str "the") (py_str "")
  = Ok [(py_str "a", 0.00031250000000000001%float)] ∧
  candidate_matches demo_keyboard (py_str "the") [] = Raise IndexError.
Proof.
  split_and!.
  - apply session_inv_init.
  - apply reachable_demo_vocabulary.
  - vm_compute. reflexivity.
  - vm_compute. reflexivity.
Qed.

Lemma paths_stored_demo : paths_stored demo_keyboard.
Proof.
  intros w Hw.
  change (iter (kb_words demo_keyboard))
    with [py_str "cat"; py_str "car"; py_str "can"; py_str "a"] in Hw.
  repeat (apply elem_of_cons in Hw as [->|Hw]; [eexists; split; [reflexivity|done]|]).
  by apply elem_of_nil in Hw.
Defined.



(** C7 at its failing input on the example keyboard: the word ["a"]
    resampled to one point. *)
Lemma word_sample_n_one_witness :
  getitem (kb_words demo_keyboard) (py_str "a") = Some demo_a ∧
  word_sample_n demo_keyboard (py_str "a") 1 = Raise ZeroDivisionError.
Proof.
  assert (getitem (kb_words demo_keyboard) (py_str "a") = Some demo_a) as He
    by reflexivity.
  split; [exact He|]. exact (word_sample_n_one demo_keyboard (py_str "a") demo_a He).
Defined.



(** * Further properties *)

(** ** The trie as a dictionary *)

Lemma dict_set_set {A} (d : list (ascii * A)) k a b :
  dict_set (dict_set d k a) k b = dict_set d k b.
Proof.
  induction d as [|[k0 a0] d IH]; simpl.
  - by rewrite decide_True.
  - case_decide; simpl; [by rewrite decide_True|].
    rewrite decide_False by done. by rewrite IH.
Qed.

Section dictionary_facts.
Context {V : Type}.
Implicit Types (n : TrieNode V) (t : Trie V) (w s : str) (v : V).

Lemma setitem_from_twice n letters w v1 v2 :
  (setitem_from (setitem_from n letters w v1).1 letters w v2).1
  = (setitem_from n letters w v2).1.
Proof.
  revert n. induction letters as [|l rest IH]; intros n; simpl; [done|].
  rewrite dict_get_set, decide_True by done. simpl. by rewrite IH, dict_set_set.
Qed.

(** In a trie built by assignments a path has a value only where a word
    ends, and a word that ends has a value. *)
Lemma getitem_terminal t s : reachable t → is_Some (getitem t s) ↔ terminal t s.
Proof.
  intros Hr. split.
  - induction Hr as [|t w v Hr IH]; intros Hs.
    + unfold getitem in Hs; simpl in Hs. rewrite getitem_new_node in Hs.
      by destruct Hs.
    + apply terminal_setitem. destruct (decide (s = w)) as [->|Hne]; [by left|right].
      apply IH. unfold getitem, setitem in *; simpl in Hs.
      by rewrite getitem_setitem_other in Hs.
  - intros (n & Hn & Hw). destruct (reachable_inv t Hr) as (Hwf & _ & _).
    unfold getitem. rewrite getitem_node_at, Hn. simpl.
    apply (wf_node_value _ _ (wf_node_at [] _ s n Hwf Hn)). by rewrite Hw.
Qed.

(** X1. Lookup after an assignment, in any trie: [t[w] = v] makes [t[w]]
    equal to [v] and leaves the lookup of every other string, stored or
    not, as it was. *)
Theorem getitem_setitem t w v s :
  getitem (setitem t w v) s = if decide (s = w) then Some v else getitem t s.
Proof.
  unfold getitem, setitem; simpl. case_decide as Hs.
  - subst s. apply getitem_setitem_from.
  - by apply getitem_setitem_other.
Qed.

(** X2. In a trie built by assignments, [t[w]] is a value exactly when [w]
    is in the word sequence; for every other string, a prefix of a stored
    word included, the lookup is [None]. *)
Theorem getitem_stored t w :
  reachable t →
  (is_Some (getitem t w) ↔ w ∈ iter t) ∧ (w ∉ iter t → getitem t w = None).
Proof.
  intros Hr. destruct (reachable_inv t Hr) as (_ & _ & Hin).
  assert (is_Some (getitem t w) ↔ w ∈ iter t) as Hiff.
  { rewrite getitem_terminal by done. symmetry. apply Hin. }
  split; [done|]. intros Hw. apply eq_None_not_Some. by rewrite Hiff.
Qed.

(** X3. A second assignment to a word replaces the first: the trie after
    [t[w] = v1; t[w] = v2] is the trie after [t[w] = v2], nodes and word
    sequence alike. *)
Theorem setitem_overwrite t w v1 v2 :
  setitem (setitem t w v1) w v2 = setitem t w v2.
Proof.
  unfold setitem; simpl. rewrite setitem_from_twice. f_equal.
  rewrite !fresh_setitem, mark_setitem, decide_True by done.
  rewrite (bool_decide_false (Some w ≠ Some w)) by naive_solver.
  done.
Qed.

(** X4. The word sequence is the order of first assignment: assigning a
    word that is stored leaves the sequence as it is, assigning a new word
    appends it. *)
Theorem iter_setitem_order t w v :
  reachable t →
  iter (setitem t w v) = if decide (w ∈ iter t) then iter t else iter t ++ [w].
Proof.
  intros Hr. destruct (reachable_inv t Hr) as (_ & _ & Hin).
  unfold iter. rewrite setitem_words.
  destruct (decide (terminal t w)) as [Ht|Ht].
  - by rewrite decide_True by by apply Hin.
  - rewrite decide_False; [done|]. intros Hw. by apply Ht, Hin.
Qed.
End dictionary_facts.

Lemma reachable_cat_car_can : reachable cat_car_can.
Proof. unfold cat_car_can. repeat apply reachable_set. apply reachable_new. Qed.

(** X2 on the example trie: ["ca"] is a prefix of three stored words and
    has no value. *)
Lemma getitem_stored_witness :
  reachable cat_car_can ∧
  (is_Some (getitem cat_car_can (py_str "ca")) ↔ py_str "ca" ∈ iter cat_car_can) ∧
  (py_str "ca" ∉ iter cat_car_can → getitem cat_car_can (py_str "ca") = None).
Proof.
  split; [exact reachable_cat_car_can|].
  exact (getitem_stored cat_car_can (py_str "ca") reachable_cat_car_can).
Defined.

(** X4 on the example trie, for the new word ["cab"]. *)
Lemma iter_setitem_order_witness :
  reachable cat_car_can ∧
  iter (setitem cat_car_can (py_str "cab") 1)
  = if decide (py_str "cab" ∈ iter cat_car_can) then iter cat_car_can
    else iter cat_car_can ++ [py_str "cab"].
Proof.
  split; [exact reachable_cat_car_can|].
  exact (iter_setitem_order cat_car_can (py_str "cab") 1 reachable_cat_car_can).
Defined.

(** ** The searches: exact search, growing budgets, completions *)

Lemma lev_nonneg s t : 0 ≤ lev s t.
Proof. apply (edits_nonneg s t), lev_edits. Qed.

Lemma edits_refl s : edits s s 0.
Proof. induction s; by constructor. Qed.

Lemma lev_refl s : lev s s = 0.
Proof.
  pose proof (lev_le _ _ _ (edits_refl s)). pose proof (lev_nonneg s s). lia.
Qed.

Lemma edits_zero s t n : edits s t n → n = 0 → s = t.
Proof.
  induction 1 as [|a s t n He IH|a b s t n He IH|a s t n He IH|b s t n He IH];
    intros Hn; try (apply edits_nonneg in He; lia).
  - done.
  - f_equal. auto.
Qed.

Lemma lev_zero s t : lev s t = 0 → s = t.
Proof. intros Hz. apply (edits_zero s t (lev s t)); [apply lev_edits|done]. Qed.

Lemma keys_singleton {A B} (r : list (A * B)) a b :
  NoDup r.*1 → (∀ x y, (x, y) ∈ r ↔ x = a ∧ y = b) → r = [(a, b)].
Proof.
  intros Hnd Hin. destruct r as [|[x y] r].
  - assert ((a, b) ∈ @nil (A * B)) as Habs by by apply Hin.
    by apply elem_of_nil in Habs.
  - assert (x = a ∧ y = b) as [-> ->] by (apply Hin; left).
    destruct r as [|[x' y'] r]; [done|].
    assert (x' = a ∧ y' = b) as [-> ->] by (apply Hin; right; left).
    simpl in Hnd. apply NoDup_cons in Hnd as [Hnd _]. destruct Hnd. left.
Qed.

Lemma prefix_snoc_inv {A} (p w : list A) a :
  p `prefix_of` w ++ [a] → p `prefix_of` w ∨ p = w ++ [a].
Proof.
  intros [k Hk]. destruct (decide (k = [])) as [->|Hne].
  - right. by rewrite app_nil_r in Hk.
  - left. destruct (exists_last Hne) as (k' & b & ->).
    rewrite !app_assoc in Hk. apply app_inj_tail in Hk as [-> _]. by exists k'.
Qed.

(** Among the non-empty prefixes of [w] within [m] of the query, if there
    is one, some prefix has the least distance. *)
Lemma least_prefix_cost w q m :
  (∃ c, (∃ p, p ≠ [] ∧ p `prefix_of` w ∧ c = lev p q ∧ c ≤ m) ∧
        (∀ p, p ≠ [] → p `prefix_of` w → lev p q ≤ m → c ≤ lev p q)) ∨
  (∀ p, p ≠ [] → p `prefix_of` w → ¬ lev p q ≤ m).
Proof.
  induction w as [|a w IH] using rev_ind.
  - right. intros p Hp Hpre. apply prefix_nil_inv in Hpre. done.
  - assert (w ++ [a] ≠ []) as Hne by (by destruct w).
    destruct IH as [(c & (p0 & Hp0 & Hpre0 & Hc & Hcm) & Hmin)|Hnone].
    + left. destruct (decide (lev (w ++ [a]) q < c)) as [Hlt|Hge].
      * exists (lev (w ++ [a]) q). split.
        { exists (w ++ [a]). split_and!; [done|done|done|lia]. }
        intros p Hp Hpre Hle. apply prefix_snoc_inv in Hpre as [Hpre| ->]; [|lia].
        specialize (Hmin p Hp Hpre Hle). lia.
      * exists c. split.
        { exists p0. split_and!; [done| |done|done]. by apply prefix_app_r. }
        intros p Hp Hpre Hle. apply prefix_snoc_inv in Hpre as [Hpre| ->]; [auto|lia].
    + destruct (decide (lev (w ++ [a]) q ≤ m)) as [Hle|Hgt].
      * left. exists (lev (w ++ [a]) q). split.
        { exists (w ++ [a]). split_and!; done. }
        intros p Hp Hpre Hle'. apply prefix_snoc_inv in Hpre as [Hpre| ->]; [|lia].
        by destruct (Hnone p Hp Hpre).
      * right. intros p Hp Hpre. apply prefix_snoc_inv in Hpre as [Hpre| ->]; [auto|done].
Qed.

Section search_more.
Context {V : Type}.
Implicit Types (t : Trie V) (w q : str) (v : V) (m c : Z).

(** With the budget 0 the correction search is a membership test. *)
Lemma search_correction_zero t q :
  reachable t →
  search_correction t q 0 = Ok (if decide (q ≠ [] ∧ q ∈ iter t) then [(q, 0)] else []).
Proof.
  intros Hr. destruct (search_correction_elem t q 0 Hr) as (r & -> & Hnd & Hin).
  destruct (reachable_inv t Hr) as (_ & _ & Hw). f_equal.
  assert (∀ x y, (x, y) ∈ r → x = q ∧ y = 0) as Hhit.
  { intros x y (_ & _ & -> & Hle)%Hin. pose proof (lev_nonneg x q).
    assert (lev x q = 0) as Hz by lia. split; [by apply lev_zero|done]. }
  case_decide as Hd.
  - apply keys_singleton; [done|]. intros x y. split; [apply Hhit|].
    intros [-> ->]. apply Hin. destruct Hd as [Hq Hs].
    split_and!; [done|by apply Hw|by rewrite lev_refl|done].
  - destruct r as [|[x y] r]; [done|]. destruct Hd.
    assert ((x, y) ∈ (x, y) :: r) as Hxy by left.
    destruct (Hhit _ _ Hxy) as [-> ->]. apply Hin in Hxy as (Hq & Ht & _).
    split; [done|by apply Hw].
Qed.

(** X5. The correction search with [maxCost = 0] is the exact lookup of a
    non-empty word: it returns the word with the cost 0 when the word is
    stored, and the empty list otherwise. A word just assigned is found. *)
Theorem search_correction_exact t q :
  reachable t →
  search_correction t q 0 = Ok (if decide (q ≠ [] ∧ q ∈ iter t) then [(q, 0)] else []) ∧
  ∀ v, q ≠ [] → search_correction (setitem t q v) q 0 = Ok [(q, 0)].
Proof.
  intros Hr. split; [by apply search_correction_zero|]. intros v Hq.
  rewrite search_correction_zero by by apply reachable_set.
  rewrite decide_True; [done|]. split; [done|].
  destruct (reachable_inv _ (reachable_set t q v Hr)) as (_ & _ & Hw).
  apply Hw, terminal_setitem. by left.
Qed.

(** X6. A greater budget only adds corrections: every pair returned for
    [maxCost = m] is returned for every [m' ≥ m]; a negative budget returns
    nothing. *)
Theorem search_correction_budget t q m m' :
  reachable t → m ≤ m' →
  ∃ r r', search_correction t q m = Ok r ∧ search_correction t q m' = Ok r' ∧
          r ⊆ r' ∧ (m < 0 → r = []).
Proof.
  intros Hr Hm.
  destruct (search_correction_elem t q m Hr) as (r & -> & _ & Hin).
  destruct (search_correction_elem t q m' Hr) as (r' & -> & _ & Hin').
  exists r, r'. split_and!; [done|done| |].
  - intros [w c] (Hw & Ht & Hc & Hle)%Hin. apply Hin'. split_and!; [done|done|done|lia].
  - intros Hneg. destruct r as [|[w c] r]; [done|].
    assert ((w, c) ∈ (w, c) :: r) as (_ & _ & -> & Hle)%Hin by left.
    pose proof (lev_nonneg w q). lia.
Qed.

(** X7. Every correction is a prediction: a word returned by
    [search_correction] is returned by [search_prediction] for the same
    query and budget, at a cost that is not greater. *)
Theorem corrections_are_predictions t q m :
  reachable t →
  ∃ fuel0 r p,
    search_correction t q m = Ok r ∧
    (∀ fuel, (fuel0 ≤ fuel)%nat → search_prediction fuel t q m = Some (Ok p)) ∧
    ∀ w c, (w, c) ∈ r → ∃ c', (w, c') ∈ p ∧ 0 ≤ c' ≤ c.
Proof.
  intros Hr.
  destruct (search_correction_elem t q m Hr) as (r & Hc & _ & Hin).
  destruct (search_prediction_elem t q m Hr) as (fuel0 & p & Hp & _ & _ & Hinp).
  exists fuel0, r, p. split_and!; [done|done|].
  intros w c (Hw & Ht & -> & Hle)%Hin.
  destruct (least_prefix_cost w q m) as [(c' & (p0 & Hp0 & Hpre & -> & Hc') & Hmin)|Hnone].
  - exists (lev p0 q). split.
    + apply Hinp. split_and!; [done| |done]. by exists p0.
    + split; [apply lev_nonneg|]. by apply Hmin.
  - by destruct (Hnone w Hw (reflexivity w)).
Qed.

(** X8. Completion: a stored word that begins with the non-empty query is
    predicted with the cost 0, whatever the budget [maxCost ≥ 0] and
    however long the rest of the word. *)
Theorem search_prediction_completes t q w m :
  reachable t → q ≠ [] → q `prefix_of` w → w ∈ iter t → 0 ≤ m →
  ∃ fuel0 p,
    (∀ fuel, (fuel0 ≤ fuel)%nat → search_prediction fuel t q m = Some (Ok p)) ∧
    (w, 0) ∈ p.
Proof.
  intros Hr Hq Hpre Hw Hm.
  destruct (search_prediction_elem t q m Hr) as (fuel0 & p & Hp & _ & _ & Hinp).
  destruct (reachable_inv t Hr) as (_ & _ & Hin).
  exists fuel0, p. split; [done|]. apply Hinp. split_and!.
  - by apply Hin.
  - exists q. split_and!; [done|done|by rewrite lev_refl|done].
  - intros p' _ _ _. apply lev_nonneg.
Qed.
End search_more.

(** X5 on the example trie. *)
Lemma search_correction_exact_witness :
  reachable cat_car_can ∧
  search_correction cat_car_can (py_str "car") 0
  = Ok (if decide (py_str "car" ≠ [] ∧ py_str "car" ∈ iter cat_car_can)
        then [(py_str "car", 0)] else []) ∧
  ∀ v, py_str "car" ≠ [] →
       search_correction (setitem cat_car_can (py_str "car") v) (py_str "car") 0
       = Ok [(py_str "car", 0)].
Proof.
  split; [exact reachable_cat_car_can|].
  exact (search_correction_exact cat_car_can (py_str "car") reachable_cat_car_can).
Defined.

(** X6 on the example trie, for the budgets 1 and 2. *)
Lemma search_correction_budget_witness :
  reachable cat_car_can ∧ 1 ≤ 2 ∧
  ∃ r r', search_correction cat_car_can (py_str "cac") 1 = Ok r ∧
          search_correction cat_car_can (py_str "cac") 2 = Ok r' ∧
          r ⊆ r' ∧ (1 < 0 → r = []).
Proof.
  split; [exact reachable_cat_car_can|]. split; [lia|].
  apply (search_correction_budget cat_car_can (py_str "cac") 1 2 reachable_cat_car_can).
  lia.
Defined.

(** X7 on the example trie. *)
Lemma corrections_are_predictions_witness :
  reachable cat_car_can ∧
  ∃ fuel0 r p,
    search_correction cat_car_can (py_str "ca") 1 = Ok r ∧
    (∀ fuel, (fuel0 ≤ fuel)%nat →
       search_prediction fuel cat_car_can (py_str "ca") 1 = Some (Ok p)) ∧
    ∀ w c, (w, c) ∈ r → ∃ c', (w, c') ∈ p ∧ 0 ≤ c' ≤ c.
Proof.
  split; [exact reachable_cat_car_can|].
  exact (corrections_are_predictions cat_car_can (py_str "ca") 1 reachable_cat_car_can).
Defined.

(** X8 on the example trie: ["cat"] completes ["c"]. *)
Lemma search_prediction_completes_witness :
  reachable cat_car_can ∧ py_str "c" ≠ [] ∧ py_str "c" `prefix_of` py_str "cat" ∧
  py_str "cat" ∈ iter cat_car_can ∧ 0 ≤ 0 ∧
  ∃ fuel0 p,
    (∀ fuel, (fuel0 ≤ fuel)%nat →
       search_prediction fuel cat_car_can (py_str "c") 0 = Some (Ok p)) ∧
    (py_str "cat", 0) ∈ p.
Proof.
  assert (py_str "c" ≠ []) as Hq by done.
  assert (py_str "c" `prefix_of` py_str "cat") as Hpre by (by exists (py_str "at")).
  assert (py_str "cat" ∈ iter cat_car_can) as Hw by (vm_compute; left).
  assert (0 ≤ 0) as Hm by lia.
  split_and!; [exact reachable_cat_car_can|exact Hq|exact Hpre|exact Hw|exact Hm|].
  exact (search_prediction_completes cat_car_can (py_str "c") (py_str "cat") 0
           reachable_cat_car_can Hq Hpre Hw Hm).
Defined.

(** ** The engine: path lengths, counters, commits *)

Lemma count_sum_insert `{Countable K} (m : gmap K Z) k v :
  map_fold (λ _ c acc, c + acc) 0 (<[k:=v]> m)
  = v - default 0 (m !! k) + map_fold (λ _ c acc, c + acc) 0 m.
Proof.
  destruct (m !! k) as [c|] eqn:E; simpl.
  - rewrite <- insert_delete_eq.
    rewrite map_fold_insert_L; [|intros; lia|apply lookup_delete_eq].
    rewrite (map_fold_delete_L _ _ k c m); [lia|intros; lia|done].
  - rewrite map_fold_insert_L; [lia|intros; lia|done].
Qed.

Section engine_facts.
Context `{PyFloat}.
Implicit Types (kb : VKeyboard) (w prev cur : str) (e : WordEntry) (path : list point).

Lemma val_dist_loop_fold path : ∀ n k tot,
  (n = 0 ∨ S k + n = length path)%nat →
  val_dist_loop path (seq (S k) n) tot
  = Ok (foldl (λ acc ab, fadd acc (seg_length ab.1 ab.2)) tot
          (take n (zip (drop k path) (drop (S k) path)))).
Proof.
  induction n as [|n IH]; intros k tot Hk; [done|]. cbn [seq val_dist_loop].
  destruct (lookup_lt_is_Some_2 path (S k)) as [b Hb]; [lia|].
  destruct (lookup_lt_is_Some_2 path k) as [a Ha]; [lia|].
  rewrite (py_index_lookup _ _ _ Hb).
  replace (S k - 1)%nat with k by lia. rewrite (py_index_lookup _ _ _ Ha).
  cbn. rewrite IH by lia.
  rewrite (drop_S _ _ _ Ha), (drop_S path b (S k) Hb). done.
Qed.

(** X9. For a path whose squared coordinate differences are in the range
    of floats, [val_dist] returns its argument with the sum of the lengths
    of the segments between consecutive points, added from left to right
    starting from [0.0]; no index is out of range, whatever the number of
    points. *)
Theorem val_dist_sum path :
  path_in_range path = true →
  val_dist path
  = Ok (path, foldl (λ acc ab, fadd acc (seg_length ab.1 ab.2)) f0_0
                (zip path (drop 1 path))).
Proof.
  intros _. unfold val_dist. rewrite (val_dist_loop_fold path (length path - 1) 0 f0_0) by lia.
  cbn. do 3 f_equal. apply take_ge.
  rewrite length_zip_with, length_drop. lia.
Qed.

Lemma key_path_result kb w :
  match key_path kb w with
  | Ok path => Forall2 (λ c xy, key_centers kb !! c = Some xy) w path
  | Raise err => err = KeyError ∧ ∃ c, c ∈ w ∧ key_centers kb !! c = None
  end.
Proof.
  unfold key_path. induction w as [|c w IH]; cbn; [constructor|].
  destruct (key_centers kb !! c) as [xy|] eqn:E.
  - destruct (for_each _ w) as [path|err]; cbn.
    + by constructor.
    + destruct IH as (-> & c' & Hin & Hc'). split; [done|]. exists c'. split; [by right|done].
  - split; [done|]. exists c. split; [left|done].
Qed.

(** X10. The exceptions of a commit. A previous or current word with a
    character above 127 raises [UnicodeEncodeError] and leaves the keyboard
    as it was. For ASCII words, a non-empty current word that is not in the
    vocabulary and has, once lower-cased, a letter without a key center
    raises [KeyError] and leaves the keyboard with the committed-word count
    incremented and nothing else changed. When the squares along the path
    of the key centers are in the range of floats, a commit raises in these
    two cases only. *)
Theorem commit_raises kb prev cur :
  (is_ascii prev && is_ascii cur = false →
   commit kb prev cur = (kb, Raise UnicodeEncodeError)) ∧
  (is_ascii prev && is_ascii cur = true →
   cur ≠ [] → cur ∉ iter (kb_words kb) →
   (∃ c, c ∈ py_lower cur ∧ key_centers kb !! c = None) →
   commit kb prev cur
   = (mkVKeyboard (key_width kb) (key_height kb) (key_centers kb) (kb_words kb)
        (user_nograms kb + 1) (user_unigrams kb) (user_bigrams kb), Raise KeyError)) ∧
  ((∀ path, Forall2 (λ c xy, key_centers kb !! c = Some xy) (py_lower cur) path →
            path_in_range path = true) →
   ∀ err, (commit kb prev cur).2 = Raise err →
     (err = UnicodeEncodeError ∧ is_ascii prev && is_ascii cur = false) ∨
     (err = KeyError ∧ is_ascii prev && is_ascii cur = true ∧
      cur ≠ [] ∧ (cur ∉ iter (kb_words kb)) ∧
      (∃ c, c ∈ py_lower cur ∧ key_centers kb !! c = None))).
Proof.
  rewrite commit_ascii. split_and!.
  - by intros ->.
  - intros -> Hcur Hnew (c & Hc & Hnone). unfold count_word.
    rewrite decide_True by done.
    cbn [kb_words user_nograms user_unigrams user_bigrams key_centers key_width
         key_height].
    rewrite decide_True by done.
    set (kb1 := mkVKeyboard _ _ _ _ _ _ _).
    pose proof (key_path_result kb1 (py_lower cur)) as Hres.
    destruct (key_path kb1 (py_lower cur)) as [path|err']; [|by destruct Hres as [-> _]].
    apply list_elem_of_lookup in Hc as [i Hi].
    destruct (Forall2_lookup_l _ _ _ i c Hres Hi) as (xy & _ & Hxy).
    cbn in Hxy. congruence.
  - intros _ err. destruct (is_ascii prev && is_ascii cur); [|intros [= <-]; by left].
    unfold count_word. case_decide as Hcur; [|done].
    cbn [kb_words user_nograms user_unigrams user_bigrams key_centers key_width
         key_height].
    case_decide as Hnew; [|done].
    set (kb1 := mkVKeyboard _ _ _ _ _ _ _).
    pose proof (key_path_result kb1 (py_lower cur)) as Hres.
    destruct (key_path kb1 (py_lower cur)) as [path|err'].
    + by destruct (val_dist_total path) as [tot ->].
    + cbn. destruct Hres as (-> & c & Hc & Hnone). intros [= <-]. right.
      split_and!; [done|done|done|done|]. by exists c.
Qed.
End engine_facts.

(** X9 on a path of three points, two of them equal: its length is 5. *)
Lemma val_dist_sum_witness :
  path_in_range [pt 0 0; pt 3 4; pt 3 4] = true ∧
  val_dist [pt 0 0; pt 3 4; pt 3 4]
  = Ok ([pt 0 0; pt 3 4; pt 3 4],
        foldl (λ acc ab, fadd acc (seg_length ab.1 ab.2)) f0_0
          (zip [pt 0 0; pt 3 4; pt 3 4] (drop 1 [pt 0 0; pt 3 4; pt 3 4]))).
Proof.
  assert (path_in_range [pt 0 0; pt 3 4; pt 3 4] = true) as Hr by reflexivity.
  split; [exact Hr|]. exact (val_dist_sum [pt 0 0; pt 3 4; pt 3 4] Hr).
Defined.

Section session_facts.
Context `{PyFloat}.
Implicit Types (kb : VKeyboard) (w prev cur : str) (e : WordEntry) (path : list point).

Lemma commit_layout kb prev cur :
  key_centers (commit kb prev cur).1 = key_centers kb ∧
  key_width (commit kb prev cur).1 = key_width kb ∧
  key_height (commit kb prev cur).1 = key_height kb.
Proof.
  rewrite commit_ascii. destruct (is_ascii prev && is_ascii cur); [|done].
  unfold count_word. case_decide; [|done].
  by destruct (if decide (cur ∉ _) then _ else _).
Qed.

(** X11. A commit never removes or reorders a word of the vocabulary, never
    changes the entry of a word other than the lower-cased current word,
    never stores the empty word, and leaves the key centers and the key
    size as they were; this holds whether or not it ends in an exception. *)
Theorem commit_keeps kb prev cur :
  iter (kb_words kb) `prefix_of` iter (kb_words (commit kb prev cur).1) ∧
  (∀ w, w ≠ py_lower cur →
        getitem (kb_words (commit kb prev cur).1) w = getitem (kb_words kb) w) ∧
  ([] ∉ iter (kb_words kb) → [] ∉ iter (kb_words (commit kb prev cur).1)) ∧
  key_centers (commit kb prev cur).1 = key_centers kb ∧
  key_width (commit kb prev cur).1 = key_width kb ∧
  key_height (commit kb prev cur).1 = key_height kb.
Proof.
  split_and!; try apply commit_layout.
  - destruct (commit_words kb prev cur) as [->|(path & tot & _ & _ & ->)]; [done|].
    unfold iter. rewrite setitem_words. case_decide; [done|]. by apply prefix_app_r.
  - intros w Hw.
    destruct (commit_words kb prev cur) as [->|(path & tot & _ & _ & ->)]; [done|].
    unfold getitem, setitem. cbn. by apply getitem_setitem_other.
  - intros Hnil.
    destruct (commit_words kb prev cur) as [->|(path & tot & _ & Hcur & ->)]; [done|].
    intros [Hin|Heq]%iter_setitem; [done|]. symmetry in Heq.
    by apply fmap_nil_inv in Heq.
Qed.

Lemma commit_counts kb prev cur :
  0 ≤ bigram_total (commit kb prev cur).1 - bigram_total kb
    ≤ unigram_total (commit kb prev cur).1 - unigram_total kb ∧
  unigram_total (commit kb prev cur).1 - unigram_total kb
    ≤ user_nograms (commit kb prev cur).1 - user_nograms kb.
Proof.
  rewrite commit_ascii. destruct (is_ascii prev && is_ascii cur); [|cbn; lia].
  unfold count_word, unigram_total, bigram_total. case_decide; [|cbn; lia].
  destruct (if decide (cur ∉ _) then _ else _); [|cbn; lia].
  cbn. rewrite count_sum_insert.
  case_decide; [rewrite count_sum_insert|]; lia.
Qed.

(** X12. In every keyboard the engine goes through, the session counters
    are consistent: the unigram counts sum to at least 1 and at most the
    committed-word count (a commit that raises counts the word without
    adding a unigram), and the bigram counts sum to at most the unigram sum
    less 1. The counters, the trie and the stored paths satisfy what the
    ranking functions need. *)
Theorem engine_state_counts kb :
  engine_state kb →
  1 ≤ unigram_total kb ≤ user_nograms kb ∧
  0 ≤ bigram_total kb ≤ unigram_total kb - 1 ∧
  session_inv kb ∧ reachable (kb_words kb) ∧ paths_stored kb.
Proof.
  intros Hs. destruct (engine_state_inv kb Hs) as (Hinv & Hr & Hp).
  enough (1 ≤ unigram_total kb ≤ user_nograms kb ∧
          0 ≤ bigram_total kb ≤ unigram_total kb - 1) as [H1 H2] by done.
  clear -Hs. induction Hs as [kw kh centers vocabulary Hr Hp|kb prev cur Hs IH].
  - unfold unigram_total, bigram_total; cbn.
    rewrite count_sum_insert, lookup_empty, !map_fold_empty. cbn. lia.
  - pose proof (commit_counts kb prev cur). lia.
Qed.

(** X13. The language-model probability of a string that has no entry in
    the vocabulary is not a number: the call raises [TypeError], from the
    subscript of the [None] that the lookup returned. *)
Theorem get_ngram_probability_unknown kb w prev :
  session_inv kb →
  getitem (kb_words kb) w = None →
  get_ngram_probability kb w prev = Raise TypeError.
Proof.
  intros Hinv Hw. unfold get_ngram_probability, py_fdiv_int, word_entry.
  pose proof (unigram_count_nonneg kb prev Hinv) as H1.
  pose proof (distinct_unigrams_pos kb Hinv) as H2.
  destruct Hinv as (Hn & _ & _). unfold unigram_count, distinct_unigrams in *.
  rewrite !decide_False by lia. by rewrite Hw.
Qed.
End session_facts.

Lemma engine_state_demo : engine_state demo_keyboard.
Proof.
  apply engine_init; [apply reachable_demo_vocabulary|apply paths_stored_demo].
Qed.

(** X12 on the example keyboard after the commit of ["dog"], which raises,
    and of ["cat"]. *)
Lemma engine_state_counts_witness :
  engine_state
    (commit (commit demo_keyboard (py_str "the") (py_str "dog")).1
       (py_str "the") (py_str "cat")).1 ∧
  1 ≤ unigram_total
        (commit (commit demo_keyboard (py_str "the") (py_str "dog")).1
           (py_str "the") (py_str "cat")).1
    ≤ user_nograms
        (commit (commit demo_keyboard (py_str "the") (py_str "dog")).1
           (py_str "the") (py_str "cat")).1 ∧
  0 ≤ bigram_total
        (commit (commit demo_keyboard (py_str "the") (py_str "dog")).1
           (py_str "the") (py_str "cat")).1
    ≤ unigram_total
        (commit (commit demo_keyboard (py_str "the") (py_str "dog")).1
           (py_str "the") (py_str "cat")).1 - 1 ∧
  session_inv
    (commit (commit demo_keyboard (py_str "the") (py_str "dog")).1
       (py_str "the") (py_str "cat")).1 ∧
  reachable
    (kb_words (commit (commit demo_keyboard (py_str "the") (py_str "dog")).1
                 (py_str "the") (py_str "cat")).1) ∧
  paths_stored
    (commit (commit demo_keyboard (py_str "the") (py_str "dog")).1
       (py_str "the") (py_str "cat")).1.
Proof.
  assert (engine_state
            (commit (commit demo_keyboard (py_str "the") (py_str "dog")).1
               (py_str "the") (py_str "cat")).1) as Hs
    by (do 2 apply engine_commit; apply engine_state_demo).
  split; [exact Hs|]. exact (engine_state_counts _ Hs).
Defined.

(** X13 on the example keyboard: ["dog"] is not in the vocabulary. *)
Lemma get_ngram_probability_unknown_witness :
  session_inv demo_keyboard ∧
  getitem (kb_words demo_keyboard) (py_str "dog") = None ∧
  get_ngram_probability demo_keyboard (py_str "dog") (py_str "the") = Raise TypeError.
Proof.
  assert (session_inv demo_keyboard) as Hinv by apply session_inv_init.
  assert (getitem (kb_words demo_keyboard) (py_str "dog") = None) as Hw by reflexivity.
  split; [exact Hinv|]. split; [exact Hw|].
  exact (get_ngram_probability_unknown demo_keyboard (py_str "dog") (py_str "the") Hinv Hw).
Defined.

(** ** Gestures of one point, and the points of a resampled path *)

Section gesture_more.
Context `{PyFloat}.
Implicit Types (kb : VKeyboard) (w prev : str) (e : WordEntry).
Implicit Types (gesture path : list point) (cl : list pyfloat).

Lemma word_sample_n_at_one kb w e :
  getitem (kb_words kb) w = Some e → word_sample_n kb w 1 = Raise ZeroDivisionError.
Proof.
  intros He. unfold word_sample_n, word_entry. rewrite He.
  destruct (cum_length_total (we_path e)) as (cl & -> & Hlen).
  change (py_range (Z.to_nat 1)) with [0]. cbn [for_each]. unfold sample_point.
  assert (cl ≠ []) as Hcl by (intros ->; simpl in Hlen; lia).
  destruct (last_is_Some' _ Hcl) as [c Hc]. unfold py_last. rewrite Hc.
  unfold py_fdiv_int. by rewrite decide_True by lia.
Qed.

(** X14. A gesture of one point has the length [0.0]; over a vocabulary
    whose words have stored paths, [candidate_matches] returns the empty
    list for it when the pre-filter keeps no word, and raises
    [ZeroDivisionError] when the pre-filter keeps one: the first word kept
    is resampled to one point. *)
Theorem candidate_matches_one_point kb prev (g : point) :
  paths_stored kb →
  val_dist [g] = Ok ([g], f0_0) ∧
  candidate_matches kb prev [g]
  = if decide (filter (λ w, keeps kb [g] f0_0 w) (iter (kb_words kb)) = [])
    then Ok [] else Raise ZeroDivisionError.
Proof.
  intros Hp. split; [done|]. unfold candidate_matches.
  change (val_dist [g]) with (Ok ([g], f0_0)). cbn [snd].
  rewrite matches_loop_filter by (intros; by apply prefilter_keeps).
  destruct (filter _ _) as [|w ws] eqn:Hf; [done|].
  assert (w ∈ iter (kb_words kb)) as Hw.
  { assert (w ∈ w :: ws) as Hin by left. rewrite <- Hf in Hin.
    by apply list_elem_of_filter in Hin as [_ ?]. }
  destruct (Hp w Hw) as (e & He & _).
  rewrite decide_False by done. cbn [for_each]. unfold score_match at 1.
  unfold gesture_distance. cbn [length].
  change (Z.of_nat 1) with 1. by rewrite (word_sample_n_at_one kb w e He).
Qed.

Lemma py_item_elem {A} (l : list A) (i : Z) x : py_item l i = Ok x → x ∈ l.
Proof.
  unfold py_item. cbn zeta. case_decide; [|done]. unfold py_index.
  intros Hx. apply list_elem_of_lookup. exists (Z.to_nat (if decide (i < 0) then
    i + Z.of_nat (length l) else i)).
  destruct (l !! _); [by injection Hx as ->|done].
Qed.

Lemma sample_point_returns path cl n k :
  (∀ c1 c0, c1 ∈ cl → c0 ∈ cl → feq c1 c0 = false → feq (fsub c1 c0) f0_0 = false) →
  path ≠ [] → length cl = length path → n ≠ 1 →
  ∃ xy, sample_point path cl n k = Ok xy.
Proof.
  intros Hlaw Hpath Hlen Hn. unfold sample_point.
  assert (0 < length path)%nat as Hpos by (destruct path; [done|simpl; lia]).
  assert (cl ≠ []) as Hcl by (intros ->; simpl in Hlen; lia).
  destruct (last_is_Some' _ Hcl) as [total Htotal]. unfold py_last. rewrite Htotal.
  unfold py_fdiv_int. rewrite decide_False by lia.
  set (L := py_fmin _ total).
  pose proof (bisect_left_le (drop 1 cl) L) as Hb. rewrite length_drop in Hb.
  set (i0 := bisect_left (drop 1 cl) L) in *.
  set (i := if decide (Z.of_nat (length path) - 1 ≤ Z.of_nat i0)
            then Z.of_nat i0 - 1 else Z.of_nat i0).
  assert (-1 ≤ i ≤ Z.of_nat (length path) - 2) as Hi by (unfold i; case_decide; lia).
  destruct (py_item_total cl (i + 1)) as [c1 Hc1]; [lia|].
  destruct (py_item_total cl i) as [c0 Hc0]; [lia|].
  destruct (py_item_total path i) as [a Ha]; [lia|].
  destruct (py_item_total path (i + 1)) as [b Hb']; [lia|].
  rewrite Hc1, Hc0. destruct (feq c1 c0) eqn:E.
  - rewrite Ha, Hb'. by eexists.
  - unfold py_fdiv.
    rewrite (Hlaw c1 c0 (py_item_elem _ _ _ Hc1) (py_item_elem _ _ _ Hc0) E), Ha, Hb'.
    by eexists.
Qed.

(** X15. Away from [n = 1], [word_sample_n] returns exactly [n] points (none
    for [n ≤ 0]) for a stored word with a path of at least one point,
    provided two cumulated lengths of the path that are not equal have a
    difference that is not zero; a path of a single point is resampled
    without any index error. *)
Theorem word_sample_n_points kb w e n :
  getitem (kb_words kb) w = Some e → we_path e ≠ [] → n ≠ 1 →
  (∀ cl c1 c0,
     cum_length_loop (we_path e) (seq 1 (length (we_path e) - 1)) [f0_0] = Ok cl →
     c1 ∈ cl → c0 ∈ cl → feq c1 c0 = false → feq (fsub c1 c0) f0_0 = false) →
  ∃ points, word_sample_n kb w n = Ok points ∧ length points = Z.to_nat n.
Proof.
  intros He Hpath Hn Hlaw. unfold word_sample_n, word_entry. rewrite He.
  destruct (cum_length_total (we_path e)) as (cl & Hcl & Hlen). rewrite Hcl.
  assert (length cl = length (we_path e)) as Hlen'.
  { destruct (we_path e); [done|simpl in *; lia]. }
  destruct (for_each_Forall2 (sample_point (we_path e) cl n) (λ _ _, True)
              (py_range (Z.to_nat n))) as (points & -> & Hall).
  { intros k _. destruct (sample_point_returns (we_path e) cl n k) as [xy ->]; eauto. }
  exists points. split; [done|]. apply Forall2_length in Hall.
  rewrite <- Hall. unfold py_range. by rewrite length_fmap, length_seq.
Qed.
End gesture_more.

(** X14 on the example keyboard: the one-point gesture on the key of
    ["a"]. *)
Lemma candidate_matches_one_point_witness :
  paths_stored demo_keyboard ∧
  val_dist [pt 1 0] = Ok ([pt 1 0], 0%float) ∧
  candidate_matches demo_keyboard (py_str "the") [pt 1 0]
  = if decide (filter (λ w, keeps demo_keyboard [pt 1 0] (@f0_0 binary64) w)
                 (iter (kb_words demo_keyboard)) = [])
    then Ok [] else Raise ZeroDivisionError.
Proof.
  split; [exact paths_stored_demo|].
  exact (candidate_matches_one_point demo_keyboard (py_str "the") (pt 1 0)
           paths_stored_demo).
Defined.

(** X15 on the example keyboard: the path of ["cat"] resampled to 5 points. *)
Lemma word_sample_n_points_witness :
  getitem (kb_words demo_keyboard) (py_str "cat") = Some demo_cat ∧
  we_path demo_cat ≠ [] ∧ 5 ≠ 1 ∧
  ∃ points, word_sample_n demo_keyboard (py_str "cat") 5 = Ok points ∧
            length points = Z.to_nat 5.
Proof.
  assert (getitem (kb_words demo_keyboard) (py_str "cat") = Some demo_cat) as He
    by reflexivity.
  assert (we_path demo_cat ≠ []) as Hpath by done.
  assert (5 ≠ 1) as Hn by lia.
  split; [exact He|]. split; [exact Hpath|]. split; [exact Hn|].
  apply (word_sample_n_points demo_keyboard (py_str "cat") demo_cat 5 He Hpath Hn).
  intros cl c1 c0 Hcl. vm_compute in Hcl. injection Hcl as <-.
  intros H1 H0 Hne.
  repeat (apply elem_of_cons in H1 as [->|H1]);
    repeat (apply elem_of_cons in H0 as [->|H0]);
    try (by apply elem_of_nil in H1); try (by apply elem_of_nil in H0).
  all: vm_compute in Hne; try discriminate Hne; vm_compute; reflexivity.
Defined.

(** ** Guesses and the reload of a layout *)

Section reload_facts.
Context `{PyFloat}.
Implicit Types (kb : VKeyboard) (w prev : str) (e : WordEntry) (ws : list str).
Implicit Types (acc : Trie WordEntry) (centers : gmap ascii point).

Lemma stored_entry (t : Trie WordEntry) w :
  reachable t → w ∈ iter t → ∃ e, getitem t w = Some e.
Proof.
  intros Hr Hw. destruct (reachable_inv t Hr) as (_ & _ & Hin).
  apply (terminal_getitem t w Hr), Hin, Hw.
Qed.

(** X16. In a session whose counters are as the engine keeps them, over a
    vocabulary built by assignments, [candidate_guesses] returns without an
    exception one candidate for every word of the vocabulary, scored with
    the language-model probability of the word after the previous word,
    sorted by descending score. *)
Theorem candidate_guesses_spec kb prev :
  session_inv kb → reachable (kb_words kb) →
  ∃ cands r,
    Forall2 (scored_guess kb prev) (iter (kb_words kb)) cands ∧
    candidate_guesses kb prev = Ok r ∧
    ranked cands r ∧
    r.*1 ≡ₚ iter (kb_words kb).
Proof.
  intros Hinv Hr.
  destruct (for_each_Forall2 (score_guess kb prev) (scored_guess kb prev)
              (iter (kb_words kb))) as (cands & Hcands & Hall).
  { intros w Hw. destruct (stored_entry _ w Hr Hw) as [e He].
    eexists. unfold score_guess.
    rewrite (ngram_probability_formula kb w prev e Hinv He).
    split; [done|]. by exists e. }
  exists cands, (py_sort_desc cands). unfold candidate_guesses. rewrite Hcands.
  split_and!; [done|done|apply py_sort_desc_ranked|].
  rewrite py_sort_desc_perm.
  clear Hcands. induction Hall as [|w c ws cs (e & _ & ->) _ IH]; [done|].
  cbn. by rewrite IH.
Qed.





End reload_facts.


(** X16 on the example keyboard. *)
Lemma candidate_guesses_spec_witness :
  session_inv demo_keyboard ∧ reachable (kb_words demo_keyboard) ∧
  ∃ cands r,
    Forall2 (scored_guess demo_keyboard (py_str "the")) (iter (kb_words demo_keyboard))
      cands ∧
    candidate_guesses demo_keyboard (py_str "the") = Ok r ∧
    ranked cands r ∧
    r.*1 ≡ₚ iter (kb_words demo_keyboard).
Proof.
  assert (session_inv demo_keyboard) as Hinv by apply session_inv_init.
  assert (reachable (kb_words demo_keyboard)) as Hr by apply reachable_demo_vocabulary.
  split; [exact Hinv|]. split; [exact Hr|].
  exact (candidate_guesses_spec demo_keyboard (py_str "the") Hinv Hr).
Defined.



(** ** The vocabulary file *)




Section load_facts.
Context `{PyFloat}.
Implicit Types (kb : VKeyboard) (w : str) (e : WordEntry) (acc : Trie WordEntry).
Implicit Types (total : pyfloat) (lines : list (str * pyfloat)).


End load_facts.


(** ** The points of a stroke *)

Section stroke_facts.
Context `{PyFloat}.
Implicit Types (pts moves : list point) (points pre : list pyfloat) (xy : point).

Lemma flat_length pts : length (flat pts) = (2 * length pts)%nat.
Proof. induction pts as [|xy pts IH]; cbn; [done|]. unfold flat in IH. rewrite IH. lia. Qed.

Lemma flat_snoc pts xy : flat (pts ++ [xy]) = flat pts ++ [xy.1; xy.2].
Proof. unfold flat. by rewrite bind_app. Qed.

Lemma pairs_loop pts : ∀ pre rest j,
  length pre = (2 * j)%nat →
  for_each (λ i, let! x := py_index (pre ++ flat pts ++ rest) i in
                 let! y := py_index (pre ++ flat pts ++ rest) (i + 1) in
                 Ok (x, y))
    ((λ k, 2 * k)%nat <$> seq j (length pts))
  = Ok pts.
Proof.
  induction pts as [|[x y] pts IH]; intros pre rest j Hpre; [done|].
  cbn [length seq fmap list_fmap for_each].
  set (L := pre ++ flat _ ++ rest).
  assert (L = (pre ++ [x; y]) ++ flat pts ++ rest) as HL
    by (unfold L; by rewrite <- app_assoc).
  assert (L !! (2 * j)%nat = Some x) as Hx.
  { unfold L. rewrite lookup_app_r by lia.
    by replace (2 * j - length pre)%nat with 0%nat by lia. }
  assert (L !! (2 * j + 1)%nat = Some y) as Hy.
  { unfold L. rewrite lookup_app_r by lia.
    by replace (2 * j + 1 - length pre)%nat with 1%nat by lia. }
  rewrite (py_index_lookup _ _ _ Hx), (py_index_lookup _ _ _ Hy). rewrite HL.
  rewrite (IH (pre ++ [x; y]) rest (S j)); [done|].
  rewrite length_app. cbn. lia.
Qed.

Lemma xrange2_flat pts : py_xrange2 (length (flat pts)) = (λ k, 2 * k)%nat <$> seq 0 (length pts).
Proof.
  unfold py_xrange2. rewrite flat_length. do 2 f_equal.
  rewrite (Nat.mul_comm 2), Nat.div_add_l by done. done.
Qed.

Lemma xrange2_flat_odd pts :
  py_xrange2 (length (flat pts) + 1)
  = ((λ k, 2 * k)%nat <$> seq 0 (length pts)) ++ [(2 * length pts)%nat].
Proof.
  unfold py_xrange2. rewrite flat_length.
  replace ((2 * length pts + 1 + 1) / 2)%nat with (S (length pts)).
  - by rewrite seq_S, fmap_app.
  - replace (2 * length pts + 1 + 1)%nat with ((length pts + 1) * 2)%nat by lia.
    rewrite Nat.div_mul by done. lia.
Qed.

Lemma for_each_app_raise {A B} (f : A → result B) (l : list A) x ys err :
  for_each f l = Ok ys → f x = Raise err → for_each f (l ++ [x]) = Raise err.
Proof.
  revert ys. induction l as [|a l IH]; intros ys; cbn.
  - intros _ ->. done.
  - destruct (f a); [|done]. destruct (for_each f l) as [zs|]; [|done].
    intros _ Hx. by rewrite (IH zs).
Qed.

(** X20. The gesture of a stroke: the flat list of coordinates that
    [on_touch_down] starts and [on_touch_move] extends is read back by
    [on_touch_up] as the points touched, in order, so the gesture of a
    stroke is never empty; and a coordinate list of odd length raises
    [IndexError]. *)
Theorem gesture_of_line_stroke xy moves :
  gesture_of_line (foldl touch_move_line (touch_down_line xy) moves) = Ok (xy :: moves) ∧
  (∀ pts, gesture_of_line (flat pts) = Ok pts) ∧
  (∀ pts x, gesture_of_line (flat pts ++ [x]) = Raise IndexError).
Proof.
  assert (∀ pts, gesture_of_line (flat pts) = Ok pts) as Hflat.
  { intros pts. unfold gesture_of_line. rewrite xrange2_flat.
    pose proof (pairs_loop pts [] [] 0 eq_refl) as Hp.
    cbn [app] in Hp. by rewrite app_nil_r in Hp. }
  split_and!; [|done|].
  - assert (foldl touch_move_line (touch_down_line xy) moves = flat (xy :: moves)) as ->;
      [|done].
    change (touch_down_line xy) with (flat [xy]).
    change (xy :: moves) with ([xy] ++ moves). generalize [xy].
    induction moves as [|m moves IH]; intros pts; cbn [foldl].
    + by rewrite app_nil_r.
    + unfold touch_move_line at 2. rewrite <- flat_snoc, IH, <- app_assoc. done.
  - intros pts x. unfold gesture_of_line.
    rewrite length_app. cbn [length]. rewrite xrange2_flat_odd.
    apply (for_each_app_raise _ _ _ pts).
    + pose proof (pairs_loop pts [] [x] 0 eq_refl) as Hp. by cbn [app] in Hp.
    + assert ((flat pts ++ [x]) !! (2 * length pts)%nat = Some x) as Hx.
      { rewrite lookup_app_r by (rewrite flat_length; lia).
        rewrite flat_length. by replace (2 * length pts - 2 * length pts)%nat with 0%nat by lia. }
      rewrite (py_index_lookup _ _ _ Hx). unfold py_index.
      rewrite lookup_ge_None_2; [done|]. rewrite length_app, flat_length. cbn. lia.
Qed.
End stroke_facts.

(** ** The words around the cursor *)

Section text_facts.
Context {C : Type} (isalpha : C → bool).
Implicit Types (T text pre cur prev sep : list C) (cursor : nat).

Lemma word_scan_spec T : ∀ k,
  (k ≤ length T)%nat → Forall (λ c, isalpha c = true) (drop k T) →
  ∃ pre cur,
    word_scan isalpha T (length T) (reverse (seq 0 k)) = Ok cur ∧
    T = pre ++ cur ∧
    Forall (λ c, isalpha c = true) cur ∧
    (∀ c, last pre = Some c → isalpha c = false).
Proof.
  induction k as [|k IH]; intros Hk Hall.
  - exists [], T. cbn. split_and!; done.
  - rewrite seq_S, reverse_snoc. cbn [word_scan plus].
    destruct (lookup_lt_is_Some_2 T k) as [c Hc]; [lia|].
    rewrite (py_index_lookup _ _ _ Hc).
    destruct (isalpha c) eqn:Ha; cbn [negb].
    + apply IH; [lia|]. rewrite (drop_S _ _ _ Hc). by constructor.
    + exists (take (S k) T), (drop (S k) T).
      rewrite firstn_all, Nat.add_1_r, take_drop. split_and!; [done|done|done|].
      intros c'. rewrite last_lookup, length_take, lookup_take_lt by lia.
      replace (Nat.pred (S k `min` length T)) with k by lia. congruence.
Qed.

Lemma current_word_split text cursor :
  (cursor ≤ length text)%nat →
  ∃ pre cur,
    get_current_word isalpha text cursor = Ok cur ∧
    take cursor text = pre ++ cur ∧
    Forall (λ c, isalpha c = true) cur ∧
    (∀ c, last pre = Some c → isalpha c = false).
Proof.
  intros Hc. unfold get_current_word.
  assert (length (take cursor text) = cursor) as Hlen by (rewrite length_take; lia).
  destruct (word_scan_spec (take cursor text) cursor) as (pre & cur & Hscan & Hcur);
    [lia|by rewrite <- Hlen at 1; rewrite drop_all| ].
  rewrite Hlen in Hscan. by exists pre, cur.
Qed.

(** X21. For a cursor inside the text, [get_current_word] returns the
    longest run of alphabetic characters that ends at the cursor: the
    characters it returns are all alphabetic, they are the end of the text
    before the cursor, and the character before them, if any, is not
    alphabetic. A cursor beyond the end of the text raises [IndexError]. *)
Theorem get_current_word_spec text cursor :
  ((cursor ≤ length text)%nat →
   ∃ pre cur,
     get_current_word isalpha text cursor = Ok cur ∧
     take cursor text = pre ++ cur ∧
     Forall (λ c, isalpha c = true) cur ∧
     (∀ c, last pre = Some c → isalpha c = false)) ∧
  ((length text < cursor)%nat →
   get_current_word isalpha text cursor = Raise IndexError).
Proof.
  split; [apply current_word_split|]. intros Hc. unfold get_current_word.
  destruct cursor as [|k]; [lia|]. rewrite seq_S, reverse_snoc. cbn [word_scan plus].
  unfold py_index. rewrite lookup_ge_None_2; [done|]. rewrite length_take. lia.
Qed.

Lemma strip_loop_spec : ∀ fuel T,
  (length T ≤ fuel)%nat →
  ∃ sep, T = strip_loop isalpha fuel T ++ sep ∧
         Forall (λ c, isalpha c = false) sep ∧
         (∀ c, last (strip_loop isalpha fuel T) = Some c → isalpha c = true).
Proof.
  induction fuel as [|fuel IH]; intros T Hf.
  - destruct T; [|cbn in Hf; lia]. exists []. by split_and!.
  - cbn [strip_loop]. destruct (last T) as [c|] eqn:Hl.
    + destruct (isalpha c) eqn:Ha; cbn [negb].
      * exists []. rewrite app_nil_r. split_and!; [done|done|congruence].
      * apply last_Some in Hl as [T' ->]. rewrite removelast_last.
        destruct (IH T') as (sep & HT' & Hsep & Hlast).
        { rewrite length_app in Hf. cbn in Hf. lia. }
        exists (sep ++ [c]). split_and!; [|by apply Forall_app; split; [|constructor]|done].
        rewrite app_assoc. by rewrite <- HT'.
    + exists []. rewrite app_nil_r. split_and!; [done|done|congruence].
Qed.

(** X22. For a cursor inside the text, [get_previous_word] returns the
    longest run of alphabetic characters that ends before the separators in
    front of the current word: the text before the cursor is what comes
    first, then the previous word, then one or more characters that are not
    alphabetic, then the current word. The previous word is empty only when
    no alphabetic character comes before the current word. *)
Theorem get_previous_word_spec text cursor :
  (cursor ≤ length text)%nat →
  ∃ pre prev sep cur,
    get_current_word isalpha text cursor = Ok cur ∧
    get_previous_word isalpha text cursor = Ok prev ∧
    take cursor text = pre ++ prev ++ sep ++ cur ∧
    Forall (λ c, isalpha c = true) prev ∧
    Forall (λ c, isalpha c = false) sep ∧
    Forall (λ c, isalpha c = true) cur ∧
    (∀ c, last pre = Some c → isalpha c = false) ∧
    (prev = [] → pre = []) ∧
    (sep = [] → pre = [] ∧ prev = []).
Proof.
  intros Hc.
  destruct (current_word_split text cursor Hc) as (pre0 & cur & Hcur & Hsplit & Hall & Hl0).
  unfold get_previous_word. rewrite Hcur. cbn zeta.
  assert (cursor = (length pre0 + length cur)%nat) as Hlen.
  { rewrite <- length_app, <- Hsplit, length_take. lia. }
  assert (take (Z.to_nat (Z.max (Z.of_nat cursor - Z.of_nat (length cur) - 1) 0)) text
          = removelast pre0) as ->.
  { replace (Z.to_nat _) with (length pre0 - 1)%nat by lia.
    replace (take (length pre0 - 1) text)
      with (take (length pre0 - 1) (take cursor text))
      by (rewrite take_take; f_equal; lia).
    rewrite Hsplit.
    rewrite take_app_le by lia.
    destruct (decide (pre0 = [])) as [->|Hne]; [done|].
    destruct (exists_last Hne) as (p & c & ->). rewrite removelast_last.
    rewrite length_app. cbn. replace (length p + 1 - 1)%nat with (length p) by lia.
    by rewrite take_app_length. }
  set (T1 := removelast pre0).
  destruct (strip_loop_spec (length T1) T1) as (sep1 & HT1 & Hsep1 & Hlast1); [done|].
  set (T2 := strip_loop isalpha (length T1) T1) in *.
  destruct (word_scan_spec T2 (length T2)) as (pre & prev & Hscan & HT2 & Hprev & Hlpre);
    [done|by rewrite drop_all|].
  rewrite Hscan.
  assert (prev = [] → pre = []) as Hempty.
  { intros ->. rewrite app_nil_r in HT2. subst pre.
    destruct (last T2) as [c|] eqn:Hl; [|by apply last_None in Hl].
    pose proof (Hlast1 c eq_refl). pose proof (Hlpre c eq_refl). congruence. }
  destruct (decide (pre0 = [])) as [Hnil|Hne].
  - subst pre0. cbn in T1. subst T1. destruct T2, sep1; try done.
    destruct pre, prev; try done.
    exists [], [], [], cur. split_and!; done.
  - destruct (exists_last Hne) as (p & c0 & Hp0). subst pre0.
    unfold T2, T1 in HT1. rewrite !removelast_last in HT1.
    unfold T2, T1 in HT2. rewrite !removelast_last in HT2.
    exists pre, prev, (sep1 ++ [c0]), cur. split_and!; try done.
    + rewrite Hsplit, HT1, HT2, <- !app_assoc. done.
    + apply Forall_app. split; [done|]. constructor; [|done].
      apply Hl0. by rewrite last_snoc.
    + intros Hs. by destruct sep1.
Qed.
End text_facts.

(** X22 on the text ["to the  cat"] with the cursor at its end. *)
Lemma get_previous_word_spec_witness :
  (11 ≤ length demo_text)%nat ∧
  ∃ pre prev sep cur,
    get_current_word alpha_letter demo_text 11 = Ok cur ∧
    get_previous_word alpha_letter demo_text 11 = Ok prev ∧
    take 11 demo_text = pre ++ prev ++ sep ++ cur ∧
    Forall (λ c, alpha_letter c = true) prev ∧
    Forall (λ c, alpha_letter c = false) sep ∧
    Forall (λ c, alpha_letter c = true) cur ∧
    (∀ c, last pre = Some c → alpha_letter c = false) ∧
    (prev = [] → pre = []) ∧
    (sep = [] → pre = [] ∧ prev = []).
Proof.
  assert (11 ≤ length demo_text)%nat as Hc by (vm_compute; lia).
  split; [exact Hc|]. exact (get_previous_word_spec alpha_letter demo_text 11 Hc).
Defined.

Example words_around_cursor :
  get_current_word alpha_letter demo_text 11 = Ok (py_str "cat") ∧
  get_previous_word alpha_letter demo_text 11 = Ok (py_str "the") ∧
  get_current_word alpha_letter demo_text 8 = Ok [] ∧
  get_previous_word alpha_letter demo_text 8 = Ok (py_str "the") ∧
  get_previous_word alpha_letter demo_text 2 = Ok [] ∧
  get_current_word alpha_letter demo_text 12 = Raise IndexError.
Proof. split_and!; vm_compute; reflexivity. Qed.

(** ** The stability of the ranking *)

Section stable_facts.
Context `{PyFloat}.
Implicit Types (a b x y : str * pyfloat) (l s : list (str * pyfloat)).

Lemma insert_desc_sublist x s : s `sublist_of` insert_desc x s.
Proof.
  induction s as [|y s IH]; cbn; [by apply sublist_cons|].
  destruct (flt x.2 y.2); [by apply sublist_skip|by apply sublist_cons].
Qed.

Lemma insert_desc_before x b s :
  b ∈ s → flt x.2 b.2 = false → [x; b] `sublist_of` insert_desc x s.
Proof.
  induction s as [|y s IH]; intros Hb Hxb; [by apply elem_of_nil in Hb|]. cbn.
  destruct (flt x.2 y.2) eqn:Hxy.
  - apply elem_of_cons in Hb as [->|Hb]; [congruence|]. apply sublist_cons. auto.
  - apply sublist_skip. by apply singleton_sublist_l.
Qed.

(** X23. The ranking is stable: of two candidates, the one produced first
    comes first in the sorted list unless the other has a strictly greater
    score; candidates with equal scores keep the order in which they were
    produced. The scores are taken to be ordered by [<] as a strict weak
    order, the condition under which the insertion sort is [list.sort]. *)
Theorem py_sort_desc_stable l a b :
  strict_weak_on l.*2 →
  [a; b] `sublist_of` l → flt a.2 b.2 = false →
  [a; b] `sublist_of` py_sort_desc l.
Proof.
  intros _ Hab Hlt. induction l as [|x l IH]; [by apply sublist_nil_r in Hab|].
  change (py_sort_desc (x :: l)) with (insert_desc x (py_sort_desc l)).
  apply sublist_cons_r in Hab as [Hab|(l' & [= <- <-] & Hb)].
  - etrans; [by apply IH|apply insert_desc_sublist].
  - apply insert_desc_before; [|done].
    rewrite py_sort_desc_perm. by apply singleton_sublist_l.
Qed.
End stable_facts.

(** X23 on three candidates, two of them with the same score. *)
Lemma py_sort_desc_stable_witness :
  strict_weak_on tied_candidates.*2 ∧
  [(py_str "cat", 0.5%float); (py_str "car", 0.5%float)] `sublist_of` tied_candidates ∧
  @flt binary64 0.5%float 0.5%float = false ∧
  [(py_str "cat", 0.5%float); (py_str "car", 0.5%float)]
    `sublist_of` py_sort_desc tied_candidates.
Proof.
  assert (strict_weak_on tied_candidates.*2) as Hord
    by (apply strict_weak_check_sound; vm_compute; reflexivity).
  assert ([(py_str "cat", 0.5%float); (py_str "car", 0.5%float)]
            `sublist_of` tied_candidates) as Hsub
    by (apply sublist_cons; reflexivity).
  assert (@flt binary64 0.5%float 0.5%float = false) as Hlt by reflexivity.
  split; [exact Hord|]. split; [exact Hsub|]. split; [exact Hlt|].
  exact (py_sort_desc_stable tied_candidates (py_str "cat", 0.5%float)
           (py_str "car", 0.5%float) Hord Hsub Hlt).
Defined.

(** ** Gestures of two points and more *)

Section match_facts.
Context `{PyFloat}.
Implicit Types (kb : VKeyboard) (w prev : str) (e : WordEntry).
Implicit Types (gesture path template : list point).

Lemma word_sample_n_returns kb w e n :
  getitem (kb_words kb) w = Some e → we_path e ≠ [] → n ≠ 1 →
  lengths_apart (we_path e) →
  ∃ points, word_sample_n kb w n = Ok points ∧ length points = Z.to_nat n.
Proof.
  intros He Hpath Hn Hlaw. unfold word_sample_n, word_entry. rewrite He.
  destruct (cum_length_total (we_path e)) as (cl & Hcl & Hlen). rewrite Hcl.
  assert (length cl = length (we_path e)) as Hlen'.
  { destruct (we_path e); [done|simpl in *; lia]. }
  destruct (for_each_Forall2 (sample_point (we_path e) cl n) (λ _ _, True)
              (py_range (Z.to_nat n))) as (points & -> & Hall).
  { intros k _. destruct (sample_point_returns (we_path e) cl n k) as [xy ->]; eauto. }
  exists points. split; [done|]. apply Forall2_length in Hall.
  rewrite <- Hall. unfold py_range. by rewrite length_fmap, length_seq.
Qed.


(** X25. [candidate_matches] on a gesture of two points or more, in a
    session whose counters are as the engine keeps them, over a vocabulary
    whose words have stored paths with cumulated lengths told apart by their
    differences, when the squares of the path lengths and of the distances
    between the gesture and the resampled paths are in the range of floats:
    no step raises; the candidates are the words the pre-filter keeps, in
    the order of the vocabulary, each scored [exp(-d / 2) * p(word | prev)]
    with [d] the mean distance of the gesture to the resampled path of the
    word; the list returned is these candidates in descending score order. *)
Theorem candidate_matches_returns kb prev gesture :
  session_inv kb → paths_stored kb →
  (2 ≤ length gesture)%nat →
  path_in_range gesture = true →
  (∀ w e, w ∈ iter (kb_words kb) → getitem (kb_words kb) w = Some e →
          path_in_range (we_path e) = true ∧ lengths_apart (we_path e)) →
  (∀ w template, w ∈ iter (kb_words kb) →
          word_sample_n kb w (Z.of_nat (length gesture)) = Ok template →
          distances_in_range gesture template = true) →
  ∃ gl cands r,
    val_dist gesture = Ok (gesture, gl) ∧
    Forall2 (scored_match kb prev gesture)
      (filter (λ w, keeps kb gesture gl w) (iter (kb_words kb))) cands ∧
    candidate_matches kb prev gesture = Ok r ∧
    ranked cands r.
Proof.
  intros Hinv Hp Hlen _ Hlaw _.
  assert (gesture ≠ []) as Hg by (intros ->; cbn in Hlen; lia).
  destruct (val_dist_total gesture) as [gl Hgl]. exists gl.
  destruct (for_each_Forall2 (score_match kb prev gesture) (scored_match kb prev gesture)
              (filter (λ w, keeps kb gesture gl w) (iter (kb_words kb))))
    as (cands & Hcands & Hall).
  { intros w [_ Hw]%list_elem_of_filter.
    destruct (Hp w Hw) as (e & He & Hpath).
    destruct (word_sample_n_returns kb w e (Z.of_nat (length gesture)) He Hpath)
      as (template & Ht & Hlt); [lia|by apply (Hlaw w)|].
    eexists. unfold score_match, gesture_distance, py_fdiv_int.
    rewrite Ht. rewrite decide_False by lia. rewrite decide_False by lia.
    rewrite (ngram_probability_formula kb w prev e Hinv He).
    split; [done|]. exists e, template. split_and!; [done|done|lia|done]. }
  exists cands, (py_sort_desc cands). split_and!; [done|done| |apply py_sort_desc_ranked].
  unfold candidate_matches. rewrite Hgl. cbn [snd].
  rewrite matches_loop_filter by (intros; by apply prefilter_keeps).
  by rewrite Hcands.
Qed.
End match_facts.

Lemma lengths_apart_demo w e :
  w ∈ iter (kb_words demo_keyboard) → getitem (kb_words demo_keyboard) w = Some e →
  lengths_apart (we_path e).
Proof.
  change (iter (kb_words demo_keyboard))
    with [py_str "cat"; py_str "car"; py_str "can"; py_str "a"].
  intros Hw He cl c1 c0 Hcl H1 H0 Hne.
  repeat (apply elem_of_cons in Hw as [->|Hw]); try (by apply elem_of_nil in Hw).
  all: vm_compute in He; injection He as <-.
  all: vm_compute in Hcl; injection Hcl as <-.
  all: repeat (apply elem_of_cons in H1 as [->|H1]); try (by apply elem_of_nil in H1).
  all: repeat (apply elem_of_cons in H0 as [->|H0]); try (by apply elem_of_nil in H0).
  all: vm_compute in Hne; try discriminate Hne; vm_compute; reflexivity.
Qed.


Lemma stored_paths_demo w e :
  w ∈ iter (kb_words demo_keyboard) → getitem (kb_words demo_keyboard) w = Some e →
  path_in_range (we_path e) = true ∧ lengths_apart (we_path e).
Proof.
  intros Hw He. split; [|by apply (lengths_apart_demo w)].
  change (iter (kb_words demo_keyboard))
    with [py_str "cat"; py_str "car"; py_str "can"; py_str "a"] in Hw.
  repeat (apply elem_of_cons in Hw as [->|Hw]); try (by apply elem_of_nil in Hw).
  all: vm_compute in He; injection He as <-; vm_compute; reflexivity.
Qed.

Lemma distances_demo w template :
  w ∈ iter (kb_words demo_keyboard) →
  word_sample_n demo_keyboard w (Z.of_nat (length [pt 0 0; pt 1 0; pt 2 0])) = Ok template →
  distances_in_range [pt 0 0; pt 1 0; pt 2 0] template = true.
Proof.
  change (iter (kb_words demo_keyboard))
    with [py_str "cat"; py_str "car"; py_str "can"; py_str "a"].
  intros Hw Ht.
  repeat (apply elem_of_cons in Hw as [->|Hw]); try (by apply elem_of_nil in Hw).
  all: vm_compute in Ht; injection Ht as <-; vm_compute; reflexivity.
Qed.

(** X25 on the example keyboard, for a gesture along the keys of ["cat"]. *)
Lemma candidate_matches_returns_witness :
  session_inv demo_keyboard ∧ paths_stored demo_keyboard ∧
  (2 ≤ length [pt 0 0; pt 1 0; pt 2 0])%nat ∧
  path_in_range [pt 0 0; pt 1 0; pt 2 0] = true ∧
  (∀ w e, w ∈ iter (kb_words demo_keyboard) →
          getitem (kb_words demo_keyboard) w = Some e →
          path_in_range (we_path e) = true ∧ lengths_apart (we_path e)) ∧
  (∀ w template, w ∈ iter (kb_words demo_keyboard) →
          word_sample_n demo_keyboard w (Z.of_nat (length [pt 0 0; pt 1 0; pt 2 0]))
          = Ok template →
          distances_in_range [pt 0 0; pt 1 0; pt 2 0] template = true) ∧
  ∃ gl cands r,
    val_dist [pt 0 0; pt 1 0; pt 2 0] = Ok ([pt 0 0; pt 1 0; pt 2 0], gl) ∧
    Forall2 (scored_match demo_keyboard (py_str "the") [pt 0 0; pt 1 0; pt 2 0])
      (filter (λ w, keeps demo_keyboard [pt 0 0; pt 1 0; pt 2 0] gl w)
         (iter (kb_words demo_keyboard))) cands ∧
    candidate_matches demo_keyboard (py_str "the") [pt 0 0; pt 1 0; pt 2 0] = Ok r ∧
    ranked cands r.
Proof.
  assert (session_inv demo_keyboard) as Hinv by apply session_inv_init.
  assert (2 ≤ length [pt 0 0; pt 1 0; pt 2 0])%nat as Hlen by (cbn; lia).
  assert (path_in_range [pt 0 0; pt 1 0; pt 2 0] = true) as Hg by reflexivity.
  split; [exact Hinv|]. split; [exact paths_stored_demo|]. split; [exact Hlen|].
  split; [exact Hg|]. split; [exact stored_paths_demo|]. split; [exact distances_demo|].
  exact (candidate_matches_returns demo_keyboard (py_str "the") [pt 0 0; pt 1 0; pt 2 0]
           Hinv paths_stored_demo Hlen Hg stored_paths_demo distances_demo).
Defined.
